(** * Cesium: [MetadataSchema] and [Atmosphere]

    A shallow embedding of two constructors of the Cesium engine,
    [MetadataSchema] (Scene/MetadataSchema.js) and [Atmosphere]
    (Scene/Atmosphere.js), over a small model of the JavaScript object
    heap: objects with own properties kept in enumeration order, prototype
    chains, accessor properties, strict-mode assignment, [for ... in]
    enumeration and [hasOwnProperty]. *)

From Stdlib Require Import PrimFloat Uint63.
From stdpp Require Import base option list strings pretty.

Set Warnings "-inexact-float,-clear-no-such-hyp".

Set Default Proof Using "Type".
Open Scope string_scope.
Open Scope list_scope.
Open Scope nat_scope.

(** ** Values and objects *)

Abbreviation loc := nat.

(** A JavaScript value: the primitives and references to heap objects.
    A Number is an IEEE binary64; a String is its sequence of code units. *)
Inductive value :=
  | VUndefined
  | VNull
  | VBool (b : bool)
  | VNumber (x : float)
  | VString (s : string)
  | VObject (l : loc).

(** The functions that occur as accessors: [function () { return this.f; }]
    and the pair behind [Object.prototype.__proto__]. *)
Inductive getter :=
  | GetThisField (f : string)
  | GetPrototypeOf.

Inductive setter :=
  | SetPrototypeOf.

(** The one built-in method the sources call. *)
Inductive builtin :=
  | HasOwnProperty.

(** A property is a data property or an accessor property; both carry the
    [[Enumerable]] attribute. Data properties are writable and objects
    extensible: nothing in the sources freezes or seals an object. *)
Inductive property :=
  | Data (v : value) (enumerable : bool)
  | Accessor (get : option getter) (set : option setter) (enumerable : bool).

Definition enumerable (p : property) : bool :=
  match p with
  | Data _ e => e
  | Accessor _ _ e => e
  end.

(** An object: its [[Prototype]], its own properties in the order the engine
    lists them, and, for a function object, the code it runs. *)
Record object := Obj {
  proto : option loc;
  props : list (string * property);
  callable : option builtin
}.

Abbreviation heap := (list object).

(** ** Own properties *)

Fixpoint own (k : string) (ps : list (string * property)) : option property :=
  match ps with
  | [] => None
  | (k', p) :: ps' => if decide (k' = k) then Some p else own k ps'
  end.

Definition own_keys (ps : list (string * property)) : list string := ps.*1.

Definition enumerable_keys (ps : list (string * property)) : list string :=
  (filter (λ kp, enumerable kp.2 = true) ps).*1.

(** [o[k] = v] once it is settled that the write lands on the object itself:
    an existing data property keeps its place and attributes, a new key is
    added after the others as an enumerable data property. *)
Fixpoint store_own (k : string) (v : value) (ps : list (string * property))
  : list (string * property) :=
  match ps with
  | [] => [(k, Data v true)]
  | (k', p) :: ps' =>
      if decide (k' = k)
      then (k', match p with Data _ e => Data v e | _ => Data v true end) :: ps'
      else (k', p) :: store_own k v ps'
  end.

(** ** The built-in objects

    The heap starts with the objects the sources rely on. Of
    [Object.prototype] only the two properties that matter are listed:
    [hasOwnProperty], which the sources call, and [__proto__], the only
    accessor with a setter among the standard properties of
    [Object.prototype] (all others are writable, non-enumerable data
    properties, which neither an enumeration nor an assignment to an
    inheriting object can tell from absent ones). *)

Definition Object_prototype : loc := 0.
Definition Object_prototype_hasOwnProperty : loc := 1.
Definition MetadataSchema_prototype : loc := 2.
Definition Atmosphere_prototype : loc := 3.

Definition Object_prototype_object : object :=
  Obj None
      [("hasOwnProperty", Data (VObject Object_prototype_hasOwnProperty) false);
       ("__proto__", Accessor (Some GetPrototypeOf) (Some SetPrototypeOf) false)]
      None.

Definition hasOwnProperty_object : object :=
  Obj (Some Object_prototype) [] (Some HasOwnProperty).

(** [Object.defineProperties(MetadataSchema.prototype, { classes: { get: ... },
    ... })]: five accessors, each with a getter only; [defineProperties]
    leaves [enumerable] at its default, false. *)
Definition MetadataSchema_prototype_object : object :=
  Obj (Some Object_prototype)
      [("classes", Accessor (Some (GetThisField "_classes")) None false);
       ("enums", Accessor (Some (GetThisField "_enums")) None false);
       ("name", Accessor (Some (GetThisField "_name")) None false);
       ("description", Accessor (Some (GetThisField "_description")) None false);
       ("extras", Accessor (Some (GetThisField "_extras")) None false)]
      None.

(** [Atmosphere.prototype]: nothing is defined on it. *)
Definition Atmosphere_prototype_object : object := Obj (Some Object_prototype) [] None.

Definition realm : heap :=
  [Object_prototype_object; hasOwnProperty_object; MetadataSchema_prototype_object;
   Atmosphere_prototype_object].

(** ** Prototype chains *)

(** The objects reached from the prototype [p], nearest first. The walk is
    bounded by [fuel]; the language keeps prototype chains acyclic, so a
    chain in a heap of [n] objects has at most [n] links. [None] stands for
    a chain that does not end within the bound or leaves the heap. *)
Fixpoint chain_from (fuel : nat) (h : heap) (p : option loc) : option (list (loc * object)) :=
  match p with
  | None => Some []
  | Some l =>
      match fuel with
      | 0 => None
      | S n =>
          match h !! l with
          | None => None
          | Some o => cons (l, o) <$> chain_from n h (proto o)
          end
      end
  end.

Definition float_of_nat (n : nat) : float := PrimFloat.of_uint63 (Uint63.of_Z (Z.of_nat n)).

(** The own properties of a String value: its code units under their
    indices, and its length. *)
Definition string_props (s : string) : list (string * property) :=
  imap (λ i c, (pretty i, Data (VString (String c EmptyString)) true))
       (String.list_ascii_of_string s)
  ++ [("length", Data (VNumber (float_of_nat (String.length s))) false)].

(** ToObject, as a view: the object a value is when its properties are
    read. Undefined and null have none. The methods of [String.prototype],
    [Number.prototype] and [Boolean.prototype] are not modelled (none is
    enumerable and the sources call none): a primitive inherits from
    [Object.prototype] directly. *)
Definition view (h : heap) (v : value) : option object :=
  match v with
  | VUndefined | VNull => None
  | VBool _ | VNumber _ => Some (Obj (Some Object_prototype) [] None)
  | VString s => Some (Obj (Some Object_prototype) (string_props s) None)
  | VObject l => h !! l
  end.

(** The value viewed as an object, followed by its prototypes. *)
Definition chain (h : heap) (v : value) : option (list object) :=
  match view h v with
  | None => None
  | Some o =>
      match chain_from (length h) h (proto o) with
      | None => None
      | Some los => Some (o :: los.*2)
      end
  end.

(** The first property named [k] along a chain. *)
Fixpoint lookup_chain (k : string) (os : list object) : option property :=
  match os with
  | [] => None
  | o :: os' =>
      match own k (props o) with
      | Some p => Some p
      | None => lookup_chain k os'
      end
  end.

(** ** Completions *)

Inductive exn :=
  | TypeError
  | RangeError
  | InvalidArgument (name : string)
  | Thrown (v : value).

Inductive completion (A : Type) :=
  | Normal (a : A)
  | Throw (e : exn).
Arguments Normal {A} a.
Arguments Throw {A} e.

Definition proto_value (o : object) : value :=
  match proto o with
  | None => VNull
  | Some l => VObject l
  end.

(** The call stack is finite: a getter that calls a getter that ... gives up
    with a RangeError after [stack_limit] nested calls. *)
Definition stack_limit : nat := 64.

(** [v[k]] (and [v.k]). *)
Fixpoint Get_at (depth : nat) (h : heap) (v : value) (k : string) : completion value :=
  match depth with
  | 0 => Throw RangeError
  | S d =>
      match v with
      | VUndefined | VNull => Throw TypeError
      | _ =>
          match chain h v with
          | None => Throw RangeError
          | Some os =>
              match lookup_chain k os with
              | None => Normal VUndefined
              | Some (Data x _) => Normal x
              | Some (Accessor None _ _) => Normal VUndefined
              | Some (Accessor (Some (GetThisField f)) _ _) => Get_at d h v f
              | Some (Accessor (Some GetPrototypeOf) _ _) =>
                  Normal (from_option proto_value VUndefined (view h v))
              end
          end
      end
  end.

Definition Get (h : heap) (v : value) (k : string) : completion value :=
  Get_at stack_limit h v k.

(** ToBoolean. *)
Definition truthy (v : value) : bool :=
  match v with
  | VUndefined | VNull => false
  | VBool b => b
  | VNumber x => negb (PrimFloat.eqb x 0 || PrimFloat.is_nan x)
  | VString s => negb (bool_decide (s = ""))
  | VObject _ => true
  end.

(** [f.call(this, k)] for a string argument. *)
Definition Call (h : heap) (f this : value) (k : string) : completion value :=
  match f with
  | VObject lf =>
      match callable <$> h !! lf with
      | Some (Some HasOwnProperty) =>
          match view h this with
          | None => Throw TypeError
          | Some o => Normal (VBool (bool_decide (is_Some (own k (props o)))))
          end
      | _ => Throw TypeError
      end
  | _ => Throw TypeError
  end.

(** The keys a [for (k in v)] visits: the enumerable properties of the
    object and of its prototypes, nearest first, a key hidden by a property
    of a nearer object (enumerable or not) left out. Undefined and null are
    not iterated. *)
Fixpoint enumerate (seen : list string) (os : list object) : list string :=
  match os with
  | [] => []
  | o :: os' =>
      filter (λ k, k ∉ seen) (enumerable_keys (props o))
      ++ enumerate (seen ++ own_keys (props o)) os'
  end.

Definition for_in_keys (h : heap) (v : value) : list string :=
  match v with
  | VUndefined | VNull => []
  | _ => from_option (enumerate []) [] (chain h v)
  end.

(** ** Computations: a heap threaded through, an exception or a result, and
    the record of the constructor calls made *)

(** One [new C(arguments)]: the constructor's name, its arguments, the heap
    it was called in and how it completed. *)
Record event := Ev {
  ev_ctor : string;
  ev_args : list value;
  ev_heap : heap;
  ev_result : completion loc
}.

Definition M (A : Type) : Type := heap → completion A * heap * list event.

Definition ret {A} (a : A) : M A := λ h, (Normal a, h, []).

Definition throw {A} (e : exn) : M A := λ h, (Throw e, h, []).

Definition bind {A B} (m : M A) (f : A → M B) : M B := λ h,
  match m h with
  | (Normal a, h', es) => let '(r, h'', es') := f a h' in (r, h'', es ++ es')
  | (Throw e, h', es) => (Throw e, h', es)
  end.

Notation "'let!' x ':=' m 'in' k" := (bind m (λ x, k))
  (at level 10, x pattern, m at level 100, k at level 200).

(** An expression that only reads the heap. *)
Definition read {A} (f : heap → completion A) : M A := λ h, (f h, h, []).

Definition get (v : value) (k : string) : M value := read (λ h, Get h v k).

Definition call_method (this : value) (name k : string) : M value :=
  let! f := get this name in read (λ h, Call h f this k).

(** The keys of a [for (k in v)] loop, taken when the loop starts: the bodies
    of the loops in the sources add nothing to the object they iterate over,
    and a key that is gone when its turn comes fails the [hasOwnProperty]
    test of the body. *)
Definition for_in (v : value) : M (list string) := read (λ h, Normal (for_in_keys h v)).

(** A new object, at the first free location. *)
Definition alloc (o : object) : M loc := λ h, (Normal (length h), h ++ [o], []).

(** [{}] and [{ k1: v1, k2: v2 }]. *)
Definition literal (fields : list (string * value)) : object :=
  Obj (Some Object_prototype) (prod_map id (λ v, Data v true) <$> fields) None.

(** The setter behind [__proto__]: a value that is neither an object nor
    null is ignored; a prototype whose own chain leads back to the object is
    refused. *)
Definition set_prototype (l : loc) (v : value) : M unit := λ h,
  match h !! l with
  | None => (Throw RangeError, h, [])
  | Some o =>
      match v with
      | VNull => (Normal (), <[l := Obj None (props o) (callable o)]> h, [])
      | VObject l' =>
          match chain_from (length h) h (Some l') with
          | None => (Throw RangeError, h, [])
          | Some los =>
              if bool_decide (l ∈ los.*1)
              then (Throw TypeError, h, [])
              else (Normal (), <[l := Obj (Some l') (props o) (callable o)]> h, [])
          end
      | _ => (Normal (), h, [])
      end
  end.

(** [o[k] = v] in strict code, for an object [o]: an accessor found along
    the prototype chain takes the write (or refuses it, when it has no
    setter); otherwise the object gets or updates an own data property. *)
Definition Put (l : loc) (k : string) (v : value) : M unit := λ h,
  match h !! l, chain h (VObject l) with
  | Some o, Some os =>
      match lookup_chain k os with
      | Some (Accessor _ None _) => (Throw TypeError, h, [])
      | Some (Accessor _ (Some SetPrototypeOf) _) => set_prototype l v h
      | _ => (Normal (), <[l := Obj (proto o) (store_own k v (props o)) (callable o)]> h, [])
      end
  | _, _ => (Throw RangeError, h, [])
  end.

Fixpoint for_each {A} (xs : list A) (body : A → M unit) : M unit :=
  match xs with
  | [] => ret ()
  | x :: xs' => let! _ := body x in for_each xs' body
  end.

(** A constructor of another module: from its arguments and the heap, an
    exception or the new instance, and the heap it leaves. *)
Definition constructor : Type := list value → heap → completion loc * heap.

(** [new C(arguments)], recorded. *)
Definition new (name : string) (C : constructor) (args : list value) : M value := λ h,
  let '(r, h') := C args h in
  (match r with Normal l => Normal (VObject l) | Throw e => Throw e end,
   h', [Ev name args h r]).

(** ** The helpers of Core/ that [MetadataSchema] calls *)

(** Modelled from the spec: [Check.typeOf.object] (Core/Check.js is not among
    the sources). The input must be "a well-formed object (not null, not a
    primitive)"; otherwise the call "fails with an InvalidArgument
    condition". *)
Definition Check_typeOf_object (name : string) (test : value) : M unit :=
  match test with
  | VObject _ => ret ()
  | _ => throw (InvalidArgument name)
  end.

(** Modelled from the spec: [clone(object, true)] (Core/clone.js is not among
    the sources), a deep copy: a primitive is returned as it is; an object is
    copied into a new object with the same prototype, each own data property
    holding a deep copy of the value it held, so that the copy "holds no live
    reference back into the caller's raw input". The recursion is as deep as
    the value nests; the bound stands for the call stack. *)
Fixpoint clone_props (rec : value → heap → completion value * heap)
    (ps : list (string * property)) (h : heap)
  : completion (list (string * property)) * heap :=
  match ps with
  | [] => (Normal [], h)
  | (k, Data x e) :: ps' =>
      match rec x h with
      | (Normal x', h1) =>
          match clone_props rec ps' h1 with
          | (Normal qs, h2) => (Normal ((k, Data x' e) :: qs), h2)
          | (Throw err, h2) => (Throw err, h2)
          end
      | (Throw err, h1) => (Throw err, h1)
      end
  | (k, p) :: ps' =>
      match clone_props rec ps' h with
      | (Normal qs, h2) => (Normal ((k, p) :: qs), h2)
      | (Throw err, h2) => (Throw err, h2)
      end
  end.

Fixpoint clone_at (fuel : nat) (v : value) (h : heap) : completion value * heap :=
  match v with
  | VObject l =>
      match fuel with
      | 0 => (Throw RangeError, h)
      | S n =>
          match h !! l with
          | None => (Throw RangeError, h)
          | Some o =>
              match clone_props (clone_at n) (props o) h with
              | (Normal ps, h') =>
                  (Normal (VObject (length h')), h' ++ [Obj (proto o) ps (callable o)])
              | (Throw err, h') => (Throw err, h')
              end
          end
      end
  | _ => (Normal v, h)
  end.

Definition clone_deep (v : value) : M value := λ h,
  let '(r, h') := clone_at (length h) v h in (r, h', []).

(** ** [MetadataSchema] *)

Section MetadataSchema.

(** [MetadataEnum] and [MetadataClass] are imported from modules of their
    own: the schema is built over whatever these constructors are. *)
Variable MetadataEnum : constructor.
Variable MetadataClass : constructor.

(** The body of the first loop: [if (schema.enums.hasOwnProperty(enumId))
    enums[enumId] = new MetadataEnum({ id: enumId, enum: schema.enums[enumId] })]. *)
Definition enum_entry (schema : value) (enums : loc) (enumId : string) : M unit :=
  let! schema_enums := get schema "enums" in
  let! has := call_method schema_enums "hasOwnProperty" enumId in
  if truthy has then
    let! schema_enums := get schema "enums" in
    let! definition := get schema_enums enumId in
    let! options := alloc (literal [("id", VString enumId); ("enum", definition)]) in
    let! enum := new "MetadataEnum" MetadataEnum [VObject options] in
    Put enums enumId enum
  else ret ().

(** The body of the second loop: [if (schema.classes.hasOwnProperty(classId))
    classes[classId] = new MetadataClass({ id: classId,
    class: schema.classes[classId], enums: enums })]. *)
Definition class_entry (schema : value) (enums classes : loc) (classId : string) : M unit :=
  let! schema_classes := get schema "classes" in
  let! has := call_method schema_classes "hasOwnProperty" classId in
  if truthy has then
    let! schema_classes := get schema "classes" in
    let! definition := get schema_classes classId in
    let! options := alloc (literal [("id", VString classId); ("class", definition);
                                    ("enums", VObject enums)]) in
    let! class := new "MetadataClass" MetadataClass [VObject options] in
    Put classes classId class
  else ret ().

(** [new MetadataSchema(schema)]. *)
Definition MetadataSchema (schema : value) : M value :=
  let! this := alloc (Obj (Some MetadataSchema_prototype) [] None) in
  let! _ := Check_typeOf_object "schema" schema in

  let! enums := alloc (literal []) in
  let! schema_enums := get schema "enums" in
  let! enumIds := for_in schema_enums in
  let! _ := for_each enumIds (enum_entry schema enums) in

  let! classes := alloc (literal []) in
  let! schema_classes := get schema "classes" in
  let! classIds := for_in schema_classes in
  let! _ := for_each classIds (class_entry schema enums classes) in

  let! _ := Put this "_classes" (VObject classes) in
  let! _ := Put this "_enums" (VObject enums) in
  let! name := get schema "name" in
  let! _ := Put this "_name" name in
  let! description := get schema "description" in
  let! _ := Put this "_description" description in
  let! extras := get schema "extras" in
  let! copy := clone_deep extras in
  let! _ := Put this "_extras" copy in
  ret (VObject this).

End MetadataSchema.

(** The last five assignments of [MetadataSchema], named for the proofs. *)
Definition assemble (schema : value) (this enums classes : loc) : M value :=
  let! _ := Put this "_classes" (VObject classes) in
  let! _ := Put this "_enums" (VObject enums) in
  let! name := get schema "name" in
  let! _ := Put this "_name" name in
  let! description := get schema "description" in
  let! _ := Put this "_description" description in
  let! extras := get schema "extras" in
  let! copy := clone_deep extras in
  let! _ := Put this "_extras" copy in
  ret (VObject this).

(** ** The Enum and Class units, from the spec

    The theorems below that speak of every constructor are stated over the
    two variables of the section above; the instances here serve where a
    concrete pair is needed. *)

(** Modelled from the spec: the Enum unit (Scene/MetadataEnum.js is not among
    the sources), "a constructable unit that accepts a raw enum-definition
    object and an identifier, and exposes that identifier". *)
Definition Enum_unit : constructor := λ args h,
  let options := default VUndefined (head args) in
  match Get h options "id", Get h options "enum" with
  | Normal id, Normal body =>
      (Normal (length h), h ++ [literal [("id", id); ("definition", body)]])
  | Throw e, _ => (Throw e, h)
  | _, Throw e => (Throw e, h)
  end.

(** The enum each property definition of a class refers to, looked up by
    identifier in the enum mapping. The spec leaves the shape of a raw class
    definition to the Class unit; here a class lists its property
    definitions under [properties] and a property definition names its enum
    under [enumType]. *)
Fixpoint resolve_enums (h : heap) (enums definitions : value) (ks : list string)
  : completion (list (string * value)) :=
  match ks with
  | [] => Normal []
  | k :: ks' =>
      match Get h definitions k with
      | Normal (VObject d) =>
          match Get h (VObject d) "enumType" with
          | Normal (VString id) =>
              match Get h enums id with
              | Normal VUndefined => Throw (Thrown (VString id))
              | Normal e =>
                  match resolve_enums h enums definitions ks' with
                  | Normal fields => Normal ((k, e) :: fields)
                  | Throw err => Throw err
                  end
              | Throw err => Throw err
              end
          | Normal _ =>
              match resolve_enums h enums definitions ks' with
              | Normal fields => Normal ((k, VUndefined) :: fields)
              | Throw err => Throw err
              end
          | Throw err => Throw err
          end
      | Normal _ => Throw TypeError
      | Throw err => Throw err
      end
  end.

(** Modelled from the spec: the Class unit (Scene/MetadataClass.js is not
    among the sources), "a constructable unit that accepts a raw
    class-definition object plus the resolved enum table and exposes a stable
    identifier"; it "fails if a class references an enum identifier absent
    from the supplied enum mapping". *)
Definition Class_unit : constructor := λ args h,
  let options := default VUndefined (head args) in
  match Get h options "id", Get h options "class", Get h options "enums" with
  | Normal id, Normal body, Normal enums =>
      match Get h body "properties" with
      | Normal ps =>
          match resolve_enums h enums ps
                  (from_option (λ o, enumerable_keys (props o)) [] (view h ps)) with
          | Normal fields =>
              (Normal (S (length h)),
               h ++ [literal fields;
                     literal [("id", id); ("properties", VObject (length h))]])
          | Throw e => (Throw e, h)
          end
      | Throw e => (Throw e, h)
      end
  | Throw e, _, _ => (Throw e, h)
  | _, Throw e, _ => (Throw e, h)
  | _, _, Throw e => (Throw e, h)
  end.

(** ** [Atmosphere] *)

Section Atmosphere.

(** [Cartesian2] and [Cartesian3] are imported constructors, and
    [DynamicAtmosphereLightingType.NONE] an imported constant. *)
Variable Cartesian2 : constructor.
Variable Cartesian3 : constructor.
Variable DynamicAtmosphereLightingType_NONE : value.

(** [new Atmosphere()]. *)
Definition Atmosphere : M value :=
  let! this := alloc (Obj (Some Atmosphere_prototype) [] None) in
  let! _ := Put this "lightIntensity" (VNumber 10.0) in
  let! rayleigh := new "Cartesian3" Cartesian3
                     [VNumber 5.5e-6; VNumber 13.0e-6; VNumber 28.4e-6] in
  let! _ := Put this "rayleighCoefficient" rayleigh in
  let! mie := new "Cartesian3" Cartesian3 [VNumber 21e-6; VNumber 21e-6; VNumber 21e-6] in
  let! _ := Put this "mieCoefficient" mie in
  let! _ := Put this "rayleighScaleHeight" (VNumber 10000.0) in
  let! _ := Put this "mieScaleHeight" (VNumber 3200.0) in
  let! _ := Put this "mieAnisotropy" (VNumber 0.9) in
  let! _ := Put this "hueShift" (VNumber 0.0) in
  let! _ := Put this "saturationShift" (VNumber 0.0) in
  let! _ := Put this "brightnessShift" (VNumber 0.0) in
  let! _ := Put this "dynamicLighting" DynamicAtmosphereLightingType_NONE in
  let! lighting := new "Cartesian2" Cartesian2 [VNumber 1.0e7; VNumber 2.0e7] in
  let! _ := Put this "lightingFadeRange" lighting in
  let! night := new "Cartesian2" Cartesian2 [VNumber 1.0e7; VNumber 5.0e7] in
  let! _ := Put this "nightFadeRange" night in
  let! _ := Put this "showGroundAtmosphere" (VBool true) in
  ret (VObject this).

End Atmosphere.

(** ** What the theorems speak of *)

(** A constructor keeps its hands off the objects that exist when it is
    called: it may only add objects. *)
Definition allocates_only (C : constructor) : Prop :=
  ∀ args h r h', C args h = (r, h') → h `prefix_of` h'.

(** The instance a constructor returns is a new object: one of those the
    call added. *)
Definition returns_new (C : constructor) : Prop :=
  ∀ args h l h', C args h = (Normal l, h') → length h ≤ l < length h'.

(** The content of a value: the value itself for a primitive, and for an
    object its prototype and its own properties, each data property with
    the content of its value. A content is a finite tree: [None] stands for
    a value whose content is not (a cyclic structure, a reference out of the
    heap). *)
Inductive tree :=
  | TValue (v : value)
  | TObject (p : option loc) (c : option builtin) (fields : list (string * tree_property))
with tree_property :=
  | TData (t : tree) (e : bool)
  | TAccessor (get : option getter) (set : option setter) (e : bool).

Fixpoint snapshot_props (rec : value → option tree) (ps : list (string * property))
  : option (list (string * tree_property)) :=
  match ps with
  | [] => Some []
  | (k, Data x e) :: ps' =>
      match rec x, snapshot_props rec ps' with
      | Some t, Some ts => Some ((k, TData t e) :: ts)
      | _, _ => None
      end
  | (k, Accessor g s e) :: ps' =>
      match snapshot_props rec ps' with
      | Some ts => Some ((k, TAccessor g s e) :: ts)
      | None => None
      end
  end.

Fixpoint snapshot (fuel : nat) (h : heap) (v : value) : option tree :=
  match v with
  | VObject l =>
      match fuel with
      | 0 => None
      | S n =>
          match h !! l with
          | None => None
          | Some o =>
              match snapshot_props (snapshot n h) (props o) with
              | Some ts => Some (TObject (proto o) (callable o) ts)
              | None => None
              end
          end
      end
  | _ => Some (TValue v)
  end.

Definition content (h : heap) (v : value) : option tree := snapshot (length h) h v.

(** The field [field] of the raw schema holds a mapping: an object, here
    [m] at [lm], whose prototype chain ends and whose own keys are distinct. *)
Definition mapping_at (h : heap) (schema : value) (field : string) (lm : loc) (m : object)
  : Prop :=
  Get h schema field = Normal (VObject lm) ∧ h !! lm = Some m
  ∧ is_Some (chain h (VObject lm)) ∧ NoDup (own_keys (props m)).

(** A well-formed raw schema: an object whose [enums] and [classes] are
    each absent or a mapping. *)
Definition field_ok (h : heap) (schema : value) (field : string) : Prop :=
  Get h schema field = Normal VUndefined ∨ ∃ lm m, mapping_at h schema field lm m.

Definition wf_raw_schema (h : heap) (schema : value) : Prop :=
  (∃ l, schema = VObject l) ∧ field_ok h schema "enums" ∧ field_ok h schema "classes".

(** The keys of the mapping under [field]: its own enumerable property
    keys; none when the field is absent. *)
Definition input_keys (h : heap) (schema : value) (field : string) : list string :=
  match Get h schema field with
  | Normal v => from_option (λ o, enumerable_keys (props o)) [] (view h v)
  | Throw _ => []
  end.

(** The own keys of the object a value refers to. *)
Definition keys_of (h : heap) (v : value) : list string :=
  from_option (λ o, own_keys (props o)) [] (view h v).

(** The five accessors of a Schema and the fields they read. *)
Definition accessors : list (string * string) :=
  [("classes", "_classes"); ("enums", "_enums"); ("name", "_name");
   ("description", "_description"); ("extras", "_extras")].

(** A Schema instance whose five fields hold the given values. *)
Definition schema_object (classes enums : loc) (name description extras : value) : object :=
  Obj (Some MetadataSchema_prototype)
      [("_classes", Data (VObject classes) true); ("_enums", Data (VObject enums) true);
       ("_name", Data name true); ("_description", Data description true);
       ("_extras", Data extras true)]
      None.

(** A recorded event is genuine when it is a call of one of the two
    constructors, with the completion the constructor had. *)
Definition genuine (MetadataEnum MetadataClass : constructor) (ev : event) : Prop :=
  (ev_ctor ev = "MetadataEnum"
   ∧ ev_result ev = (MetadataEnum (ev_args ev) (ev_heap ev)).1)
  ∨ (ev_ctor ev = "MetadataClass"
     ∧ ev_result ev = (MetadataClass (ev_args ev) (ev_heap ev)).1).

(** A computation that records no constructor call. *)
Definition quiet {A} (m : M A) : Prop :=
  ∀ h r h' evs, m h = (r, h', evs) → evs = [].

(** A computation whose record is genuine and stops at the first call that
    throws, completing with what the call threw. *)
Definition faithful (MetadataEnum MetadataClass : constructor) {A} (m : M A) : Prop :=
  ∀ h r h' evs, m h = (r, h', evs) →
    Forall (genuine MetadataEnum MetadataClass) evs
    ∧ ∀ i ev e, evs !! i = Some ev → ev_result ev = Throw e →
        r = Throw e ∧ S i = length evs.

(** A computation that leaves alone the objects below [n] that satisfy [P]:
    they are the same in the heap it ends in, and in the heap of every
    constructor call it makes, as in the heap it started in; and the heap
    does not shrink. *)
Definition keeps (n : nat) (P : loc → Prop) {A} (m : M A) : Prop :=
  ∀ h r h' evs, n ≤ length h → m h = (r, h', evs) →
    length h ≤ length h'
    ∧ (∀ l, l < n → P l → h' !! l = h !! l)
    ∧ Forall (λ ev, length h ≤ length (ev_heap ev)
                    ∧ ∀ l, l < n → P l → ev_heap ev !! l = h !! l) evs.

(** What is left of [MetadataSchema] after the first loop, named for the
    proofs. *)
Definition after_enums (MetadataClass : constructor) (schema : value) (this enums : loc)
  : M value :=
  let! classes := alloc (literal []) in
  let! schema_classes := get schema "classes" in
  let! classIds := for_in schema_classes in
  let! _ := for_each classIds (class_entry MetadataClass schema enums classes) in
  assemble schema this enums classes.

(** A computation all of whose constructor calls satisfy [Q]. *)
Definition emits (Q : event → Prop) {A} (m : M A) : Prop :=
  ∀ h r h' evs, m h = (r, h', evs) → Forall Q evs.

(** A call [new MetadataClass({ ..., enums: E })]. *)
Definition class_call (E : loc) (ev : event) : Prop :=
  ev_ctor ev = "MetadataClass"
  ∧ ∃ options, ev_args ev = [VObject options]
      ∧ Get (ev_heap ev) (VObject options) "enums" = Normal (VObject E).

(** The two loop bodies are one body, up to the names: the field of the raw
    schema read, the constructor called, and the fields of its argument. *)
Definition table_entry (C : constructor) (name field key : string)
    (more : list (string * value)) (schema : value) (table : loc) (k : string) : M unit :=
  let! mapping := get schema field in
  let! has := call_method mapping "hasOwnProperty" k in
  if truthy has then
    let! mapping := get schema field in
    let! definition := get mapping k in
    let! options := alloc (literal (("id", VString k) :: (key, definition) :: more)) in
    let! instance := new name C [VObject options] in
    Put table k instance
  else ret ().

(** The constructor call of one round of a loop, for the key [k]: the
    argument is a new object literal [{ id: k, key: definition, ... }]. *)
Definition entry_call (C : constructor) (name key : string) (more : list (string * value))
    (k : string) (definition : value) (h : heap) (hc : heap) (rc : completion loc) : event :=
  Ev name [VObject (length h)]
     (h ++ [literal (("id", VString k) :: (key, definition) :: more)]) rc.

(** A constructor call made by a loop over the keys [ks]: for an own key of
    the mapping [m], with the definition the mapping has under that key. *)
Definition loop_call (C : constructor) (name key : string) (more : list (string * value))
    (mapping : value) (m : object) (hb : heap) (ks : list string) (ev : event) : Prop :=
  ∃ k definition hcall hc rc,
    k ∈ ks ∧ is_Some (own k (props m)) ∧ Get hb mapping k = Normal definition
    ∧ hb `prefix_of` hcall
    ∧ ev = entry_call C name key more k definition hcall hc rc.

(** An entry of a table that a loop made: an instance that a call of the
    constructor returned, between the heaps [h] and [h']. *)
Definition made (C : constructor) (h h' : heap) (p : property) : Prop :=
  ∃ instance args hcall hc,
    p = Data (VObject instance) true ∧ C args hcall = (Normal instance, hc)
    ∧ length h ≤ length hcall ∧ length hc ≤ length h'.

(** No identifier of the raw schema is [__proto__]. *)
Definition plain_ids (h : heap) (schema : value) : Prop :=
  ("__proto__" ∉ input_keys h schema "enums")
  ∧ ("__proto__" ∉ input_keys h schema "classes").

(** A table: a plain object with the properties [ps]. *)
Definition table_object (ps : list (string * property)) : object :=
  Obj (Some Object_prototype) ps None.

(** A constructor call whose argument has the identifier [k] under [id],
    [k] being a key of the mapping under [field]. *)
Definition call_for_key (h : heap) (schema : value) (field : string) (ev : event) : Prop :=
  ∃ k options,
    k ∈ input_keys h schema field ∧ ev_args ev = [VObject options]
    ∧ Get (ev_heap ev) (VObject options) "id" = Normal (VString k).

(** Two values that are the same value or have the same content. *)
Definition similar (h : heap) (x1 x2 : value) : Prop :=
  x1 = x2 ∨ ∃ t, content h x1 = Some t ∧ content h x2 = Some t.

(** The entries of a table: its own properties, without the keys. *)
Definition entries_of (h : heap) (v : value) : list property :=
  from_option (λ o, (props o).*2) [] (view h v).

(** The own enumerable keys in a content. *)
Definition tree_enumerable (p : tree_property) : bool :=
  match p with
  | TData _ e => e
  | TAccessor _ _ e => e
  end.

Definition tree_enumerable_keys (ts : list (string * tree_property)) : list string :=
  (filter (λ kp, tree_enumerable kp.2 = true) ts).*1.

(** The property under a key in a content. *)
Fixpoint tree_own (k : string) (ts : list (string * tree_property)) : option tree_property :=
  match ts with
  | [] => None
  | (k', p) :: ts' => if decide (k' = k) then Some p else tree_own k ts'
  end.

(** ** Concrete inputs

    The heaps and the constructor of the concrete runs at the end. *)

(** A constructor that returns a new object with its arguments under [x],
    [y] and [z] (Core/Cartesian2.js and Core/Cartesian3.js are not among the
    sources; the theorem on [Atmosphere] is about every constructor that only
    allocates, this one serves a concrete run). *)
Definition Cartesian_unit : constructor := λ args h,
  (Normal (length h), h ++ [literal (zip ["x"; "y"; "z"] args)]).

(** The objects of a raw schema with one enum, one class with a property of
    that enum, a name, a description and nested extras, laid out from the
    location [base] on. *)
Definition sample_objects (base : loc) : list object :=
  [ literal [("enums", VObject (base + 1)); ("classes", VObject (base + 3));
             ("name", VString "city"); ("description", VString "a city block");
             ("extras", VObject (base + 7))];
    literal [("color", VObject (base + 2))];
    literal [("valueType", VString "UINT8")];
    literal [("building", VObject (base + 4))];
    literal [("properties", VObject (base + 5))];
    literal [("paint", VObject (base + 6))];
    literal [("enumType", VString "color")];
    literal [("author", VString "ada"); ("tags", VObject (base + 8))];
    literal [("draft", VBool true)] ].

(** [{}] at location 4. *)
Definition empty_schema_heap : heap := realm ++ [literal []].

(** The sample schema at location 4. *)
Definition sample_heap : heap := realm ++ sample_objects 4.

(** The sample schema twice, at locations 4 and 13: two raw inputs with the
    same content and no object in common. *)
Definition twin_heap : heap := realm ++ sample_objects 4 ++ sample_objects 13.

(** [{ enums: { __proto__: { valueType: "UINT8" } } }] as [JSON.parse]
    builds it, with [__proto__] an own property of the mapping. *)
Definition proto_key_heap : heap :=
  realm ++ [literal [("enums", VObject 5)];
            literal [("__proto__", VObject 6)];
            literal [("valueType", VString "UINT8")]].

(** A schema whose class has a property of the enum [color] and that has no
    enums. *)
Definition missing_enum_heap : heap :=
  realm ++ [literal [("classes", VObject 5)];
            literal [("building", VObject 6)];
            literal [("properties", VObject 7)];
            literal [("paint", VObject 8)];
            literal [("enumType", VString "color")]].

(** A schema whose enums mapping has the own key [color] and inherits the
    enumerable key [ghost] from its prototype. *)
Definition inherited_key_heap : heap :=
  realm ++ [literal [("enums", VObject 5)];
            Obj (Some 6) [("color", Data (VObject 7) true)] None;
            literal [("ghost", VObject 7)];
            literal [("valueType", VString "UINT8")]].

(** ** What the further theorems speak of *)

(** The values in which a [for ... in] finds no key, whatever the heap:
    undefined, null, the booleans and the numbers. *)
Definition keyless (v : value) : Prop :=
  match v with
  | VUndefined | VNull | VBool _ | VNumber _ => True
  | VString _ | VObject _ => False
  end.

(** The names of the fields that the constructor [MetadataSchema] assigns, in
    the order of the assignments. *)
Definition schema_fields : list string :=
  ["_classes"; "_enums"; "_name"; "_description"; "_extras"].

(** One round of a loop, from outside. The call [ev] is a call of the
    constructor [name] with one argument, a new object
    [{ id: k, key: definition, ... }], where [definition] is what the mapping
    under [field] of the raw schema holds under [k]; the call returned an
    instance, and in the heap [h'] the table holds that instance under [k]. *)
Definition entry_of (h : heap) (schema : value) (name field key : string)
    (more : list (string * value)) (h' : heap) (table : loc) (k : string) (ev : event)
  : Prop :=
  ∃ mapping definition options instance,
    Get h schema field = Normal mapping ∧ Get h mapping k = Normal definition
    ∧ ev_ctor ev = name ∧ ev_args ev = [VObject options]
    ∧ h !! options = None
    ∧ ev_heap ev !! options
      = Some (literal (("id", VString k) :: (key, definition) :: more))
    ∧ ev_result ev = Normal instance
    ∧ Get h' (VObject table) k = Normal (VObject instance).

(** The names of the fields that the constructor [Atmosphere] assigns, in
    the order of the assignments. *)
Definition atmosphere_fields : list string :=
  ["lightIntensity"; "rayleighCoefficient"; "mieCoefficient"; "rayleighScaleHeight";
   "mieScaleHeight"; "mieAnisotropy"; "hueShift"; "saturationShift"; "brightnessShift";
   "dynamicLighting"; "lightingFadeRange"; "nightFadeRange"; "showGroundAtmosphere"].

(** ** Further concrete inputs *)

(** A constructor that throws whatever it is given, for a concrete run in
    which a constructor fails. *)
Definition Failing_unit : constructor := λ args h,
  (Throw (Thrown (VString "invalid")), h).

(** [{ enums: { hasOwnProperty: { valueType: "UINT8" } } }]. *)
Definition shadowing_heap : heap :=
  realm ++ [literal [("enums", VObject 5)];
            literal [("hasOwnProperty", VObject 6)];
            literal [("valueType", VString "UINT8")]].

(** [{ enums: null, classes: 3 }]. *)
Definition keyless_heap : heap :=
  realm ++ [literal [("enums", VNull); ("classes", VNumber 3)]].

(** [{ enums: { __proto__: { valueType: "UINT8" } },
       classes: { building: { properties: {} } } }], with [__proto__] an own
    property of the enums mapping, as [JSON.parse] builds it. *)
Definition proto_enum_class_heap : heap :=
  realm ++ [literal [("enums", VObject 5); ("classes", VObject 7)];
            literal [("__proto__", VObject 6)];
            literal [("valueType", VString "UINT8")];
            literal [("building", VObject 8)];
            literal [("properties", VObject 9)];
            literal []].

(** An instance inherits no setter but that of [__proto__]: along the
    prototype chain of the instance a constructor returns, itself included,
    no property other than [__proto__] is an accessor with a setter. *)
Definition instances_inherit_no_setter (C : constructor) : Prop :=
  ∀ args h l h' los k g s e,
    realm `prefix_of` h →
    C args h = (Normal l, h') → chain_from (length h') h' (Some l) = Some los →
    lookup_chain k los.*2 = Some (Accessor g (Some s) e) → k = "__proto__".

(** * Properties *)

Ltac in_list := repeat first [apply list_elem_of_here | apply list_elem_of_further].

(** ** Own properties *)

Lemma own_None (k : string) (ps : list (string * property)) :
  own k ps = None ↔ k ∉ own_keys ps.
Proof.
  unfold own_keys. induction ps as [|[k' p] ps IH]; simpl.
  - split; [intros _; apply not_elem_of_nil | done].
  - rewrite not_elem_of_cons. destruct (decide (k' = k)) as [->|Hne].
    + split; [done | intros [? _]; done].
    + rewrite IH. split; [intros ?; split; [congruence | done] | intros [_ ?]; done].
Qed.

Lemma own_is_Some (k : string) (ps : list (string * property)) :
  is_Some (own k ps) ↔ k ∈ own_keys ps.
Proof.
  rewrite <- not_eq_None_Some, own_None.
  split; [apply dec_stable | auto].
Qed.

Lemma enumerable_keys_own (k : string) (ps : list (string * property)) :
  k ∈ enumerable_keys ps → k ∈ own_keys ps.
Proof.
  unfold enumerable_keys, own_keys. rewrite !list_elem_of_fmap.
  intros ([k' p] & -> & Hin). apply list_elem_of_filter in Hin as [_ Hin].
  by exists (k', p).
Qed.

Lemma store_own_new (k : string) (v : value) (ps : list (string * property)) :
  k ∉ own_keys ps → store_own k v ps = ps ++ [(k, Data v true)].
Proof.
  unfold own_keys. induction ps as [|[k' p] ps IH]; simpl; [done |].
  rewrite not_elem_of_cons. intros [Hne Hnin].
  destruct (decide (k' = k)); [congruence |]. by rewrite IH.
Qed.

Lemma own_app_new (k : string) (p : property) (ps : list (string * property)) :
  k ∉ own_keys ps → own k (ps ++ [(k, p)]) = Some p.
Proof.
  unfold own_keys. induction ps as [|[k' q] ps IH]; simpl.
  - intros _. by rewrite decide_True.
  - rewrite not_elem_of_cons. intros [Hne Hnin].
    destruct (decide (k' = k)); [congruence | auto].
Qed.

Lemma own_app_old (k k' : string) (p : property) (ps : list (string * property)) :
  k ≠ k' → own k (ps ++ [(k', p)]) = own k ps.
Proof.
  intros Hne. induction ps as [|[k'' q] ps IH]; simpl.
  - by rewrite decide_False.
  - destruct (decide (k'' = k)); auto.
Qed.

Lemma own_keys_store_own (k j : string) (v : value) (ps : list (string * property)) :
  j ∈ own_keys (store_own k v ps) ↔ j = k ∨ j ∈ own_keys ps.
Proof.
  unfold own_keys. induction ps as [|[k' p] ps IH]; simpl.
  - rewrite list_elem_of_singleton. split; [auto | intros [?|H]; [done | inversion H]].
  - destruct (decide (k' = k)) as [->|Hne]; simpl.
    + rewrite !elem_of_cons. naive_solver.
    + rewrite !elem_of_cons, IH. naive_solver.
Qed.

(** ** Heaps that grow *)

Lemma prefix_insert_above (hb h : heap) (l : loc) (o : object) :
  hb `prefix_of` h → length hb ≤ l → hb `prefix_of` <[l := o]> h.
Proof.
  intros [k ->] Hl. exists (<[l - length hb := o]> k).
  by rewrite insert_app_r_alt.
Qed.

Lemma prefix_snoc (hb h : heap) (o : object) : hb `prefix_of` h → hb `prefix_of` h ++ [o].
Proof. intros H. by apply prefix_app_r. Qed.

Lemma chain_from_ext (n m : nat) (h h' : heap) (p : option loc) (los : list (loc * object)) :
  chain_from n h p = Some los → n ≤ m →
  (∀ l o, (l, o) ∈ los → h' !! l = Some o) →
  chain_from m h' p = Some los.
Proof.
  revert m p los. induction n as [|n IH]; intros m p los Hc Hle Hag.
  - destruct p; simpl in Hc; [done |]. destruct m; simpl; done.
  - destruct p as [l|]; [| destruct m; simpl in *; done].
    simpl in Hc. destruct (h !! l) as [o|] eqn:Hl; [|done].
    destruct (chain_from n h (proto o)) as [los'|] eqn:Hn; [|done].
    simpl in Hc. injection Hc as <-.
    destruct m as [|m]; [lia |]. simpl.
    rewrite (Hag l o) by apply list_elem_of_here.
    rewrite (IH m (proto o) los'); [done | done | lia |].
    intros l' o' Hin. apply Hag. by apply list_elem_of_further.
Qed.

Lemma chain_from_lookup (n : nat) (h : heap) (p : option loc) (los : list (loc * object)) :
  chain_from n h p = Some los → ∀ l o, (l, o) ∈ los → h !! l = Some o.
Proof.
  revert p los. induction n as [|n IH]; intros p los Hc l o Hin.
  - destruct p; simpl in Hc; [done |]. injection Hc as <-. inversion Hin.
  - destruct p as [l0|]; simpl in Hc; [| injection Hc as <-; inversion Hin].
    destruct (h !! l0) as [o0|] eqn:Hl; [|done].
    destruct (chain_from n h (proto o0)) as [los'|] eqn:Hn; [|done].
    simpl in Hc. injection Hc as <-.
    apply elem_of_cons in Hin as [[= -> ->]|Hin]; [done |]. by eapply IH.
Qed.

Lemma chain_from_prefix (h h' : heap) (p : option loc) (los : list (loc * object)) :
  chain_from (length h) h p = Some los → h `prefix_of` h' →
  chain_from (length h') h' p = Some los.
Proof.
  intros Hc Hpre. eapply chain_from_ext; [done | by apply prefix_length |].
  intros l o Hin. eapply prefix_lookup_Some; [|done]. by eapply chain_from_lookup.
Qed.

Lemma view_prefix (h h' : heap) (v : value) (o : object) :
  view h v = Some o → h `prefix_of` h' → view h' v = Some o.
Proof.
  destruct v; simpl; try done. intros. by eapply prefix_lookup_Some.
Qed.

Lemma chain_prefix (h h' : heap) (v : value) (os : list object) :
  chain h v = Some os → h `prefix_of` h' → chain h' v = Some os.
Proof.
  unfold chain. intros Hc Hpre.
  destruct (view h v) as [o|] eqn:Hv; [|done].
  rewrite (view_prefix h h' v o) by done.
  destruct (chain_from (length h) h (proto o)) as [los|] eqn:Hf; [|done].
  by rewrite (chain_from_prefix h h' (proto o) los).
Qed.

(** Reading a property depends on the heap through the value's view and
    prototype chain only. *)
Lemma Get_at_ext (d : nat) (h h' : heap) (v : value) (k : string) :
  chain h' v = chain h v → view h' v = view h v →
  Get_at d h' v k = Get_at d h v k.
Proof.
  intros Hc Hv. revert k. induction d as [|d IH]; intros k; simpl; [done |].
  rewrite Hc, Hv. destruct v; try done;
    destruct (chain h _) as [os|]; try done;
    destruct (lookup_chain k os) as [[?|[[f|]|] ? ?]|]; try done; apply IH.
Qed.

Lemma chain_view (h : heap) (v : value) (os : list object) :
  chain h v = Some os → ∃ o, view h v = Some o.
Proof. unfold chain. destruct (view h v); [eauto | done]. Qed.

Lemma Get_at_prefix (d : nat) (h h' : heap) (v : value) (k : string) :
  is_Some (chain h v) → h `prefix_of` h' → Get_at d h' v k = Get_at d h v k.
Proof.
  intros [os Hc] Hpre. destruct (chain_view _ _ _ Hc) as [o Hv].
  apply Get_at_ext.
  - rewrite Hc. by eapply chain_prefix.
  - rewrite Hv. by eapply view_prefix.
Qed.

Lemma Get_at_Normal_chain (d : nat) (h : heap) (v : value) (k : string) (x : value) :
  Get_at d h v k = Normal x → is_Some (chain h v).
Proof.
  destruct d as [|d]; simpl; [done |].
  destruct v; try done; destruct (chain h _); done || eauto.
Qed.

Lemma Get_Normal_chain (h : heap) (v : value) (k : string) (x : value) :
  Get h v k = Normal x → is_Some (chain h v).
Proof. apply Get_at_Normal_chain. Qed.

Lemma Get_at_prefix_Normal (d : nat) (h h' : heap) (v : value) (k : string) (x : value) :
  Get_at d h v k = Normal x → h `prefix_of` h' → Get_at d h' v k = Normal x.
Proof.
  intros HG Hpre.
  rewrite (Get_at_prefix d h h'); [exact HG | | exact Hpre].
  eapply Get_at_Normal_chain. exact HG.
Qed.

Lemma Get_prefix_eq (h h' : heap) (v : value) (k : string) :
  is_Some (chain h v) → h `prefix_of` h' → Get h' v k = Get h v k.
Proof. apply Get_at_prefix. Qed.

Lemma Get_prefix (h h' : heap) (v : value) (k : string) (x : value) :
  Get h v k = Normal x → h `prefix_of` h' → Get h' v k = Normal x.
Proof. apply Get_at_prefix_Normal. Qed.

Lemma for_in_keys_prefix (h h' : heap) (v : value) :
  is_Some (chain h v) → h `prefix_of` h' → for_in_keys h' v = for_in_keys h v.
Proof.
  intros [os Hc] Hpre. unfold for_in_keys.
  by rewrite Hc, (chain_prefix h h' v os).
Qed.

(** ** Running computations *)

Lemma bind_step {A B} (m : M A) (f : A → M B) (h h' : heap) (a : A) :
  m h = (Normal a, h', []) → bind m f h = f a h'.
Proof. unfold bind. intros ->. by destruct (f a h') as [[? ?] ?]. Qed.

Lemma bind_throw {A B} (m : M A) (f : A → M B) (h h' : heap) (e : exn) (es : list event) :
  m h = (Throw e, h', es) → bind m f h = (Throw e, h', es).
Proof. unfold bind. by intros ->. Qed.

Lemma bind_inv {A B} (m : M A) (f : A → M B) (h h'' : heap) (r : completion B)
    (evs : list event) :
  bind m f h = (r, h'', evs) →
  (∃ a h' es es', m h = (Normal a, h', es) ∧ f a h' = (r, h'', es') ∧ evs = es ++ es')
  ∨ (∃ e, m h = (Throw e, h'', evs) ∧ r = Throw e).
Proof.
  unfold bind. destruct (m h) as [[[a|e] h'] es].
  - destruct (f a h') as [[r' h3] es'] eqn:Hf. intros [= <- <- <-].
    left. by exists a, h', es, es'.
  - intros [= <- <- <-]. right. by exists e.
Qed.

Lemma bind_Normal_inv {A B} (m : M A) (f : A → M B) (h h'' : heap) (b : B)
    (evs : list event) :
  bind m f h = (Normal b, h'', evs) →
  ∃ a h' es es', m h = (Normal a, h', es) ∧ f a h' = (Normal b, h'', es') ∧ evs = es ++ es'.
Proof. intros [?|(e & _ & ?)]%bind_inv; done. Qed.

Lemma lookup_middle (h t : heap) (o : object) : (h ++ o :: t) !! length h = Some o.
Proof. by apply list_lookup_middle. Qed.

Lemma insert_middle (h t : heap) (o o' : object) :
  <[length h := o']> (h ++ o :: t) = h ++ o' :: t.
Proof. rewrite insert_app_r_alt by lia. by rewrite Nat.sub_diag. Qed.

(** ** The built-in objects in a heap that grew from [realm] *)

Lemma realm_lookup (h : heap) (l : loc) (o : object) :
  realm `prefix_of` h → realm !! l = Some o → h !! l = Some o.
Proof. intros Hpre Hl. by eapply prefix_lookup_Some. Qed.

Lemma realm_chain_from (h : heap) (p : option loc) (los : list (loc * object)) :
  realm `prefix_of` h → chain_from (length realm) realm p = Some los →
  chain_from (length h) h p = Some los.
Proof. intros Hpre Hc. by eapply chain_from_prefix. Qed.

(** The chain of an object whose prototype is one of the built-in ones. *)
Lemma chain_instance (h : heap) (l : loc) (o : object) (los : list (loc * object)) :
  realm `prefix_of` h → h !! l = Some o →
  chain_from (length realm) realm (proto o) = Some los →
  chain h (VObject l) = Some (o :: los.*2).
Proof.
  intros Hpre Hl Hc. unfold chain. simpl. rewrite Hl.
  by rewrite (realm_chain_from h (proto o) los).
Qed.

(** ** Assignment *)

Lemma Put_store (l : loc) (k : string) (v : value) (h : heap) (o : object)
    (os : list object) :
  h !! l = Some o → chain h (VObject l) = Some os →
  match lookup_chain k os with Some (Accessor _ _ _) => False | _ => True end →
  Put l k v h = (Normal (), <[l := Obj (proto o) (store_own k v (props o)) (callable o)]> h, []).
Proof.
  intros Hl Hc Hk. unfold Put. rewrite Hl, Hc.
  by destruct (lookup_chain k os) as [[]|].
Qed.

(** An assignment changes at most the object assigned to, and of it the
    prototype or the property assigned. *)
Lemma Put_cases (l : loc) (k : string) (v : value) (h h' : heap) (r : completion unit)
    (evs : list event) :
  Put l k v h = (r, h', evs) →
  evs = [] ∧
  (h' = h ∨
   ∃ o o', h !! l = Some o ∧ h' = <[l := o']> h ∧ r = Normal () ∧
     callable o' = callable o ∧
     ((props o' = props o) ∨ (proto o' = proto o ∧ props o' = store_own k v (props o)))).
Proof.
  unfold Put, set_prototype.
  destruct (h !! l) as [o|] eqn:Hl; [| intros [= <- <- <-]; auto].
  destruct (chain h (VObject l)) as [os|]; [| intros [= <- <- <-]; auto].
  destruct (lookup_chain k os) as [[x e|g [[]|] e]|].
  - intros [= <- <- <-]. split; [done |]. right. eexists o, _. eauto 10.
  - destruct v as [| |b|x|s|l'].
    + intros [= <- <- <-]; auto.
    + intros [= <- <- <-]. split; [done |]. right. eexists o, _. eauto 10.
    + intros [= <- <- <-]; auto.
    + intros [= <- <- <-]; auto.
    + intros [= <- <- <-]; auto.
    + destruct (chain_from _ _ _) as [los|]; [| intros [= <- <- <-]; auto].
      case_bool_decide; intros [= <- <- <-]; [auto |].
      split; [done |]. right. eexists o, _. eauto 10.
  - intros [= <- <- <-]; auto.
  - intros [= <- <- <-]. split; [done |]. right. eexists o, _. eauto 10.
Qed.

Lemma Put_prefix (hb : heap) (l : loc) (k : string) (v : value) (h h' : heap)
    (r : completion unit) (evs : list event) :
  Put l k v h = (r, h', evs) → hb `prefix_of` h → length hb ≤ l → hb `prefix_of` h'.
Proof.
  intros [_ [->|(o & o' & _ & -> & _)]]%Put_cases Hpre Hl; [done |].
  by apply prefix_insert_above.
Qed.

(** ** Reading *)

Lemma Get_at_object (d : nat) (h : heap) (l : loc) (k : string) (os : list object) :
  chain h (VObject l) = Some os →
  Get_at (S d) h (VObject l) k =
    match lookup_chain k os with
    | None => Normal VUndefined
    | Some (Data x _) => Normal x
    | Some (Accessor None _ _) => Normal VUndefined
    | Some (Accessor (Some (GetThisField f)) _ _) => Get_at d h (VObject l) f
    | Some (Accessor (Some GetPrototypeOf) _ _) =>
        Normal (from_option proto_value VUndefined (h !! l))
    end.
Proof. intros Hc. simpl. by rewrite Hc. Qed.

Lemma Get_object (h : heap) (l : loc) (k : string) (os : list object) :
  chain h (VObject l) = Some os →
  Get h (VObject l) k =
    match lookup_chain k os with
    | None => Normal VUndefined
    | Some (Data x _) => Normal x
    | Some (Accessor None _ _) => Normal VUndefined
    | Some (Accessor (Some (GetThisField f)) _ _) => Get_at (pred stack_limit) h (VObject l) f
    | Some (Accessor (Some GetPrototypeOf) _ _) =>
        Normal (from_option proto_value VUndefined (h !! l))
    end.
Proof. apply Get_at_object. Qed.

Lemma Get_at_object_None (d : nat) (h : heap) (l : loc) (k : string) :
  chain h (VObject l) = None → Get_at (S d) h (VObject l) k = Throw RangeError.
Proof. intros Hc. simpl. by rewrite Hc. Qed.

Lemma Get_at_0 (h : heap) (v : value) (k : string) : Get_at 0 h v k = Throw RangeError.
Proof. reflexivity. Qed.

(** The same one call down: the body of a getter reading a property. *)
Lemma Get_getter_object (h : heap) (l : loc) (k : string) (os : list object) :
  chain h (VObject l) = Some os →
  Get_at (pred stack_limit) h (VObject l) k =
    match lookup_chain k os with
    | None => Normal VUndefined
    | Some (Data x _) => Normal x
    | Some (Accessor None _ _) => Normal VUndefined
    | Some (Accessor (Some (GetThisField f)) _ _) =>
        Get_at (pred (pred stack_limit)) h (VObject l) f
    | Some (Accessor (Some GetPrototypeOf) _ _) =>
        Normal (from_option proto_value VUndefined (h !! l))
    end.
Proof. apply Get_at_object. Qed.

Global Arguments Get_at : simpl never.
Global Opaque stack_limit.

Lemma chain_schema_instance (h : heap) (l : loc) (o : object) :
  realm `prefix_of` h → h !! l = Some o → proto o = Some MetadataSchema_prototype →
  chain h (VObject l) = Some [o; MetadataSchema_prototype_object; Object_prototype_object].
Proof.
  intros Hpre Hl Hp.
  apply (chain_instance h l o [(MetadataSchema_prototype, MetadataSchema_prototype_object);
                               (Object_prototype, Object_prototype_object)]); [done.. |].
  by rewrite Hp.
Qed.

Lemma chain_plain_object (h : heap) (l : loc) (o : object) :
  realm `prefix_of` h → h !! l = Some o → proto o = Some Object_prototype →
  chain h (VObject l) = Some [o; Object_prototype_object].
Proof.
  intros Hpre Hl Hp.
  apply (chain_instance h l o [(Object_prototype, Object_prototype_object)]); [done.. |].
  by rewrite Hp.
Qed.

(** Reading an own data property. *)
Lemma Get_own_data (h : heap) (l : loc) (o : object) (os : list object) (k : string)
    (x : value) (e : bool) :
  h !! l = Some o → chain h (VObject l) = Some os → own k (props o) = Some (Data x e) →
  Get h (VObject l) k = Normal x.
Proof.
  intros Hl Hc Hk. rewrite (Get_object h l k os Hc).
  unfold chain in Hc. simpl in Hc. rewrite Hl in Hc.
  destruct (chain_from _ _ _); [| done]. injection Hc as <-.
  simpl lookup_chain. by rewrite Hk.
Qed.

Lemma Get_plain_data (h : heap) (l : loc) (o : object) (k : string) (x : value) (e : bool) :
  realm `prefix_of` h → h !! l = Some o → proto o = Some Object_prototype →
  own k (props o) = Some (Data x e) → Get h (VObject l) k = Normal x.
Proof.
  intros Hpre Hl Hp Hk. eapply Get_own_data; [done | | done].
  by apply chain_plain_object.
Qed.

(** Reading an accessor of a Schema whose underscore field is an own data
    property. *)
Lemma Get_accessor (h : heap) (l : loc) (o : object) (a f : string) (x : value) (e : bool) :
  realm `prefix_of` h → h !! l = Some o → proto o = Some MetadataSchema_prototype →
  (a, f) ∈ accessors → own a (props o) = None → own f (props o) = Some (Data x e) →
  Get h (VObject l) a = Normal x.
Proof.
  intros Hpre Hl Hp Hin Ha Hf.
  pose proof (chain_schema_instance h l o Hpre Hl Hp) as Hc.
  rewrite (Get_object h l a _ Hc). simpl lookup_chain. rewrite Ha.
  unfold accessors in Hin. rewrite !elem_of_cons in Hin.
  destruct Hin as [[= -> ->]|[[= -> ->]|[[= -> ->]|[[= -> ->]|[[= -> ->]|Hin]]]]];
    [.. | by apply elem_of_nil in Hin];
    simpl; rewrite (Get_getter_object h l _ _ Hc); simpl lookup_chain; by rewrite Hf.
Qed.

(** ** The deep copy adds objects and changes none *)

Lemma clone_props_prefix (rec : value → heap → completion value * heap)
    (ps : list (string * property)) :
  (∀ x h r h', rec x h = (r, h') → h `prefix_of` h') →
  ∀ h r h', clone_props rec ps h = (r, h') → h `prefix_of` h'.
Proof.
  intros Hrec. induction ps as [|[k [x e|g s e]] ps IH]; intros h r h'; simpl.
  - by intros [= <- <-].
  - destruct (rec x h) as [[x'|err] h1] eqn:Hx; [| intros [= <- <-]; eauto].
    destruct (clone_props rec ps h1) as [[qs|err] h2] eqn:Hps;
      intros [= <- <-]; (etrans; [by eapply Hrec | by eapply IH]).
  - destruct (clone_props rec ps h) as [[qs|err] h2] eqn:Hps;
      intros [= <- <-]; by eapply IH.
Qed.

Lemma clone_at_prefix (n : nat) (v : value) (h h' : heap) (r : completion value) :
  clone_at n v h = (r, h') → h `prefix_of` h'.
Proof.
  revert v h h' r. induction n as [|n IH]; intros v h h' r.
  - destruct v; simpl; by intros [= <- <-].
  - destruct v as [| | | | |l]; simpl; try by intros [= <- <-].
    destruct (h !! l) as [o|]; [| by intros [= <- <-]].
    destruct (clone_props (clone_at n) (props o) h) as [[ps|err] h1] eqn:Hps.
    + intros [= <- <-]. apply prefix_snoc. eapply clone_props_prefix; [|done]. eauto.
    + intros [= <- <-]. eapply clone_props_prefix; [|done]. eauto.
Qed.

Lemma clone_at_primitive (n : nat) (v : value) (h : heap) :
  (∀ l, v ≠ VObject l) → clone_at n v h = (Normal v, h).
Proof. intros Hv. destruct n, v; try done; by destruct (Hv l). Qed.

(** ** The last five assignments *)

(** Writing an underscore field of a Schema instance that does not have it
    yet adds it. *)
Lemma Put_field (h : heap) (l : loc) (o : object) (a f : string) (v : value) :
  realm `prefix_of` h → h !! l = Some o → proto o = Some MetadataSchema_prototype →
  (a, f) ∈ accessors → own f (props o) = None →
  Put l f v h =
    (Normal (), <[l := Obj (proto o) (props o ++ [(f, Data v true)]) (callable o)]> h, []).
Proof.
  intros Hpre Hl Hp Hin Hf.
  rewrite (Put_store l f v h o _ Hl (chain_schema_instance h l o Hpre Hl Hp)).
  - rewrite store_own_new; [done | by apply own_None].
  - simpl lookup_chain. rewrite Hf.
    unfold accessors in Hin. rewrite !elem_of_cons in Hin.
    destruct Hin as [[= -> ->]|[[= -> ->]|[[= -> ->]|[[= -> ->]|[[= -> ->]|Hin]]]]];
      [done.. | by apply elem_of_nil in Hin].
Qed.

Lemma assemble_run (hb h : heap) (schema : value) (this enums classes : loc)
    (name description extras : value) :
  realm `prefix_of` hb → hb `prefix_of` h → length hb ≤ this →
  h !! this = Some (Obj (Some MetadataSchema_prototype) [] None) →
  Get hb schema "name" = Normal name →
  Get hb schema "description" = Normal description →
  Get hb schema "extras" = Normal extras →
  assemble schema this enums classes h =
    match clone_at (length h) extras
            (<[this := Obj (Some MetadataSchema_prototype)
                         [("_classes", Data (VObject classes) true);
                          ("_enums", Data (VObject enums) true);
                          ("_name", Data name true);
                          ("_description", Data description true)] None]> h) with
    | (Normal copy, hc) =>
        (Normal (VObject this),
         <[this := schema_object classes enums name description copy]> hc, [])
    | (Throw e, hc) => (Throw e, hc, [])
    end.
Proof.
  intros Hrealm Hpre Hthis Hl Hn Hd Hx. unfold assemble.
  set (o1 := Obj (Some MetadataSchema_prototype)
                 [("_classes", Data (VObject classes) true)] None).
  set (o2 := Obj (Some MetadataSchema_prototype)
                 [("_classes", Data (VObject classes) true);
                  ("_enums", Data (VObject enums) true)] None).
  set (o3 := Obj (Some MetadataSchema_prototype)
                 [("_classes", Data (VObject classes) true);
                  ("_enums", Data (VObject enums) true); ("_name", Data name true)] None).
  set (o4 := Obj (Some MetadataSchema_prototype)
                 [("_classes", Data (VObject classes) true);
                  ("_enums", Data (VObject enums) true); ("_name", Data name true);
                  ("_description", Data description true)] None).
  assert (this < length h) as Hlt by (by eapply lookup_lt_Some).
  assert (∀ o, hb `prefix_of` <[this := o]> h) as Hb
    by (intros o; by apply prefix_insert_above).
  assert (∀ o, realm `prefix_of` <[this := o]> h) as Hr
    by (intros o; by etrans).
  assert (∀ o, <[this := o]> h !! this = Some o) as Hi
    by (intros o; by apply list_lookup_insert_eq).
  set (o0 := Obj (Some MetadataSchema_prototype) [] None) in *.
  assert (∀ a f, (a, f) ∈ accessors ↔
            (a, f) ∈ [("classes", "_classes"); ("enums", "_enums"); ("name", "_name");
                      ("description", "_description"); ("extras", "_extras")]) as Hin by done.
  erewrite bind_step; last first.
  { apply (Put_field h this o0 "classes" "_classes"); [by etrans | done | done | |done].
    apply Hin. in_list. }
  change (Obj (proto o0) (props o0 ++ [("_classes", Data (VObject classes) true)])
              (callable o0)) with o1.
  erewrite bind_step; last first.
  { apply (Put_field _ this o1 "enums" "_enums"); [done.. | | done].
    apply Hin. in_list. }
  rewrite list_insert_insert_eq.
  change (Obj (proto o1) (props o1 ++ [("_enums", Data (VObject enums) true)])
              (callable o1)) with o2.
  erewrite bind_step; last first.
  { unfold get, read. by rewrite (Get_prefix hb _ schema "name" name). }
  erewrite bind_step; last first.
  { apply (Put_field _ this o2 "name" "_name"); [done.. | | done].
    apply Hin. in_list. }
  rewrite list_insert_insert_eq.
  change (Obj (proto o2) (props o2 ++ [("_name", Data name true)]) (callable o2)) with o3.
  erewrite bind_step; last first.
  { unfold get, read. by rewrite (Get_prefix hb _ schema "description" description). }
  erewrite bind_step; last first.
  { apply (Put_field _ this o3 "description" "_description"); [done.. | | done].
    apply Hin. in_list. }
  rewrite list_insert_insert_eq.
  change (Obj (proto o3) (props o3 ++ [("_description", Data description true)])
              (callable o3)) with o4.
  erewrite bind_step; last first.
  { unfold get, read. by rewrite (Get_prefix hb _ schema "extras" extras). }
  unfold bind at 1, clone_deep. rewrite length_insert. fold o4.
  destruct (clone_at _ extras _) as [[copy|e] hc] eqn:Hc; [|done].
  pose proof (clone_at_prefix _ _ _ _ _ Hc) as Hpc.
  erewrite bind_step; last first.
  { apply (Put_field hc this o4 "extras" "_extras"); [| | done | | done].
    - etrans; [apply (Hr o4) | apply Hpc].
    - eapply prefix_lookup_Some; [apply Hi | apply Hpc].
    - apply Hin. in_list. }
  done.
Qed.

(** ** Construction from a non-object, and from the empty object *)

Section Simple_inputs.

Variable MetadataEnum : constructor.
Variable MetadataClass : constructor.

(** C4. For an input that is null, undefined or any other non-object,
    [new MetadataSchema(input)] throws InvalidArgument: the completion is
    the exception, so no Schema, partial or not, is returned, and no Enum
    or Class was constructed. *)
Theorem non_object_rejected (schema : value) (h : heap) :
  (∀ l, schema ≠ VObject l) →
  ∃ h', MetadataSchema MetadataEnum MetadataClass schema h
        = (Throw (InvalidArgument "schema"), h', []).
Proof.
  intros Hno. unfold MetadataSchema.
  erewrite bind_step by reflexivity.
  destruct schema as [| | | | |l]; try (eexists; reflexivity).
  by destruct (Hno l).
Qed.

(** C7. Constructing a Schema from the empty object succeeds, without
    constructing any Enum or Class; [classes] and [enums] are two empty
    objects and [name], [description] and [extras] are undefined. *)
Theorem empty_object_schema (h : heap) (l : loc) :
  realm `prefix_of` h → h !! l = Some (literal []) →
  ∃ h' S C E,
    MetadataSchema MetadataEnum MetadataClass (VObject l) h = (Normal (VObject S), h', [])
    ∧ Get h' (VObject S) "classes" = Normal (VObject C) ∧ h' !! C = Some (literal [])
    ∧ Get h' (VObject S) "enums" = Normal (VObject E) ∧ h' !! E = Some (literal [])
    ∧ C ≠ E
    ∧ Get h' (VObject S) "name" = Normal VUndefined
    ∧ Get h' (VObject S) "description" = Normal VUndefined
    ∧ Get h' (VObject S) "extras" = Normal VUndefined.
Proof.
  intros Hrealm Hl.
  set (n := length h).
  set (s := schema_object (S (S n)) (S n) VUndefined VUndefined VUndefined).
  assert (∀ h' k, h `prefix_of` h' → k ≠ "hasOwnProperty" → k ≠ "__proto__" →
            Get h' (VObject l) k = Normal VUndefined) as Hget.
  { intros h' k Hpre Hk1 Hk2.
    rewrite (Get_object _ l k [literal []; Object_prototype_object]).
    - simpl. by rewrite !decide_False by done.
    - apply chain_plain_object; [by etrans | | done].
      by eapply prefix_lookup_Some. }
  exists (h ++ [s; literal []; literal []]), n, (S (S n)), (S n).
  assert (realm `prefix_of` h ++ [s; literal []; literal []]) as Hrealm'
    by by apply prefix_app_r.
  assert ((h ++ [s; literal []; literal []]) !! n = Some s) as Hthis
    by apply lookup_middle.
  assert ((h ++ [s; literal []; literal []]) !! S n = Some (literal [])) as HE.
  { rewrite lookup_app_r by (unfold n; lia).
    by replace (S n - length h) with 1 by (unfold n; lia). }
  assert ((h ++ [s; literal []; literal []]) !! S (S n) = Some (literal [])) as HC.
  { rewrite lookup_app_r by (unfold n; lia).
    by replace (S (S n) - length h) with 2 by (unfold n; lia). }
  split; [| repeat split; try done].
  - unfold MetadataSchema.
    erewrite bind_step by reflexivity.
    erewrite bind_step by reflexivity.
    erewrite bind_step by reflexivity.
    erewrite bind_step; last first.
    { unfold get, read. rewrite Hget; [done | | done..]. by do 2 apply prefix_app_r. }
    erewrite bind_step by reflexivity. simpl for_each.
    erewrite bind_step by reflexivity.
    erewrite bind_step by reflexivity.
    erewrite bind_step; last first.
    { unfold get, read. rewrite Hget; [done | | done..]. by do 3 apply prefix_app_r. }
    erewrite bind_step by reflexivity. simpl for_each.
    erewrite bind_step by reflexivity.
    rewrite <- !app_assoc. simpl app. rewrite !length_app. simpl length.
    replace (length h + 1) with (S n) by (unfold n; lia).
    replace (length h + 3) with (S (S (S n))) by (unfold n; lia).
    fold n.
    replace (n + 2) with (S (S n)) by lia.
    etrans.
    { apply (assemble_run h _ (VObject l) n (S n) (S (S n))
               VUndefined VUndefined VUndefined); try done.
      - by apply prefix_app_r.
      - apply lookup_middle.
      - by apply Hget.
      - by apply Hget.
      - by apply Hget. }
    unfold n at 1. rewrite insert_middle.
    rewrite clone_at_primitive by done. unfold s, n. by rewrite insert_middle.
  - by apply (Get_accessor _ n s "classes" "_classes" _ true);
      [done.. | unfold accessors; in_list | |].
  - by apply (Get_accessor _ n s "enums" "_enums" _ true);
      [done.. | unfold accessors; in_list | |].
  - by apply (Get_accessor _ n s "name" "_name" _ true);
      [done.. | unfold accessors; in_list | |].
  - by apply (Get_accessor _ n s "description" "_description" _ true);
      [done.. | unfold accessors; in_list | |].
  - by apply (Get_accessor _ n s "extras" "_extras" _ true);
      [done.. | unfold accessors; in_list | |].
Qed.

End Simple_inputs.

(** ** Computations that call no constructor *)

Create HintDb quiet.

Lemma quiet_ret {A} (a : A) : quiet (ret a).
Proof. by intros h r h' evs [= <- <- <-]. Qed.

Lemma quiet_throw {A} (e : exn) : quiet (@throw A e).
Proof. by intros h r h' evs [= <- <- <-]. Qed.

Lemma quiet_read {A} (f : heap → completion A) : quiet (read f).
Proof. by intros h r h' evs [= <- <- <-]. Qed.

Lemma quiet_get (v : value) (k : string) : quiet (get v k).
Proof. apply quiet_read. Qed.

Lemma quiet_for_in (v : value) : quiet (for_in v).
Proof. apply quiet_read. Qed.

Lemma quiet_alloc (o : object) : quiet (alloc o).
Proof. by intros h r h' evs [= <- <- <-]. Qed.

Lemma quiet_Put (l : loc) (k : string) (v : value) : quiet (Put l k v).
Proof. intros h r h' evs H. by apply Put_cases in H as [-> _]. Qed.

Lemma quiet_Check (name : string) (v : value) : quiet (Check_typeOf_object name v).
Proof. destruct v; simpl; auto using quiet_ret, quiet_throw. Qed.

Lemma quiet_clone_deep (v : value) : quiet (clone_deep v).
Proof.
  intros h r h' evs. unfold clone_deep.
  destruct (clone_at _ _ _). by intros [= <- <- <-].
Qed.

Lemma quiet_bind {A B} (m : M A) (f : A → M B) :
  quiet m → (∀ a, quiet (f a)) → quiet (bind m f).
Proof.
  intros Hm Hf h r h'' evs
    [(a & h' & es & es' & Hma & Hfa & ->)|(e & Hme & ->)]%bind_inv.
  - by rewrite (Hm _ _ _ _ Hma), (Hf _ _ _ _ _ Hfa).
  - by eapply Hm.
Qed.

Lemma quiet_call_method (this : value) (name k : string) : quiet (call_method this name k).
Proof. apply quiet_bind; [apply quiet_get | intros f; apply quiet_read]. Qed.

Lemma call_method_same (this : value) (name k : string) (h h' : heap)
    (r : completion value) (evs : list event) :
  call_method this name k h = (r, h', evs) → h' = h ∧ evs = [].
Proof.
  unfold call_method.
  intros [(f & h1 & es1 & es1' & H1 & H2 & ->)|(e & H1 & ->)]%bind_inv.
  - injection H1 as _ <- <-. by injection H2 as _ <- <-.
  - by injection H1 as _ <- <-.
Qed.

#[export] Hint Resolve quiet_ret quiet_throw quiet_read quiet_get quiet_for_in quiet_alloc
  quiet_Put quiet_Check quiet_clone_deep quiet_bind quiet_call_method : quiet.
(** ** Failures of the constructors called *)

Section Propagation.

Variable MetadataEnum : constructor.
Variable MetadataClass : constructor.

Lemma quiet_faithful {A} (m : M A) : quiet m → faithful MetadataEnum MetadataClass m.
Proof.
  intros Hq h r h' evs Hm. rewrite (Hq h r h' evs Hm). split; [constructor |].
  intros i ev e Hi. by rewrite lookup_nil in Hi.
Qed.

Lemma faithful_bind {A B} (m : M A) (f : A → M B) :
  faithful MetadataEnum MetadataClass m →
  (∀ a, faithful MetadataEnum MetadataClass (f a)) →
  faithful MetadataEnum MetadataClass (bind m f).
Proof.
  intros Hm Hf h r h'' evs
    [(a & h' & es & es' & Hma & Hfa & ->)|(e & Hme & ->)]%bind_inv.
  - destruct (Hm _ _ _ _ Hma) as [Hg1 Hs1]. destruct (Hf a _ _ _ _ Hfa) as [Hg2 Hs2].
    split; [by apply Forall_app |].
    intros i ev e Hi He. destruct (decide (i < length es)) as [Hlt|Hge].
    + rewrite lookup_app_l in Hi by done. by destruct (Hs1 i ev e Hi He).
    + rewrite lookup_app_r in Hi by lia.
      destruct (Hs2 _ ev e Hi He) as [-> Hlast]. split; [done |].
      rewrite length_app. lia.
  - destruct (Hm _ _ _ _ Hme) as [Hg Hs]. split; [done |].
    intros i ev e' Hi He. by destruct (Hs i ev e' Hi He) as [[= ->] ?].
Qed.

Lemma faithful_for_each {A} (xs : list A) (body : A → M unit) :
  (∀ x, faithful MetadataEnum MetadataClass (body x)) →
  faithful MetadataEnum MetadataClass (for_each xs body).
Proof.
  intros Hb. induction xs as [|x xs IH]; simpl.
  - by apply quiet_faithful; intros h r h' evs [= <- <- <-].
  - by apply faithful_bind.
Qed.

Lemma faithful_new_enum (args : list value) :
  faithful MetadataEnum MetadataClass (new "MetadataEnum" MetadataEnum args).
Proof.
  intros h r h' evs. unfold new.
  destruct (MetadataEnum args h) as [r0 h0] eqn:HC. intros [= <- <- <-]. split.
  - constructor; [| constructor]. left. simpl. by rewrite HC.
  - intros [|i] ev e; simpl; [| by rewrite lookup_nil].
    intros [= <-]; simpl. by intros ->.
Qed.

Lemma faithful_new_class (args : list value) :
  faithful MetadataEnum MetadataClass (new "MetadataClass" MetadataClass args).
Proof.
  intros h r h' evs. unfold new.
  destruct (MetadataClass args h) as [r0 h0] eqn:HC. intros [= <- <- <-]. split.
  - constructor; [| constructor]. right. simpl. by rewrite HC.
  - intros [|i] ev e; simpl; [| by rewrite lookup_nil].
    intros [= <-]; simpl. by intros ->.
Qed.

Lemma faithful_MetadataSchema (schema : value) :
  faithful MetadataEnum MetadataClass (MetadataSchema MetadataEnum MetadataClass schema).
Proof.
  unfold MetadataSchema, enum_entry, class_entry, call_method.
  repeat first
    [ apply faithful_bind; [| intros ?]
    | apply faithful_for_each; intros ?
    | apply faithful_new_enum
    | apply faithful_new_class
    | match goal with |- faithful _ _ (if ?b then _ else _) => destruct b end
    | apply quiet_faithful; solve [eauto with quiet] ].
Qed.

(** C5. Every constructor call recorded during [new MetadataSchema(schema)]
    is a call of [MetadataEnum] or [MetadataClass] with the completion it
    really had; and when one of them throws, whatever the exception, the
    construction of the Schema completes with that same exception right
    after that call (it is the last call made): nothing is caught or
    retried, and no Schema is returned. *)
Theorem construction_failure_propagates (schema : value) (h h' : heap)
    (r : completion value) (evs : list event) :
  MetadataSchema MetadataEnum MetadataClass schema h = (r, h', evs) →
  Forall (genuine MetadataEnum MetadataClass) evs
  ∧ ∀ i ev e, evs !! i = Some ev → ev_result ev = Throw e →
      r = Throw e ∧ S i = length evs.
Proof. apply faithful_MetadataSchema. Qed.

End Propagation.
(** ** What a computation leaves alone *)

Lemma lookup_prefix (hb h : heap) :
  (∀ l o, hb !! l = Some o → h !! l = Some o) → hb `prefix_of` h.
Proof.
  revert h. induction hb as [|o hb IH]; intros h Hl; [apply prefix_nil |].
  destruct h as [|o' h]; [by specialize (Hl 0 o eq_refl) |].
  pose proof (Hl 0 o eq_refl) as [= ->].
  apply prefix_cons, IH. intros l o''. apply (Hl (S l)).
Qed.

Lemma keeps_quiet_same {A} (n : nat) (P : loc → Prop) (m : M A) :
  (∀ h r h' evs, m h = (r, h', evs) → h' = h ∧ evs = []) → keeps n P m.
Proof.
  intros Hm h r h' evs _ Hrun. destruct (Hm _ _ _ _ Hrun) as [-> ->].
  split; [done |]. split; [done | constructor].
Qed.

Lemma keeps_ret {A} (n : nat) (P : loc → Prop) (a : A) : keeps n P (ret a).
Proof. apply keeps_quiet_same. by intros h r h' evs [= <- <- <-]. Qed.

Lemma keeps_throw {A} (n : nat) (P : loc → Prop) (e : exn) : keeps n P (@throw A e).
Proof. apply keeps_quiet_same. by intros h r h' evs [= <- <- <-]. Qed.

Lemma keeps_read {A} (n : nat) (P : loc → Prop) (f : heap → completion A) :
  keeps n P (read f).
Proof. apply keeps_quiet_same. by intros h r h' evs [= <- <- <-]. Qed.

Lemma keeps_get (n : nat) (P : loc → Prop) (v : value) (k : string) : keeps n P (get v k).
Proof. apply keeps_read. Qed.

Lemma keeps_for_in (n : nat) (P : loc → Prop) (v : value) : keeps n P (for_in v).
Proof. apply keeps_read. Qed.

Lemma keeps_Check (n : nat) (P : loc → Prop) (name : string) (v : value) :
  keeps n P (Check_typeOf_object name v).
Proof. destruct v; simpl; auto using keeps_ret, keeps_throw. Qed.

Lemma keeps_prefix_step {A} (n : nat) (P : loc → Prop) (m : M A) :
  (∀ h r h' evs, m h = (r, h', evs) →
     h `prefix_of` h' ∧ Forall (λ ev, h `prefix_of` ev_heap ev) evs) →
  keeps n P m.
Proof.
  intros Hm h r h' evs Hn Hrun. destruct (Hm _ _ _ _ Hrun) as [Hpre Hevs].
  split; [by apply prefix_length |]. split.
  - intros l Hl _. destruct (lookup_lt_is_Some_2 h l) as [o Ho]; [lia |].
    rewrite Ho. by eapply prefix_lookup_Some.
  - eapply Forall_impl; [exact Hevs |]. intros ev Hev. split; [by apply prefix_length |].
    intros l Hl _. destruct (lookup_lt_is_Some_2 h l) as [o Ho]; [lia |].
    rewrite Ho. by eapply prefix_lookup_Some.
Qed.

Lemma keeps_alloc (n : nat) (P : loc → Prop) (o : object) : keeps n P (alloc o).
Proof.
  apply keeps_prefix_step. intros h r h' evs [= <- <- <-].
  split; [by apply prefix_app_r | constructor].
Qed.

Lemma keeps_clone_deep (n : nat) (P : loc → Prop) (v : value) : keeps n P (clone_deep v).
Proof.
  apply keeps_prefix_step. intros h r h' evs. unfold clone_deep.
  destruct (clone_at _ _ _) as [r0 h0] eqn:Hc. intros [= <- <- <-].
  split; [by eapply clone_at_prefix | constructor].
Qed.

Lemma keeps_new (n : nat) (P : loc → Prop) (name : string) (C : constructor)
    (args : list value) :
  allocates_only C → keeps n P (new name C args).
Proof.
  intros HC. apply keeps_prefix_step. intros h r h' evs. unfold new.
  destruct (C args h) as [r0 h0] eqn:Hc. intros [= <- <- <-].
  split; [by eapply HC |]. by repeat constructor.
Qed.

Lemma keeps_Put (n : nat) (P : loc → Prop) (l : loc) (k : string) (v : value) :
  n ≤ l ∨ ¬ P l → keeps n P (Put l k v).
Proof.
  intros Hl h r h' evs Hn [-> [->|(o & o' & Ho & -> & _)]]%Put_cases.
  - split; [done |]. split; [done | constructor].
  - split; [by rewrite length_insert |]. split; [| constructor].
    intros l' Hl' HP. apply list_lookup_insert_ne. intros ->. destruct Hl; [lia | done].
Qed.

Lemma keeps_bind {A B} (n : nat) (P : loc → Prop) (m : M A) (f : A → M B) :
  keeps n P m → (∀ a, keeps n P (f a)) → keeps n P (bind m f).
Proof.
  intros Hm Hf h r h'' evs Hn
    [(a & h' & es & es' & Hma & Hfa & ->)|(e & Hme & ->)]%bind_inv.
  - destruct (Hm _ _ _ _ Hn Hma) as (Hlen1 & Hk1 & Hev1).
    destruct (Hf a _ _ _ _ (Nat.le_trans _ _ _ Hn Hlen1) Hfa) as (Hlen2 & Hk2 & Hev2).
    split; [lia |]. split.
    + intros l Hl HP. by rewrite Hk2, Hk1.
    + apply Forall_app. split; [done |].
      eapply Forall_impl; [exact Hev2 |]. intros ev [Hlen Hev]. split; [lia |].
      intros l Hl HP. by rewrite Hev, Hk1.
  - destruct (Hm _ _ _ _ Hn Hme) as (Hlen1 & Hk1 & Hev1). done.
Qed.

(** The location a new object gets lies above [n]. *)
Lemma keeps_bind_alloc {B} (n : nat) (P : loc → Prop) (o : object) (f : loc → M B) :
  (∀ a, n ≤ a → keeps n P (f a)) → keeps n P (bind (alloc o) f).
Proof.
  intros Hf h r h'' evs Hn Hrun. rewrite (bind_step _ _ h (h ++ [o]) (length h)) in Hrun
    by done.
  assert (n ≤ length (h ++ [o])) as Hn' by (rewrite length_app; lia).
  destruct (Hf (length h) Hn _ _ _ _ Hn' Hrun) as (Hlen & Hk & Hev).
  rewrite length_app in Hlen. split; [lia |]. split.
  - intros l Hl HP. rewrite Hk by done. apply lookup_app_l. lia.
  - eapply Forall_impl; [exact Hev |]. intros ev [Hlen' Hk']. rewrite length_app in Hlen'.
    split; [lia |]. intros l Hl HP. rewrite Hk' by done. apply lookup_app_l. lia.
Qed.

Lemma keeps_for_each {A} (n : nat) (P : loc → Prop) (xs : list A) (body : A → M unit) :
  (∀ x, keeps n P (body x)) → keeps n P (for_each xs body).
Proof.
  intros Hb. induction xs as [|x xs IH]; simpl; [apply keeps_ret | by apply keeps_bind].
Qed.

Lemma keeps_prefix {A} (n : nat) (P : loc → Prop) (m : M A) (hb h h' : heap)
    (r : completion A) (evs : list event) :
  keeps n P m → m h = (r, h', evs) → hb `prefix_of` h → length hb ≤ n → n ≤ length h →
  (∀ l, l < length hb → P l) →
  hb `prefix_of` h' ∧ Forall (λ ev, hb `prefix_of` ev_heap ev) evs.
Proof.
  intros Hk Hrun Hpre Hb Hn HP. destruct (Hk _ _ _ _ Hn Hrun) as (Hlen & Hh & Hev).
  split.
  - apply lookup_prefix. intros l o Hl. pose proof (lookup_lt_Some _ _ _ Hl).
    rewrite Hh by (auto; lia). by eapply prefix_lookup_Some.
  - eapply Forall_impl; [exact Hev |]. intros ev [_ Hk'].
    apply lookup_prefix. intros l o Hl. pose proof (lookup_lt_Some _ _ _ Hl).
    rewrite Hk' by (auto; lia). by eapply prefix_lookup_Some.
Qed.

Section Frames.

Variable MetadataEnum : constructor.
Variable MetadataClass : constructor.
Hypothesis MetadataEnum_allocates_only : allocates_only MetadataEnum.
Hypothesis MetadataClass_allocates_only : allocates_only MetadataClass.

Lemma keeps_enum_entry (n : nat) (P : loc → Prop) (schema : value) (enums : loc)
    (enumId : string) :
  n ≤ enums ∨ ¬ P enums → keeps n P (enum_entry MetadataEnum schema enums enumId).
Proof using MetadataEnum_allocates_only.
  intros He. unfold enum_entry, call_method.
  repeat first
    [ apply keeps_bind; [| intros ?]
    | match goal with |- keeps _ _ (if ?b then _ else _) => destruct b end
    | apply keeps_get | apply keeps_read | apply keeps_alloc | apply keeps_ret
    | by apply keeps_new | by apply keeps_Put ].
Qed.

Lemma keeps_class_entry (n : nat) (P : loc → Prop) (schema : value) (enums classes : loc)
    (classId : string) :
  n ≤ classes ∨ ¬ P classes →
  keeps n P (class_entry MetadataClass schema enums classes classId).
Proof using MetadataClass_allocates_only.
  intros He. unfold class_entry, call_method.
  repeat first
    [ apply keeps_bind; [| intros ?]
    | match goal with |- keeps _ _ (if ?b then _ else _) => destruct b end
    | apply keeps_get | apply keeps_read | apply keeps_alloc | apply keeps_ret
    | by apply keeps_new | by apply keeps_Put ].
Qed.

Lemma keeps_assemble (n : nat) (P : loc → Prop) (schema : value)
    (this enums classes : loc) :
  n ≤ this ∨ ¬ P this → keeps n P (assemble schema this enums classes).
Proof.
  intros He. unfold assemble.
  repeat first
    [ apply keeps_bind; [| intros ?]
    | apply keeps_get | apply keeps_clone_deep | apply keeps_ret | by apply keeps_Put ].
Qed.

Lemma keeps_after_enums (n : nat) (P : loc → Prop) (schema : value) (this enums : loc) :
  n ≤ this ∨ ¬ P this → keeps n P (after_enums MetadataClass schema this enums).
Proof using MetadataClass_allocates_only.
  intros He. unfold after_enums.
  apply keeps_bind_alloc. intros classes Hc.
  apply keeps_bind; [apply keeps_get | intros ?].
  apply keeps_bind; [apply keeps_for_in | intros ?].
  apply keeps_bind; [| intros ?; by apply keeps_assemble].
  apply keeps_for_each. intros k. apply keeps_class_entry. by left.
Qed.

End Frames.
(** ** The order of the two passes *)

Lemma emits_quiet {A} (Q : event → Prop) (m : M A) : quiet m → emits Q m.
Proof. intros Hq h r h' evs Hm. rewrite (Hq _ _ _ _ Hm). constructor. Qed.

Lemma emits_bind {A B} (Q : event → Prop) (m : M A) (f : A → M B) :
  emits Q m → (∀ a, emits Q (f a)) → emits Q (bind m f).
Proof.
  intros Hm Hf h r h'' evs
    [(a & h' & es & es' & Hma & Hfa & ->)|(e & Hme & ->)]%bind_inv.
  - apply Forall_app. split; [by eapply Hm | by eapply Hf].
  - by eapply Hm.
Qed.

Lemma emits_for_each {A} (Q : event → Prop) (xs : list A) (body : A → M unit) :
  (∀ x, emits Q (body x)) → emits Q (for_each xs body).
Proof.
  intros Hb. induction xs as [|x xs IH]; simpl.
  - apply emits_quiet, quiet_ret.
  - by apply emits_bind.
Qed.

Lemma emits_new (name : string) (C : constructor) (args : list value) :
  emits (λ ev, ev_ctor ev = name) (new name C args).
Proof.
  intros h r h' evs. unfold new. destruct (C args h). intros [= <- <- <-].
  by repeat constructor.
Qed.

Lemma quiet_assemble (schema : value) (this enums classes : loc) :
  quiet (assemble schema this enums classes).
Proof. unfold assemble. eauto 20 with quiet. Qed.

(** When the last five assignments complete: the three fields were read, the
    extras copied, and [this] is a Schema with its five fields. *)
Lemma assemble_inv (schema : value) (this enums classes : loc) (h h' : heap)
    (S : value) (evs : list event) :
  realm `prefix_of` h →
  h !! this = Some (Obj (Some MetadataSchema_prototype) [] None) →
  assemble schema this enums classes h = (Normal S, h', evs) →
  ∃ name description extras copy h3 hc,
    S = VObject this ∧ evs = []
    ∧ h3 = <[this := Obj (Some MetadataSchema_prototype)
                       [("_classes", Data (VObject classes) true);
                        ("_enums", Data (VObject enums) true);
                        ("_name", Data name true);
                        ("_description", Data description true)] None]> h
    ∧ (∀ hb, hb `prefix_of` h → length hb ≤ this → is_Some (chain hb schema) →
         Get hb schema "name" = Normal name
         ∧ Get hb schema "description" = Normal description
         ∧ Get hb schema "extras" = Normal extras)
    ∧ clone_at (length h) extras h3 = (Normal copy, hc)
    ∧ h' = <[this := schema_object classes enums name description copy]> hc.
Proof.
  intros Hrealm Hl Hrun.
  pose proof (quiet_assemble _ _ _ _ _ _ _ _ Hrun) as ->.
  assert (length realm ≤ this) as Hthis.
  { destruct (decide (length realm ≤ this)) as [|Hn]; [done |].
    destruct (lookup_lt_is_Some_2 realm this) as [o Ho]; [lia |].
    pose proof (prefix_lookup_Some _ _ _ _ Ho Hrealm) as Ho'.
    rewrite Ho' in Hl. injection Hl as ->.
    do 4 (destruct this as [|this]; [done |]). simpl in Hn. lia. }
  assert (∀ o h0, realm `prefix_of` h0 → realm `prefix_of` <[this := o]> h0) as Hr
    by (intros o h0 ?; by apply prefix_insert_above).
  assert (this < length h) as Hlt by (by eapply lookup_lt_Some).
  unfold assemble in Hrun.
  apply bind_Normal_inv in Hrun as (? & h1 & ? & es & HP & Hrun & _).
  erewrite (Put_field h this _ "classes" "_classes") in HP;
    [| done | exact Hl | done | unfold accessors; in_list | done].
  injection HP as <- <-.
  apply bind_Normal_inv in Hrun as (? & h2 & ? & es' & HP & Hrun & _).
  erewrite (Put_field _ this _ "enums" "_enums") in HP;
    [| by apply Hr | by apply list_lookup_insert_eq | done | unfold accessors; in_list | done].
  injection HP as <- <-. rewrite list_insert_insert_eq in Hrun.
  apply bind_Normal_inv in Hrun as (name & ? & ? & es'' & HG & Hrun & _).
  injection HG as HG <- <-.
  apply bind_Normal_inv in Hrun as (? & h3 & ? & es3 & HP & Hrun & _).
  erewrite (Put_field _ this _ "name" "_name") in HP;
    [| by apply Hr | by apply list_lookup_insert_eq | done | unfold accessors; in_list | done].
  injection HP as <- <-. rewrite list_insert_insert_eq in Hrun.
  apply bind_Normal_inv in Hrun as (description & ? & ? & es4 & HG' & Hrun & _).
  injection HG' as HG' <- <-.
  apply bind_Normal_inv in Hrun as (? & h4 & ? & es5 & HP & Hrun & _).
  erewrite (Put_field _ this _ "description" "_description") in HP;
    [| by apply Hr | by apply list_lookup_insert_eq | done | unfold accessors; in_list | done].
  injection HP as <- <-. rewrite list_insert_insert_eq in Hrun.
  apply bind_Normal_inv in Hrun as (extras & ? & ? & es6 & HG'' & Hrun & _).
  injection HG'' as HG'' <- <-.
  apply bind_Normal_inv in Hrun as (copy & hc & ? & es7 & HC & Hrun & _).
  unfold clone_deep in HC. rewrite length_insert in HC.
  destruct (clone_at _ _ _) as [rc hc'] eqn:Hclone.
  injection HC as -> -> <-. pose proof (clone_at_prefix _ _ _ _ _ Hclone) as Hpc.
  apply bind_Normal_inv in Hrun as (? & h5 & ? & es8 & HP & Hrun & _).
  erewrite (Put_field _ this _ "extras" "_extras") in HP;
    [| by etrans; [apply Hr | done]
     | by eapply prefix_lookup_Some; [apply list_lookup_insert_eq | done]
     | done | unfold accessors; in_list | done].
  injection HP as <- <-. injection Hrun as <- <- _.
  eexists name, description, extras, copy, _, hc.
  split; [done |]. split; [done |]. split; [reflexivity |]. split; [| done].
  intros hb Hb Hlen Hchain.
  assert (∀ o, hb `prefix_of` <[this := o]> h) as Hbo
    by (intros o; by apply prefix_insert_above).
  split; [| split];
    [rewrite <- HG | rewrite <- HG' | rewrite <- HG''];
    symmetry; apply Get_prefix_eq; [done | apply Hbo | done | apply Hbo | done | apply Hbo].
Qed.

(** When the last five assignments complete, [this] is a Schema whose fields
    hold the two tables. *)
Lemma assemble_Normal (schema : value) (this enums classes : loc) (h h' : heap)
    (S : value) (evs : list event) :
  realm `prefix_of` h →
  h !! this = Some (Obj (Some MetadataSchema_prototype) [] None) →
  assemble schema this enums classes h = (Normal S, h', evs) →
  S = VObject this ∧ realm `prefix_of` h' ∧
  ∃ name description extras,
    h' !! this = Some (schema_object classes enums name description extras).
Proof.
  intros Hrealm Hl Hrun.
  assert (realm `prefix_of` h') as Hrealm'.
  { eapply (keeps_prefix (length realm) (λ _, True)); [| exact Hrun | done | done | | done].
    - apply keeps_assemble. left.
      destruct (decide (length realm ≤ this)) as [|Hn]; [done |].
      destruct (lookup_lt_is_Some_2 realm this) as [o Ho]; [lia |].
      pose proof (prefix_lookup_Some _ _ _ _ Ho Hrealm) as Ho'.
      rewrite Ho' in Hl. injection Hl as ->.
      do 4 (destruct this as [|this]; [done |]). simpl in Hn. lia.
    - by apply prefix_length. }
  destruct (assemble_inv schema this enums classes h h' S evs Hrealm Hl Hrun)
    as (name & description & extras & copy & h3 & hc & -> & _ & -> & _ & Hclone & ->).
  split; [done |]. split; [done |]. exists name, description, copy.
  apply list_lookup_insert_eq.
  pose proof (prefix_length _ _ (clone_at_prefix _ _ _ _ _ Hclone)) as Hlen.
  rewrite length_insert in Hlen. pose proof (lookup_lt_Some _ _ _ Hl). lia.
Qed.

Section Order.

Variable MetadataEnum : constructor.
Variable MetadataClass : constructor.
Hypothesis MetadataEnum_allocates_only : allocates_only MetadataEnum.
Hypothesis MetadataClass_allocates_only : allocates_only MetadataClass.

Lemma MetadataSchema_unfold (schema : value) :
  MetadataSchema MetadataEnum MetadataClass schema =
    (let! this := alloc (Obj (Some MetadataSchema_prototype) [] None) in
     let! _ := Check_typeOf_object "schema" schema in
     let! enums := alloc (literal []) in
     let! schema_enums := get schema "enums" in
     let! enumIds := for_in schema_enums in
     let! _ := for_each enumIds (enum_entry MetadataEnum schema enums) in
     after_enums MetadataClass schema this enums).
Proof. reflexivity. Qed.

Lemma emits_enum_entry (schema : value) (enums : loc) (enumId : string) :
  emits (λ ev, ev_ctor ev = "MetadataEnum") (enum_entry MetadataEnum schema enums enumId).
Proof.
  unfold enum_entry, call_method.
  repeat first
    [ apply emits_bind; [| intros ?]
    | match goal with |- emits _ (if ?b then _ else _) => destruct b end
    | apply emits_new
    | apply emits_quiet; solve [eauto with quiet] ].
Qed.

(** The constructor call of one round of the second loop. *)
Lemma class_entry_events (schema : value) (enums classes : loc) (classId : string)
    (h h' : heap) (r : completion unit) (evs : list event) :
  realm `prefix_of` h →
  class_entry MetadataClass schema enums classes classId h = (r, h', evs) →
  Forall (class_call enums) evs.
Proof.
  intros Hrealm. unfold class_entry, call_method.
  intros [(sc & h1 & es1 & es1' & H1 & Hrun & ->)|(e & H1 & ->)]%bind_inv;
    injection H1 as _ <- <-; [| constructor].
  apply bind_inv in Hrun
    as [(has & h2 & es2 & es2' & H2 & Hrun & ->)|(e & H2 & ->)]; last first.
  { apply call_method_same in H2 as [_ ->]. constructor. }
  apply call_method_same in H2 as [-> ->].
  destruct (truthy has); [| injection Hrun as _ _ <-; constructor].
  apply bind_inv in Hrun
    as [(sc' & h3 & es3 & es3' & H3 & Hrun & ->)|(e & H3 & ->)];
    injection H3 as _ <- <-; [| constructor].
  apply bind_inv in Hrun
    as [(def & h4 & es4 & es4' & H4 & Hrun & ->)|(e & H4 & ->)];
    injection H4 as _ <- <-; [| constructor].
  rewrite (bind_step _ _ h _ (length h)) in Hrun by reflexivity.
  apply bind_inv in Hrun
    as [(c & h5 & es5 & es5' & H5 & Hrun & ->)|(e & H5 & ->)].
  - apply Put_cases in Hrun as [-> _]. simpl. rewrite app_nil_r.
    unfold new in H5. destruct (MetadataClass _ _) as [r0 h0]. injection H5 as _ _ <-.
    constructor; [| constructor]. split; [done |]. exists (length h). split; [done |].
    simpl. eapply Get_plain_data;
      [by apply prefix_app_r | apply lookup_middle | done | done].
  - simpl. unfold new in H5. destruct (MetadataClass _ _) as [r0 h0]. injection H5 as _ _ <-.
    constructor; [| constructor]. split; [done |]. exists (length h). split; [done |].
    simpl. eapply Get_plain_data;
      [by apply prefix_app_r | apply lookup_middle | done | done].
Qed.

Lemma class_loop_events (schema : value) (enums classes : loc) (ks : list string)
    (h h' : heap) (r : completion unit) (evs : list event) :
  realm `prefix_of` h → length realm ≤ classes →
  for_each ks (class_entry MetadataClass schema enums classes) h = (r, h', evs) →
  Forall (class_call enums) evs.
Proof using MetadataClass_allocates_only.
  intros Hrealm Hc. revert h evs Hrealm. induction ks as [|k ks IH]; intros h evs Hrealm.
  - intros [= <- <- <-]. constructor.
  - simpl.
    intros [(a & h1 & es & es' & H1 & H2 & ->)|(e & H1 & ->)]%bind_inv.
    + apply Forall_app. split; [by eapply class_entry_events |].
      eapply IH; [| done].
      eapply (keeps_prefix (length realm) (λ _, True)); [| done | done | done | |done].
      * apply keeps_class_entry; auto.
      * by apply prefix_length.
    + by eapply class_entry_events.
Qed.

Lemma after_enums_events (schema : value) (this enums : loc)
    (h h' : heap) (r : completion value) (evs : list event) :
  realm `prefix_of` h →
  after_enums MetadataClass schema this enums h = (r, h', evs) →
  Forall (class_call enums) evs.
Proof using MetadataClass_allocates_only.
  intros Hrealm. unfold after_enums.
  rewrite (bind_step _ _ h _ (length h)) by reflexivity.
  intros [(sc & h1 & es1 & es1' & H1 & Hrun & ->)|(e & H1 & ->)]%bind_inv;
    injection H1 as _ <- <-; [| constructor].
  rewrite (bind_step _ _ _ _ (for_in_keys (h ++ [literal []]) sc)) in Hrun by reflexivity.
  apply bind_inv in Hrun as [(a & h2 & es2 & es2' & H2 & Hrun & ->)|(e & H2 & ->)].
  - rewrite (quiet_assemble _ _ _ _ _ _ _ _ Hrun), app_nil_r.
    eapply class_loop_events; [| | done].
    + by apply prefix_app_r.
    + by apply prefix_length.
  - eapply class_loop_events; [| | done].
    + by apply prefix_app_r.
    + by apply prefix_length.
Qed.

Lemma after_enums_Normal (schema : value) (this enums : loc) (h h' : heap)
    (S : value) (evs : list event) :
  realm `prefix_of` h →
  h !! this = Some (Obj (Some MetadataSchema_prototype) [] None) →
  after_enums MetadataClass schema this enums h = (Normal S, h', evs) →
  S = VObject this ∧ realm `prefix_of` h' ∧
  ∃ classes name description extras,
    h' !! this = Some (schema_object classes enums name description extras).
Proof using MetadataClass_allocates_only.
  intros Hrealm Hl. unfold after_enums.
  rewrite (bind_step _ _ h _ (length h)) by reflexivity.
  intros (sc & h1 & es1 & es1' & H1 & Hrun & ->)%bind_Normal_inv.
  injection H1 as _ <- <-.
  rewrite (bind_step _ _ _ _ (for_in_keys (h ++ [literal []]) sc)) in Hrun by reflexivity.
  apply bind_Normal_inv in Hrun as (a & h2 & es2 & es2' & H2 & Hrun & ->).
  assert (keeps (length h) (λ _, True)
            (for_each (for_in_keys (h ++ [literal []]) sc)
               (class_entry MetadataClass schema enums (length h)))) as Hk.
  { apply keeps_for_each. intros k. apply keeps_class_entry; [done | by left]. }
  assert (length h ≤ length (h ++ [literal []])) as Hlen by (rewrite length_app; lia).
  pose proof (lookup_lt_Some _ _ _ Hl) as Hlt.
  destruct (Hk _ _ _ _ Hlen H2) as (_ & Hsame & _).
  destruct (assemble_Normal schema this enums (length h) h2 h' S es2') as (-> & ? & Hs);
    [| | done |].
  - eapply (keeps_prefix (length h) (λ _, True)); [exact Hk | exact H2 | | | done | done].
    + by apply prefix_app_r.
    + by apply prefix_length.
  - rewrite Hsame by done. by apply lookup_app_l_Some.
  - destruct Hs as (n & d & x & Hs). split; [done |]. split; [done |].
    by exists (length h), n, d, x.
Qed.

(** X13. In every run of [new MetadataSchema(schema)], whatever the input
    and however the run completes, all the calls of [MetadataEnum] come
    before all the calls of [MetadataClass]; every [MetadataClass] is called
    with [enums] being the enum table itself, the object that
    [schema.enums] returns afterwards; and from the first of these calls on
    that table is not changed. *)
Theorem enum_calls_precede_class_calls (schema : value) (h h' : heap)
    (r : completion value) (evs : list event) :
  realm `prefix_of` h →
  MetadataSchema MetadataEnum MetadataClass schema h = (r, h', evs) →
  ∃ E evs_enum evs_class,
    evs = evs_enum ++ evs_class
    ∧ Forall (λ ev, ev_ctor ev = "MetadataEnum") evs_enum
    ∧ Forall (λ ev, class_call E ev ∧ ev_heap ev !! E = h' !! E) evs_class
    ∧ ∀ S, r = Normal S → Get h' S "enums" = Normal (VObject E).
Proof using MetadataEnum_allocates_only MetadataClass_allocates_only.
  intros Hrealm Hrun. rewrite MetadataSchema_unfold in Hrun.
  set (this := length h) in *. set (E := S this). exists E.
  rewrite (bind_step _ _ h _ this) in Hrun by reflexivity.
  destruct schema as [| | | | |l];
    try (injection Hrun as <- <- <-; exists [], []; repeat split; by try constructor).
  rewrite (bind_step _ _ _ _ ()) in Hrun by reflexivity.
  rewrite (bind_step _ _ _ _ (length (h ++ [Obj (Some MetadataSchema_prototype) [] None])))
    in Hrun by reflexivity.
  replace (length (h ++ [Obj (Some MetadataSchema_prototype) [] None])) with E in Hrun
    by (rewrite length_app; unfold E, this; simpl; lia).
  set (h0 := (h ++ [Obj (Some MetadataSchema_prototype) [] None]) ++ [literal []]) in *.
  assert (h `prefix_of` h0) as Hh0 by (by do 2 apply prefix_app_r).
  assert (length h0 = S (S this)) as Hlen0
    by (unfold h0; rewrite !length_app; unfold this; simpl; lia).
  apply bind_inv in Hrun as [(se & h1 & es1 & es1' & H1 & Hrun & ->)|(e & H1 & ->)];
    injection H1 as _ <- <-;
    [| exists [], []; repeat split; by try constructor].
  rewrite (bind_step _ _ _ _ (for_in_keys h0 se)) in Hrun by reflexivity.
  assert (keeps (S this) (λ _, True)
            (for_each (for_in_keys h0 se) (enum_entry MetadataEnum (VObject l) E))) as Hk.
  { apply keeps_for_each. intros k. apply keeps_enum_entry; [done |]. left. unfold E. lia. }
  assert (emits (λ ev, ev_ctor ev = "MetadataEnum")
            (for_each (for_in_keys h0 se) (enum_entry MetadataEnum (VObject l) E))) as Hem.
  { apply emits_for_each. intros k. apply emits_enum_entry. }
  apply bind_inv in Hrun as [(a & h2 & es2 & es2' & H2 & Hrun & ->)|(e & H2 & ->)];
    last first.
  { eexists _, []. rewrite app_nil_r. repeat split; [by eapply Hem | constructor | done]. }
  exists es2, es2'. split; [done |]. split; [by eapply Hem |].
  destruct (Hk h0 _ _ _ ltac:(lia) H2) as (Hlen2 & Hsame2 & _).
  assert (realm `prefix_of` h2) as Hrealm2.
  { eapply (keeps_prefix (S this) (λ _, True)); [exact Hk | exact H2 | | | lia | done].
    - by etrans.
    - pose proof (prefix_length _ _ Hrealm). unfold this. lia. }
  assert (h2 !! this = Some (Obj (Some MetadataSchema_prototype) [] None)) as Hthis2.
  { rewrite Hsame2 by (auto; lia). unfold h0. rewrite <- app_assoc. apply lookup_middle. }
  split.
  - apply Forall_forall. intros ev Hev. split.
    + eapply Forall_forall in Hev; [exact Hev |]. by eapply after_enums_events.
    + destruct (keeps_after_enums MetadataClass MetadataClass_allocates_only
                  (length h2) (λ l, l ≠ this) (VObject l) this E
                  ltac:(right; auto) h2 r h' es2' ltac:(lia) Hrun)
        as (_ & Hfin & Hevs).
      eapply Forall_forall in Hevs as [_ Hev']; [| exact Hev].
      rewrite Hev', Hfin; [done | | | |]; unfold E; lia.
  - intros S0 ->.
    destruct (after_enums_Normal (VObject l) this E h2 h' S0 es2' Hrealm2 Hthis2 Hrun)
      as (-> & Hrealm' & C & n & d & x & Hs).
    by eapply (Get_accessor h' this _ "enums" "_enums" _ true);
      [done | exact Hs | done | unfold accessors; in_list | |].
Qed.

End Order.
(** ** The accessors of a Schema *)

(** Reading an accessor and assigning to it, for a Schema instance that has
    its five fields. *)
Lemma schema_accessor (h : heap) (this : loc) (classes enums : loc)
    (name description extras : value) (a f : string) :
  realm `prefix_of` h →
  h !! this = Some (schema_object classes enums name description extras) →
  (a, f) ∈ accessors →
  Get h (VObject this) a = Get_at (pred stack_limit) h (VObject this) f
  ∧ (∃ x e, own f (props (schema_object classes enums name description extras))
            = Some (Data x e)
          ∧ Get h (VObject this) a = Normal x)
  ∧ ∀ v, Put this a v h = (Throw TypeError, h, []).
Proof.
  intros Hrealm Hl Hin.
  pose proof (chain_schema_instance h this _ Hrealm Hl eq_refl) as Hc.
  unfold accessors in Hin. rewrite !elem_of_cons in Hin.
  destruct Hin as [[= -> ->]|[[= -> ->]|[[= -> ->]|[[= -> ->]|[[= -> ->]|Hin]]]]];
    [.. | by apply elem_of_nil in Hin];
    (split; [by rewrite (Get_object h this _ _ Hc) |]);
    (split; [eexists _, _; split; [reflexivity |];
             rewrite (Get_object h this _ _ Hc); simpl lookup_chain; cbv iota;
             by rewrite (Get_getter_object h this _ _ Hc)
            | intros v; unfold Put; by rewrite Hl, Hc]).
Qed.

Section Accessors.

Variable MetadataEnum : constructor.
Variable MetadataClass : constructor.
Hypothesis MetadataEnum_allocates_only : allocates_only MetadataEnum.
Hypothesis MetadataClass_allocates_only : allocates_only MetadataClass.


End Accessors.
(** ** One round of a loop *)

Lemma enum_entry_table (C : constructor) (schema : value) (enums : loc) (k : string) :
  enum_entry C schema enums k = table_entry C "MetadataEnum" "enums" "enum" [] schema enums k.
Proof. reflexivity. Qed.

Lemma class_entry_table (C : constructor) (schema : value) (enums classes : loc)
    (k : string) :
  class_entry C schema enums classes k
  = table_entry C "MetadataClass" "classes" "class" [("enums", VObject enums)]
      schema classes k.
Proof. reflexivity. Qed.

Lemma Call_Normal (h : heap) (f this : value) (k : string) (b : value) :
  Call h f this k = Normal b →
  ∃ o, view h this = Some o ∧ b = VBool (bool_decide (is_Some (own k (props o)))).
Proof.
  unfold Call. destruct f as [| | | | |lf]; try done.
  destruct (callable <$> h !! lf) as [[[]|]|]; try done.
  destruct (view h this) as [o|]; [| done]. intros [= <-]. by exists o.
Qed.

Section Entry.

Variable C : constructor.
Variables (name field key : string) (more : list (string * value)).
Variables (schema mapping : value) (m : object) (table : loc).
Variable hb : heap.
Hypothesis schema_field : Get hb schema field = Normal mapping.
Hypothesis mapping_view : view hb mapping = Some m.
Hypothesis mapping_chain : is_Some (chain hb mapping).

(** What one round does: nothing, for a key that is not an own property of
    the mapping; or it fails before any constructor is called; or it
    calls the constructor, for an own key, with the definition found
    under the key, and assigns the instance to the table. *)
Lemma table_entry_cases (k : string) (h h' : heap) (r : completion unit)
    (evs : list event) :
  hb `prefix_of` h →
  table_entry C name field key more schema table k h = (r, h', evs) →
  (own k (props m) = None ∧ r = Normal () ∧ h' = h ∧ evs = [])
  ∨ (∃ e, r = Throw e ∧ h' = h ∧ evs = [])
  ∨ (is_Some (own k (props m)) ∧
     ∃ definition rc hc,
       Get hb mapping k = Normal definition
       ∧ C [VObject (length h)]
           (h ++ [literal (("id", VString k) :: (key, definition) :: more)]) = (rc, hc)
       ∧ match rc with
         | Throw e =>
             r = Throw e ∧ h' = hc
             ∧ evs = [entry_call C name key more k definition h hc rc]
         | Normal instance =>
             ∃ es, Put table k (VObject instance) hc = (r, h', es)
                   ∧ evs = [entry_call C name key more k definition h hc rc]
         end).
Proof using schema_field mapping_view mapping_chain.
  intros Hpre. unfold table_entry.
  assert (Get h schema field = Normal mapping) as HG by by eapply Get_prefix.
  assert (∀ j, Get h mapping j = Get hb mapping j) as HGm
    by (intros j; by apply Get_at_prefix).
  rewrite (bind_step _ _ h h mapping) by (unfold get, read; by rewrite HG).
  intros [(has & h1 & es1 & es1' & H1 & Hrun & ->)|(e & H1 & ->)]%bind_inv; last first.
  { apply call_method_same in H1 as [-> ->]. right; left. by exists e. }
  pose proof (call_method_same _ _ _ _ _ _ _ H1) as [-> ->].
  unfold call_method in H1.
  apply bind_Normal_inv in H1 as (f & h2 & es2 & es2' & _ & H2 & _).
  injection H2 as H2 Heq _. subst h2.
  apply Call_Normal in H2 as (o & Hview & ->).
  rewrite (view_prefix hb h mapping m mapping_view Hpre) in Hview. injection Hview as <-.
  case_bool_decide as Hown; unfold truthy in Hrun; last first.
  { injection Hrun as <- <- <-. left. split; [| done].
    by apply eq_None_not_Some. }
  rewrite (bind_step _ _ h h mapping) in Hrun by (unfold get, read; by rewrite HG).
  apply bind_inv in Hrun as [(d & h3 & es3 & es3' & H3 & Hrun & ->)|(e & H3 & ->)];
    injection H3 as H3 <- <-; [| right; left; by exists e].
  rewrite HGm in H3.
  rewrite (bind_step _ _ h _ (length h)) in Hrun by reflexivity.
  right; right. split; [done |].
  destruct (C [VObject (length h)]
              (h ++ [literal (("id", VString k) :: (key, d) :: more)]))
    as [rc hc] eqn:HC.
  exists d, rc, hc. split; [done |]. split; [done |].
  apply bind_inv in Hrun as [(i & h4 & es4 & es4' & H4 & Hrun & ->)|(e & H4 & ->)];
    unfold new in H4; rewrite HC in H4; destruct rc as [instance|e']; try done.
  - injection H4 as <- <- <-. pose proof (Put_cases _ _ _ _ _ _ _ Hrun) as [-> _].
    exists []. by rewrite app_nil_r.
  - by injection H4 as <- <- <-.
Qed.

End Entry.

(** ** A whole loop *)

Section Loop.

Variable C : constructor.
Variables (name field key : string) (more : list (string * value)).
Variables (schema mapping : value) (m : object) (table : loc).
Variable hb : heap.
Hypothesis C_allocates_only : allocates_only C.
Hypothesis schema_field : Get hb schema field = Normal mapping.
Hypothesis mapping_view : view hb mapping = Some m.
Hypothesis mapping_chain : is_Some (chain hb mapping).
Hypothesis table_above : length hb ≤ table.

(** Whatever the keys and however the loop completes: the table gets
    entries under own keys of the mapping only, and the constructor is
    called for own keys only. *)
Lemma table_loop_own (ks : list string) (h h' : heap) (o : object)
    (r : completion unit) (evs : list event) :
  hb `prefix_of` h → h !! table = Some o →
  for_each ks (table_entry C name field key more schema table) h = (r, h', evs) →
  hb `prefix_of` h'
  ∧ (∃ o', h' !! table = Some o'
       ∧ ∀ j, j ∈ own_keys (props o') →
           j ∈ own_keys (props o) ∨ (j ∈ ks ∧ is_Some (own j (props m))))
  ∧ Forall (loop_call C name key more mapping m hb ks) evs.
Proof using C_allocates_only schema_field mapping_view mapping_chain table_above.
  revert h o evs. induction ks as [|k ks IH]; intros h o evs Hpre Ho.
  - intros [= <- <- <-]. split; [done |]. split; [| constructor]. exists o. auto.
  - simpl.
    assert (∀ ev, loop_call C name key more mapping m hb ks ev →
                  loop_call C name key more mapping m hb (k :: ks) ev) as Hmono.
    { intros ev (k' & d & hcall & hc & rc & Hin & Hrest).
      exists k', d, hcall, hc, rc. split; [by right | done]. }
    intros [(a & h1 & es & es' & H1 & H2 & ->)|(e & H1 & ->)]%bind_inv.
    + apply (table_entry_cases C name field key more schema mapping m table hb
               schema_field mapping_view mapping_chain k h h1 _ es Hpre) in H1
        as [(Hnone & _ & -> & ->)|[(e & [=] & _)|(Hown & d & rc & hc & Hd & HC & Hrc)]].
      * destruct (IH h o es' Hpre Ho H2) as (Hpre' & (o' & Ho' & Hkeys) & Hevs).
        split; [done |]. split.
        -- exists o'. split; [done |]. intros j Hj.
           destruct (Hkeys j Hj) as [?|[? ?]]; [by left | right; split; [by right | done]].
        -- eapply Forall_impl; [exact Hevs | exact Hmono].
      * destruct rc as [li|e]; [| by destruct Hrc as ([=] & _)].
        destruct Hrc as (es0 & HP & ->).
        pose proof (C_allocates_only _ _ _ _ HC) as Hhc.
        assert (hb `prefix_of` hc) as Hpre_c
          by (etrans; [| exact Hhc]; by apply prefix_app_r).
        assert (hc !! table = Some o) as Ho_c.
        { eapply prefix_lookup_Some; [| exact Hhc]. by apply lookup_app_l_Some. }
        pose proof (Put_prefix hb _ _ _ _ _ _ _ HP Hpre_c table_above) as Hpre1.
        assert (∃ o1, h1 !! table = Some o1
                  ∧ ∀ j, j ∈ own_keys (props o1) → j = k ∨ j ∈ own_keys (props o))
          as (o1 & Ho1 & Hk1).
        { apply Put_cases in HP as [_ [->|(o0 & o1 & Ho0 & -> & _ & _ & Hprops)]].
          - exists o. split; [done | auto].
          - rewrite Ho_c in Ho0. injection Ho0 as <-. exists o1. split.
            + apply list_lookup_insert_eq. by eapply lookup_lt_Some.
            + intros j. destruct Hprops as [->|[_ ->]]; [auto |].
              by rewrite own_keys_store_own. }
        destruct (IH h1 o1 es' Hpre1 Ho1 H2) as (Hpre' & (o' & Ho' & Hkeys) & Hevs).
        split; [done |]. split.
        -- exists o'. split; [done |]. intros j Hj.
           destruct (Hkeys j Hj) as [Hj1|[? ?]]; [| right; split; [by right | done]].
           destruct (Hk1 j Hj1) as [->|?]; [| by left].
           right. split; [by left | done].
        -- constructor.
           ++ exists k, d, h, hc, (Normal li). split; [by left | done].
           ++ eapply Forall_impl; [exact Hevs | exact Hmono].
    + apply (table_entry_cases C name field key more schema mapping m table hb
               schema_field mapping_view mapping_chain k h h' _ evs Hpre) in H1
        as [(_ & [=] & _)|[(e' & _ & -> & ->)|(Hown & d & rc & hc & Hd & HC & Hrc)]].
      * split; [done |]. split; [| constructor]. exists o. auto.
      * pose proof (C_allocates_only _ _ _ _ HC) as Hhc.
        assert (hb `prefix_of` hc) as Hpre_c
          by (etrans; [| exact Hhc]; by apply prefix_app_r).
        assert (hc !! table = Some o) as Ho_c.
        { eapply prefix_lookup_Some; [| exact Hhc]. by apply lookup_app_l_Some. }
        assert (h' = hc ∧ evs = [entry_call C name key more k d h hc rc]) as [-> ->].
        { destruct rc as [li|e0].
          - destruct Hrc as (es0 & HP & ->).
            by apply Put_cases in HP as [_ [->|(? & ? & _ & _ & [=] & _)]].
          - by destruct Hrc as (_ & -> & ->). }
        split; [done |]. split; [exists o; auto |].
        constructor; [| constructor].
        exists k, d, h, hc, rc. split; [by left | done].
Qed.

Hypothesis realm_below : realm `prefix_of` hb.

(** When the table is a plain object, no own key of the mapping is
    [__proto__] and the loop completes: the table has got one entry for
    each own key of the mapping among the keys, in their order. *)
Lemma table_loop_exact (ks : list string) (h h' : heap) (ps : list (string * property))
    (evs : list event) :
  hb `prefix_of` h → h !! table = Some (Obj (Some Object_prototype) ps None) →
  NoDup (own_keys ps ++ filter (λ k, is_Some (own k (props m))) ks) →
  "__proto__" ∉ filter (λ k, is_Some (own k (props m))) ks →
  for_each ks (table_entry C name field key more schema table) h = (Normal (), h', evs) →
  hb `prefix_of` h' ∧ length h ≤ length h'
  ∧ ∃ ps', h' !! table = Some (Obj (Some Object_prototype) ps' None)
      ∧ own_keys ps' = own_keys ps ++ filter (λ k, is_Some (own k (props m))) ks
      ∧ Forall (λ kp, kp ∈ ps ∨ made C h h' kp.2) ps'.
Proof using C_allocates_only schema_field mapping_view mapping_chain table_above
  realm_below.
  revert h ps evs. induction ks as [|k ks IH]; intros h ps evs Hpre Ho Hnd Hproto.
  - intros [= <- <-]. split; [done |]. split; [done |]. exists ps.
    split; [done |]. split; [by rewrite app_nil_r |].
    apply Forall_forall. auto.
  - simpl for_each.
    intros (a & h1 & es & es' & H1 & H2 & ->)%bind_Normal_inv. destruct a.
    apply (table_entry_cases C name field key more schema mapping m table hb
             schema_field mapping_view mapping_chain k h h1 _ es Hpre) in H1
      as [(Hnone & _ & -> & ->)|[(e & [=] & _)|(Hown & d & rc & hc & Hd & HC & Hrc)]].
    + rewrite filter_cons_False in Hnd, Hproto |- *
        by (rewrite Hnone; by apply is_Some_None).
      by apply (IH h ps es').
    + rewrite filter_cons_True in Hnd, Hproto |- * by done.
      destruct rc as [li|e]; [| by destruct Hrc as ([=] & _)].
      destruct Hrc as (es0 & HP & ->).
      pose proof (C_allocates_only _ _ _ _ HC) as Hhc.
      assert (hb `prefix_of` hc) as Hpre_c
        by (etrans; [| exact Hhc]; by apply prefix_app_r).
      assert (hc !! table = Some (Obj (Some Object_prototype) ps None)) as Ho_c.
      { eapply prefix_lookup_Some; [| exact Hhc]. by apply lookup_app_l_Some. }
      assert (k ∉ own_keys ps) as Hfresh.
      { apply NoDup_app in Hnd as (_ & Hdis & _). intros Hin.
        apply (Hdis k Hin). by left. }
      assert (k ≠ "__proto__") as Hk.
      { intros ->. apply Hproto. by left. }
      rewrite (Put_store table k (VObject li) hc _
                 [Obj (Some Object_prototype) ps None; Object_prototype_object] Ho_c) in HP.
      2: { apply chain_plain_object; [by etrans | done | done]. }
      2: { simpl lookup_chain. rewrite (proj2 (own_None k ps) Hfresh).
           destruct (decide ("hasOwnProperty" = k)); [done |].
           by rewrite decide_False by done. }
      injection HP as <- <-. simpl in H2. rewrite store_own_new in H2 by done.
      assert (length h ≤ length hc) as Hlen_c.
      { pose proof (prefix_length _ _ Hhc) as Hl. rewrite length_app in Hl. lia. }
      destruct (IH (<[table := Obj (Some Object_prototype)
                                 (ps ++ [(k, Data (VObject li) true)]) None]> hc)
                   (ps ++ [(k, Data (VObject li) true)]) es')
        as (Hpre' & Hlen' & ps' & Ho' & Hkeys & Hmade); [| | | | exact H2 |].
      * by apply prefix_insert_above.
      * apply list_lookup_insert_eq. by eapply lookup_lt_Some.
      * unfold own_keys in *. rewrite fmap_app, <- app_assoc. done.
      * intros Hin. apply Hproto. by right.
      * rewrite length_insert in Hlen'.
        split; [done |]. split; [lia |]. exists ps'. split; [done |]. split.
        -- rewrite Hkeys. unfold own_keys. rewrite fmap_app, <- app_assoc. done.
        -- eapply Forall_impl; [exact Hmade |]. intros [j p].
           intros [[Hin|Hin%list_elem_of_singleton]%elem_of_app
                  |(i & args & hcall & hc' & -> & HC' & Hl1 & Hl2)].
           ++ by left.
           ++ injection Hin as -> ->. right.
              eexists li, _, _, hc. split; [done |]. split; [exact HC |].
              rewrite length_app. simpl. lia.
           ++ right. exists i, args, hcall, hc'. split; [done |]. split; [done |].
              rewrite length_insert in Hl1. simpl. lia.
Qed.

End Loop.
(** ** The keys a loop visits *)

Lemma enumerate_not_seen (seen : list string) (os : list object) (k : string) :
  k ∈ enumerate seen os → k ∉ seen.
Proof.
  revert seen. induction os as [|o os IH]; intros seen; simpl.
  - by intros ?%elem_of_nil.
  - intros [Hin|Hin]%elem_of_app.
    + by apply list_elem_of_filter in Hin as [? _].
    + apply IH in Hin. intros Hs. apply Hin, elem_of_app. by left.
Qed.

Lemma filter_all {A} (P : A → Prop) `{∀ x, Decision (P x)} (l : list A) :
  Forall P l → filter P l = l.
Proof.
  induction 1 as [|x l Hx Hl IH]; [done |].
  by rewrite filter_cons_True, IH.
Qed.

Lemma filter_none {A} (P : A → Prop) `{∀ x, Decision (P x)} (l : list A) :
  Forall (λ x, ¬ P x) l → filter P l = [].
Proof.
  induction 1 as [|x l Hx Hl IH]; [done |].
  by rewrite filter_cons_False.
Qed.

(** Of the keys a [for ... in] visits, the own ones are the own enumerable
    keys of the object, in their order. *)
Lemma for_in_own_keys (h : heap) (v : value) (m : object) :
  view h v = Some m → is_Some (chain h v) →
  filter (λ k, is_Some (own k (props m))) (for_in_keys h v) = enumerable_keys (props m).
Proof.
  intros Hv [os Hc]. unfold for_in_keys. rewrite Hc.
  unfold chain in Hc. rewrite Hv in Hc.
  destruct (chain_from _ _ _) as [los|]; [| done]. injection Hc as <-.
  replace (match v with
           | VUndefined | VNull => []
           | _ => from_option (enumerate []) [] (Some (m :: los.*2))
           end)
    with (enumerate [] (m :: los.*2)) by (by destruct v).
  simpl. rewrite filter_app, (filter_all (λ k, k ∉ [])).
  2: { apply Forall_forall. intros k _. apply not_elem_of_nil. }
  rewrite filter_all, filter_none.
  - by rewrite app_nil_r.
  - apply Forall_forall. intros k Hk%enumerate_not_seen.
    rewrite own_is_Some. done.
  - apply Forall_forall. intros k Hk. by apply own_is_Some, enumerable_keys_own.
Qed.

Lemma NoDup_enumerable_keys (ps : list (string * property)) :
  NoDup (own_keys ps) → NoDup (enumerable_keys ps).
Proof.
  unfold own_keys, enumerable_keys. induction ps as [|[k p] ps IH]; simpl; [done |].
  rewrite NoDup_cons. intros [Hk Hnd].
  destruct (decide (enumerable p = true)) as [He|He].
  - rewrite filter_cons_True by done. simpl. apply NoDup_cons. split; [| auto].
    intros Hin. apply Hk. apply list_elem_of_fmap in Hin as ([k' p'] & -> & Hin).
    apply list_elem_of_filter in Hin as [_ Hin]. apply list_elem_of_fmap. by exists (k', p').
  - rewrite filter_cons_False by done. auto.
Qed.

Lemma made_weaken (C : constructor) (h1 h1' h2 h2' : heap) (p : property) :
  made C h1 h1' p → length h2 ≤ length h1 → length h1' ≤ length h2' → made C h2 h2' p.
Proof.
  intros (i & args & hcall & hc & -> & HC & Hl1 & Hl2) Hle1 Hle2.
  exists i, args, hcall, hc. split; [done |]. split; [done |]. lia.
Qed.
(** ** Well-formed raw schemas *)

Lemma mapping_at_prefix (h h' : heap) (schema : value) (field : string) (lm : loc)
    (m : object) :
  mapping_at h schema field lm m → h `prefix_of` h' → mapping_at h' schema field lm m.
Proof.
  intros (HG & Hl & [os Hc] & Hnd) Hpre. split; [by eapply Get_prefix |].
  split; [by eapply prefix_lookup_Some |]. split; [| done].
  exists os. by eapply chain_prefix.
Qed.

Lemma field_ok_prefix (h h' : heap) (schema : value) (field : string) :
  field_ok h schema field → h `prefix_of` h' → field_ok h' schema field.
Proof.
  intros [HG|(lm & m & Hm)] Hpre.
  - left. by eapply Get_prefix.
  - right. exists lm, m. by eapply mapping_at_prefix.
Qed.

Lemma input_keys_absent (h : heap) (schema : value) (field : string) :
  Get h schema field = Normal VUndefined → input_keys h schema field = [].
Proof. unfold input_keys. by intros ->. Qed.

Lemma input_keys_mapping (h : heap) (schema : value) (field : string) (lm : loc)
    (m : object) :
  mapping_at h schema field lm m → input_keys h schema field = enumerable_keys (props m).
Proof. intros (HG & Hl & _). unfold input_keys. rewrite HG. simpl. by rewrite Hl. Qed.

Lemma input_keys_prefix (h h' : heap) (schema : value) (field : string) :
  field_ok h schema field → h `prefix_of` h' →
  input_keys h' schema field = input_keys h schema field.
Proof.
  intros [HG|(lm & m & Hm)] Hpre.
  - rewrite !input_keys_absent; [done | done | by eapply Get_prefix].
  - rewrite (input_keys_mapping h _ _ lm m Hm).
    apply (input_keys_mapping h' _ _ lm m). by eapply mapping_at_prefix.
Qed.

(** ** A whole pass: reading the field, enumerating, looping *)

Lemma table_pass (C : constructor) (name field key : string) (more : list (string * value))
    (schema : value) (table : loc) (hb h h' : heap) (mv : value) (evs : list event) :
  allocates_only C → realm `prefix_of` hb → hb `prefix_of` h → length hb ≤ table →
  field_ok hb schema field → "__proto__" ∉ input_keys hb schema field →
  h !! table = Some (literal []) →
  Get h schema field = Normal mv →
  for_each (for_in_keys h mv) (table_entry C name field key more schema table) h
  = (Normal (), h', evs) →
  hb `prefix_of` h' ∧ length h ≤ length h'
  ∧ ∃ ps, h' !! table = Some (Obj (Some Object_prototype) ps None)
      ∧ own_keys ps = input_keys hb schema field
      ∧ Forall (λ kp, made C h h' kp.2) ps.
Proof.
  intros HC Hrealm Hpre Htable [HG|(lm & m & Hm)] Hproto Ht Hmv Hrun.
  - rewrite (Get_prefix hb h _ _ _ HG Hpre) in Hmv. injection Hmv as <-.
    injection Hrun as <- <-. split; [done |]. split; [done |].
    exists []. split; [done |]. split; [| constructor].
    by rewrite input_keys_absent.
  - pose proof (mapping_at_prefix _ _ _ _ _ _ Hm Hpre) as (HG' & Hl' & Hc' & _).
    rewrite HG' in Hmv. injection Hmv as <-.
    rewrite (input_keys_mapping _ _ _ _ _ Hm) in Hproto |- *.
    destruct Hm as (HG & Hl & Hc & Hnd).
    pose proof (for_in_own_keys h (VObject lm) m Hl' Hc') as Hkeys.
    destruct (table_loop_exact C name field key more schema (VObject lm) m table hb
                HC HG Hl Hc Htable Hrealm (for_in_keys h (VObject lm)) h h' [] evs)
      as (Hpre' & Hlen & ps & Hps & Hown & Hmade); try done.
    + rewrite Hkeys. simpl. by apply NoDup_enumerable_keys.
    + by rewrite Hkeys.
    + split; [done |]. split; [done |]. exists ps. split; [done |].
      split; [by rewrite Hown, Hkeys |].
      eapply Forall_impl; [exact Hmade |]. intros kp [Hin|?]; [| done].
      by apply elem_of_nil in Hin.
Qed.
(** ** A completed construction *)

Section Built.

Variable MetadataEnum : constructor.
Variable MetadataClass : constructor.
Hypothesis MetadataEnum_allocates_only : allocates_only MetadataEnum.
Hypothesis MetadataClass_allocates_only : allocates_only MetadataClass.

(** What a completed construction from a well-formed raw schema without
    the identifier [__proto__] leaves: the Schema at the first location
    that was free, the enum table right after it, two tables with one
    instance for each key of the input mappings, the name and the
    description read from the input, and a copy of its extras made when
    all the rest was done. *)
Lemma MetadataSchema_built (schema : value) (h h' : heap) (S : value)
    (evs : list event) :
  realm `prefix_of` h → wf_raw_schema h schema → plain_ids h schema →
  MetadataSchema MetadataEnum MetadataClass schema h = (Normal S, h', evs) →
  S = VObject (length h) ∧ h `prefix_of` h' ∧
  ∃ C eps cps name description extras copy h3 hc,
    h' = <[length h := schema_object C (Datatypes.S (length h)) name description copy]> hc
    ∧ Get h schema "name" = Normal name
    ∧ Get h schema "description" = Normal description
    ∧ Get h schema "extras" = Normal extras
    ∧ h `prefix_of` h3 ∧ length h < length h3
    ∧ clone_at (length h3) extras h3 = (Normal copy, hc)
    ∧ h' !! Datatypes.S (length h) = Some (table_object eps)
    ∧ own_keys eps = input_keys h schema "enums"
    ∧ Forall (λ kp, made MetadataEnum h h' kp.2) eps
    ∧ h' !! C = Some (table_object cps)
    ∧ own_keys cps = input_keys h schema "classes"
    ∧ Forall (λ kp, made MetadataClass h h' kp.2) cps
    ∧ Datatypes.S (length h) < C.
Proof using MetadataEnum_allocates_only MetadataClass_allocates_only.
  intros Hrealm ([l ->] & Hfe & Hfc) [Hpe Hpc] Hrun.
  assert (is_Some (chain h (VObject l))) as Hchain.
  { destruct Hfe as [HG|(lm & m & HG & _)]; by eapply Get_Normal_chain. }
  rewrite MetadataSchema_unfold in Hrun.
  set (this := length h) in *. set (E := Datatypes.S this).
  set (this_obj := Obj (Some MetadataSchema_prototype) [] None).
  rewrite (bind_step _ _ h _ this) in Hrun by reflexivity.
  rewrite (bind_step _ _ _ _ ()) in Hrun by reflexivity.
  rewrite (bind_step _ _ _ _ (length (h ++ [this_obj]))) in Hrun by reflexivity.
  replace (length (h ++ [this_obj])) with E in Hrun
    by (rewrite length_app; unfold E, this; simpl; lia).
  set (hb := h ++ [this_obj]) in *.
  assert (length hb = E) as Hlen_hb by (unfold hb; rewrite length_app; simpl; unfold E, this; lia).
  assert (h `prefix_of` hb) as Hhb by (by apply prefix_app_r).
  set (h0 := hb ++ [literal []]) in *.
  assert (hb `prefix_of` h0) as Hh0 by (by apply prefix_app_r).
  apply bind_Normal_inv in Hrun as (se & h1 & es1 & es1' & H1 & Hrun & ->).
  injection H1 as H1 <- <-.
  rewrite (bind_step _ _ _ _ (for_in_keys h0 se)) in Hrun by reflexivity.
  apply bind_Normal_inv in Hrun as ([] & h2 & es2 & es2' & H2 & Hrun & ->).
  destruct (table_pass MetadataEnum "MetadataEnum" "enums" "enum" [] (VObject l) E
              hb h0 h2 se es2) as (Hhb2 & Hlen2 & eps & Heps & Hekeys & Hemade); try done.
  { by etrans. }
  { lia. }
  { by eapply field_ok_prefix. }
  { by rewrite (input_keys_prefix h hb). }
  { unfold h0. rewrite <- Hlen_hb. apply lookup_middle. }
  rewrite (input_keys_prefix h hb) in Hekeys by done.
  unfold after_enums in Hrun.
  rewrite (bind_step _ _ h2 _ (length h2)) in Hrun by reflexivity.
  set (C := length h2) in *.
  apply bind_Normal_inv in Hrun as (sc & h3' & es3 & es3' & H3 & Hrun & ->).
  injection H3 as H3 <- <-.
  rewrite (bind_step _ _ _ _ (for_in_keys (h2 ++ [literal []]) sc)) in Hrun by reflexivity.
  apply bind_Normal_inv in Hrun as ([] & h4 & es4 & es4' & H4 & Hrun & ->).
  assert (h `prefix_of` h2) as Hh2 by (by etrans).
  destruct (table_pass MetadataClass "MetadataClass" "classes" "class"
              [("enums", VObject E)] (VObject l) C h2 (h2 ++ [literal []]) h4 sc es4)
    as (Hh24 & Hlen4 & cps & Hcps & Hckeys & Hcmade); try done.
  { by etrans. }
  { by apply prefix_app_r. }
  { by eapply field_ok_prefix. }
  { by rewrite (input_keys_prefix h h2). }
  { apply lookup_middle. }
  rewrite (input_keys_prefix h h2) in Hckeys by done.
  assert (h4 !! this = Some this_obj) as Hthis4.
  { eapply prefix_lookup_Some; [| exact Hh24]. eapply prefix_lookup_Some; [| exact Hhb2].
    apply lookup_middle. }
  destruct (assemble_inv (VObject l) this E C h4 h' S es4')
    as (name & description & extras & copy & h3 & hc & -> & -> & Hh3 & HG & Hclone & ->);
    [by do 2 (etrans; [| eassumption]) | done | done |].
  destruct (HG h) as (Hn & Hd & Hx); [by etrans | done | done |].
  assert (length h3 = length h4) as Hlen3 by (rewrite Hh3; apply length_insert).
  pose proof (clone_at_prefix _ _ _ _ _ Hclone) as Hhc.
  pose proof (prefix_length _ _ Hhc) as Hlenc.
  pose proof (prefix_length _ _ Hh24) as Hlen24.
  assert (length h0 = Datatypes.S E) as Hlen0
    by (unfold h0; rewrite length_app, Hlen_hb; simpl; lia).
  rewrite length_app in Hlen4. simpl in Hlen4.
  assert (h `prefix_of` h3) as Hhh3.
  { rewrite Hh3. apply prefix_insert_above; [by etrans | done]. }
  split; [done |]. split.
  { apply prefix_insert_above; [by etrans | done]. }
  exists C, eps, cps, name, description, extras, copy, h3, hc.
  assert (∀ l0 o0, l0 ≠ this → h4 !! l0 = Some o0 →
            <[this := schema_object C E name description copy]> hc !! l0 = Some o0)
    as Hkeep.
  { intros l0 o0 Hne Hl0. rewrite list_lookup_insert_ne by done.
    eapply prefix_lookup_Some; [| exact Hhc]. rewrite Hh3.
    by rewrite list_lookup_insert_ne. }
  split; [done |]. split; [done |]. split; [done |]. split; [done |].
  split; [done |]. split; [unfold this in *; lia |].
  split; [by rewrite Hlen3 |].
  split; [apply Hkeep; [unfold E; lia | by eapply prefix_lookup_Some] |].
  split; [done |]. split.
  { eapply Forall_impl; [exact Hemade |]. intros kp Hm.
    eapply made_weaken; [exact Hm | |].
    - pose proof (prefix_length _ _ Hhb). pose proof (prefix_length _ _ Hh0). lia.
    - rewrite length_insert. lia. }
  split; [apply Hkeep; [unfold C, E in *; lia | done] |].
  split; [done |]. split.
  { eapply Forall_impl; [exact Hcmade |]. intros kp Hm.
    eapply made_weaken; [exact Hm | |].
    - rewrite length_app. pose proof (prefix_length _ _ Hh2). lia.
    - rewrite length_insert. lia. }
  unfold C. lia.
Qed.

End Built.
(** ** The keys of the two tables *)

Lemma keys_of_table (h : heap) (l : loc) (ps : list (string * property)) :
  h !! l = Some (table_object ps) → keys_of h (VObject l) = own_keys ps.
Proof. unfold keys_of. simpl. by intros ->. Qed.

Section Keys.

Variable MetadataEnum : constructor.
Variable MetadataClass : constructor.
Hypothesis MetadataEnum_allocates_only : allocates_only MetadataEnum.
Hypothesis MetadataClass_allocates_only : allocates_only MetadataClass.

(** X1. For every well-formed raw schema none of whose identifiers is
    [__proto__], the tables that [classes] and [enums] of the constructed
    Schema return have exactly the keys of the input's [classes] and
    [enums] mappings, in the same order; for an absent field the table is
    empty. *)
Theorem schema_tables_have_the_input_keys (schema : value) (h h' : heap) (S : value)
    (evs : list event) :
  realm `prefix_of` h → wf_raw_schema h schema → plain_ids h schema →
  MetadataSchema MetadataEnum MetadataClass schema h = (Normal S, h', evs) →
  ∃ C E,
    Get h' S "classes" = Normal (VObject C)
    ∧ keys_of h' (VObject C) = input_keys h schema "classes"
    ∧ (Get h schema "classes" = Normal VUndefined → keys_of h' (VObject C) = [])
    ∧ Get h' S "enums" = Normal (VObject E)
    ∧ keys_of h' (VObject E) = input_keys h schema "enums"
    ∧ (Get h schema "enums" = Normal VUndefined → keys_of h' (VObject E) = []).
Proof using MetadataEnum_allocates_only MetadataClass_allocates_only.
  intros Hrealm Hwf Hplain Hrun.
  destruct (MetadataSchema_built MetadataEnum MetadataClass MetadataEnum_allocates_only
              MetadataClass_allocates_only schema h h' S evs Hrealm Hwf Hplain Hrun)
    as (-> & Hpre & C & eps & cps & name & description & extras & copy & h3 & hc
        & Hh' & _ & _ & _ & Hh3 & Hlt & Hclone & HE & Hekeys & _ & HC & Hckeys & _ & _).
  assert (h' !! length h
          = Some (schema_object C (Datatypes.S (length h)) name description copy)) as Hthis.
  { rewrite Hh'. apply list_lookup_insert_eq.
    pose proof (prefix_length _ _ (clone_at_prefix _ _ _ _ _ Hclone)). lia. }
  assert (realm `prefix_of` h') as Hrealm' by by etrans.
  exists C, (Datatypes.S (length h)).
  rewrite (keys_of_table _ _ _ HC), (keys_of_table _ _ _ HE), Hckeys, Hekeys.
  split_and!.
  - eapply (Get_accessor h' _ _ "classes" "_classes" _ true);
      [exact Hrealm' | exact Hthis | reflexivity | unfold accessors; in_list
      | reflexivity | reflexivity].
  - reflexivity.
  - apply input_keys_absent.
  - eapply (Get_accessor h' _ _ "enums" "_enums" _ true);
      [exact Hrealm' | exact Hthis | reflexivity | unfold accessors; in_list
      | reflexivity | reflexivity].
  - reflexivity.
  - apply input_keys_absent.
Qed.

End Keys.
(** ** Own properties only *)

Lemma table_pass_own (C : constructor) (name field key : string)
    (more : list (string * value)) (schema : value) (table : loc) (hb h h' : heap)
    (mv : value) (o : object) (r : completion unit) (evs : list event) :
  allocates_only C → realm `prefix_of` hb → hb `prefix_of` h → length hb ≤ table →
  field_ok hb schema field →
  h !! table = Some o → props o = [] →
  Get h schema field = Normal mv →
  for_each (for_in_keys h mv) (table_entry C name field key more schema table) h
  = (r, h', evs) →
  hb `prefix_of` h'
  ∧ (∃ o', h' !! table = Some o'
       ∧ ∀ j, j ∈ own_keys (props o') → j ∈ input_keys hb schema field)
  ∧ Forall (λ ev, ev_ctor ev = name ∧ call_for_key hb schema field ev) evs.
Proof.
  intros HC Hrealm Hpre Htable [HG|(lm & m & Hm)] Ho Hprops Hmv Hrun.
  - rewrite (Get_prefix hb h _ _ _ HG Hpre) in Hmv. injection Hmv as <-.
    injection Hrun as <- <- <-. split; [done |]. split; [| constructor].
    exists o. split; [done |]. rewrite Hprops. by intros j ?%elem_of_nil.
  - pose proof (mapping_at_prefix _ _ _ _ _ _ Hm Hpre) as (HG' & Hl' & Hc' & _).
    rewrite HG' in Hmv. injection Hmv as <-.
    rewrite (input_keys_mapping _ _ _ _ _ Hm).
    assert (∀ j, j ∈ for_in_keys h (VObject lm) → is_Some (own j (props m)) →
              j ∈ enumerable_keys (props m)) as Hown.
    { intros j Hin Hj. rewrite <- (for_in_own_keys h (VObject lm) m Hl' Hc').
      by apply list_elem_of_filter. }
    pose proof Hm as (HG & Hl & Hc & Hnd).
    destruct (table_loop_own C name field key more schema (VObject lm) m table hb
                HC HG Hl Hc Htable (for_in_keys h (VObject lm)) h h' o r evs Hpre Ho Hrun)
      as (Hpre' & (o' & Ho' & Hkeys) & Hevs).
    split; [done |]. split.
    + exists o'. split; [done |]. intros j Hj.
      destruct (Hkeys j Hj) as [Hin|[Hin Hj']]; [| by apply Hown].
      rewrite Hprops in Hin. by apply elem_of_nil in Hin.
    + eapply Forall_impl; [exact Hevs |].
      intros ev (k & d & hcall & hc & rc & Hin & Hk & Hd & Hcall & ->).
      split; [done |]. exists k, (length hcall).
      rewrite (input_keys_mapping _ _ _ _ _ Hm).
      split; [by apply Hown |]. split; [done |]. simpl.
      eapply Get_plain_data; [| apply lookup_middle | reflexivity |].
      * apply prefix_app_r. by etrans.
      * reflexivity.
Qed.

Section Own.

Variable MetadataEnum : constructor.
Variable MetadataClass : constructor.
Hypothesis MetadataEnum_allocates_only : allocates_only MetadataEnum.
Hypothesis MetadataClass_allocates_only : allocates_only MetadataClass.

(** C9. For every well-formed raw schema, only the own enumerable
    properties of the input's [enums] and [classes] mappings populate the
    tables of the constructed Schema: every key of a table is an own
    enumerable key of the corresponding mapping, and [MetadataEnum] and
    [MetadataClass] were called for such keys only. A key that the
    mapping only inherits gets no entry and no constructor call. *)
Theorem only_own_properties_populate (schema : value) (h h' : heap) (S : value)
    (evs : list event) :
  realm `prefix_of` h → wf_raw_schema h schema →
  MetadataSchema MetadataEnum MetadataClass schema h = (Normal S, h', evs) →
  ∃ C E,
    Get h' S "classes" = Normal (VObject C)
    ∧ (∀ k, k ∈ keys_of h' (VObject C) → k ∈ input_keys h schema "classes")
    ∧ Get h' S "enums" = Normal (VObject E)
    ∧ (∀ k, k ∈ keys_of h' (VObject E) → k ∈ input_keys h schema "enums")
    ∧ Forall (λ ev, (ev_ctor ev = "MetadataEnum" ∧ call_for_key h schema "enums" ev)
                    ∨ (ev_ctor ev = "MetadataClass"
                       ∧ call_for_key h schema "classes" ev)) evs.
Proof using MetadataEnum_allocates_only MetadataClass_allocates_only.
  intros Hrealm ([l ->] & Hfe & Hfc) Hrun.
  rewrite MetadataSchema_unfold in Hrun.
  set (this := length h) in *. set (E := Datatypes.S this).
  set (this_obj := Obj (Some MetadataSchema_prototype) [] None).
  rewrite (bind_step _ _ h _ this) in Hrun by reflexivity.
  rewrite (bind_step _ _ _ _ ()) in Hrun by reflexivity.
  rewrite (bind_step _ _ _ _ (length (h ++ [this_obj]))) in Hrun by reflexivity.
  replace (length (h ++ [this_obj])) with E in Hrun
    by (rewrite length_app; unfold E, this; simpl; lia).
  set (hb := h ++ [this_obj]) in *.
  assert (length hb = E) as Hlen_hb
    by (unfold hb; rewrite length_app; simpl; unfold E, this; lia).
  assert (h `prefix_of` hb) as Hhb by (by apply prefix_app_r).
  set (h0 := hb ++ [literal []]) in *.
  assert (hb `prefix_of` h0) as Hh0 by (by apply prefix_app_r).
  apply bind_Normal_inv in Hrun as (se & h1 & es1 & es1' & H1 & Hrun & ->).
  injection H1 as H1 <- <-.
  rewrite (bind_step _ _ _ _ (for_in_keys h0 se)) in Hrun by reflexivity.
  apply bind_Normal_inv in Hrun as ([] & h2 & es2 & es2' & H2 & Hrun & ->).
  destruct (table_pass_own MetadataEnum "MetadataEnum" "enums" "enum" [] (VObject l) E
              hb h0 h2 se (literal []) (Normal ()) es2)
    as (Hhb2 & (oe & Hoe & Hekeys) & Heevs); try done.
  { by etrans. }
  { lia. }
  { by eapply field_ok_prefix. }
  { unfold h0. rewrite <- Hlen_hb. apply lookup_middle. }
  unfold after_enums in Hrun.
  rewrite (bind_step _ _ h2 _ (length h2)) in Hrun by reflexivity.
  set (C := length h2) in *.
  apply bind_Normal_inv in Hrun as (sc & h3' & es3 & es3' & H3 & Hrun & ->).
  injection H3 as H3 <- <-.
  rewrite (bind_step _ _ _ _ (for_in_keys (h2 ++ [literal []]) sc)) in Hrun by reflexivity.
  apply bind_Normal_inv in Hrun as ([] & h4 & es4 & es4' & H4 & Hrun & ->).
  assert (h `prefix_of` h2) as Hh2 by (by etrans).
  destruct (table_pass_own MetadataClass "MetadataClass" "classes" "class"
              [("enums", VObject E)] (VObject l) C h2 (h2 ++ [literal []]) h4 sc
              (literal []) (Normal ()) es4)
    as (Hh24 & (oc & Hoc & Hckeys) & Hcevs); try done.
  { by etrans. }
  { by apply prefix_app_r. }
  { by eapply field_ok_prefix. }
  { apply lookup_middle. }
  assert (h4 !! this = Some this_obj) as Hthis4.
  { eapply prefix_lookup_Some; [| exact Hh24]. eapply prefix_lookup_Some; [| exact Hhb2].
    apply lookup_middle. }
  destruct (assemble_inv (VObject l) this E C h4 h' S es4')
    as (name & description & extras & copy & h3 & hc & -> & -> & Hh3 & HG & Hclone & ->);
    [by do 2 (etrans; [| eassumption]) | done | done |].
  pose proof (clone_at_prefix _ _ _ _ _ Hclone) as Hhc.
  pose proof (prefix_length _ _ Hhc) as Hlenc.
  assert (length h3 = length h4) as Hlen3 by (rewrite Hh3; apply length_insert).
  pose proof (lookup_lt_Some _ _ _ Hthis4) as Hlt4.
  set (h' := <[this := schema_object C E name description copy]> hc).
  assert (h' !! this = Some (schema_object C E name description copy)) as Hthis.
  { apply list_lookup_insert_eq. lia. }
  assert (realm `prefix_of` h') as Hrealm'.
  { apply prefix_insert_above; [| pose proof (prefix_length _ _ Hrealm); unfold this; lia].
    etrans; [| exact Hhc]. rewrite Hh3.
    apply prefix_insert_above; [| pose proof (prefix_length _ _ Hrealm); unfold this; lia].
    by do 3 (etrans; [| eassumption]). }
  assert (∀ l0 o0, l0 ≠ this → h4 !! l0 = Some o0 → h' !! l0 = Some o0) as Hkeep.
  { intros l0 o0 Hne Hl0. unfold h'. rewrite list_lookup_insert_ne by done.
    eapply prefix_lookup_Some; [| exact Hhc]. rewrite Hh3.
    by rewrite list_lookup_insert_ne. }
  pose proof (lookup_lt_Some _ _ _ Hoe) as HltE.
  exists C, E. split_and!.
  - eapply (Get_accessor h' _ _ "classes" "_classes" _ true);
      [exact Hrealm' | exact Hthis | reflexivity | unfold accessors; in_list
      | reflexivity | reflexivity].
  - intros k. unfold keys_of. simpl.
    rewrite (Hkeep C oc); [| unfold C, E in *; lia | done]. simpl.
    rewrite <- (input_keys_prefix h h2) by done. apply Hckeys.
  - eapply (Get_accessor h' _ _ "enums" "_enums" _ true);
      [exact Hrealm' | exact Hthis | reflexivity | unfold accessors; in_list
      | reflexivity | reflexivity].
  - intros k. unfold keys_of. simpl.
    rewrite (Hkeep E oe); [| unfold E; lia | by eapply prefix_lookup_Some]. simpl.
    rewrite <- (input_keys_prefix h hb) by done. apply Hekeys.
  - simpl. rewrite app_nil_r. apply Forall_app. split.
    + eapply Forall_impl; [exact Heevs |]. intros ev [Hn (k & lo & Hk & Hrest)].
      left. split; [done |]. exists k, lo. by rewrite <- (input_keys_prefix h hb).
    + eapply Forall_impl; [exact Hcevs |]. intros ev [Hn (k & lo & Hk & Hrest)].
      right. split; [done |]. exists k, lo. by rewrite <- (input_keys_prefix h h2).
Qed.

End Own.
(** ** The content of a deep copy *)

Lemma snapshot_primitive (n : nat) (h : heap) (v : value) :
  (∀ l, v ≠ VObject l) → snapshot n h v = Some (TValue v).
Proof. intros Hv. destruct n, v; try done; by destruct (Hv l). Qed.

(** A value with a content in [h] is copied, in any heap grown from [h] and
    with at least the fuel the content took, into a value with the same
    content, which depends on the objects the copy added only. *)
Lemma clone_at_content (n : nat) :
  ∀ (v : value) (h : heap) (t : tree),
    snapshot n h v = Some t →
    ∀ (m : nat) (h1 : heap), n ≤ m → h `prefix_of` h1 →
    ∃ v' h', clone_at m v h1 = (Normal v', h') ∧ h1 `prefix_of` h'
      ∧ ∀ (k : nat) (h2 : heap), n ≤ k →
          (∀ l, length h1 ≤ l → l < length h' → h2 !! l = h' !! l) →
          snapshot k h2 v' = Some t.
Proof.
  induction n as [|n IH]; intros v h t Hs m h1 Hm Hpre.
  - destruct v as [| | | | |l]; try done; injection Hs as <-;
      (eexists _, h1; split; [by apply clone_at_primitive |]; split; [done |];
       intros k h2 _ _; by apply snapshot_primitive).
  - destruct v as [| | | | |l];
      try (injection Hs as <-;
           eexists _, h1; split; [by apply clone_at_primitive |]; split; [done |];
           intros k h2 _ _; by apply snapshot_primitive).
    simpl in Hs. destruct (h !! l) as [o|] eqn:Hl; [| done].
    destruct (snapshot_props (snapshot n h) (props o)) as [ts|] eqn:Hps; [| done].
    injection Hs as <-.
    destruct m as [|m]; [lia |].
    assert (∀ (ps : list (string * property)) ts0 h1,
              snapshot_props (snapshot n h) ps = Some ts0 → h `prefix_of` h1 →
              ∃ qs h', clone_props (clone_at m) ps h1 = (Normal qs, h') ∧ h1 `prefix_of` h'
                ∧ ∀ k h2, n ≤ k →
                    (∀ l, length h1 ≤ l → l < length h' → h2 !! l = h' !! l) →
                    snapshot_props (snapshot k h2) qs = Some ts0) as Hprops.
    { clear ts Hps h1 Hpre. induction ps as [|[j [x e|g s e]] ps IHps]; intros ts0 h1 Hts Hpre.
      - injection Hts as <-. exists [], h1. split; [done |]. split; [done |]. done.
      - simpl in Hts. destruct (snapshot n h x) as [tx|] eqn:Hx; [| done].
        destruct (snapshot_props (snapshot n h) ps) as [ts1|] eqn:Hts1; [| done].
        injection Hts as <-.
        destruct (IH x h tx Hx m h1 ltac:(lia) Hpre) as (x' & h1' & Hcx & Hpre1 & Hsx).
        destruct (IHps ts1 h1' eq_refl ltac:(by etrans)) as (qs & h' & Hcps & Hpre' & Hsps).
        exists ((j, Data x' e) :: qs), h'. simpl. rewrite Hcx, Hcps.
        split; [done |]. split; [by etrans |].
        intros k h2 Hk Hag. simpl.
        pose proof (prefix_length _ _ Hpre1) as Hl1. pose proof (prefix_length _ _ Hpre') as Hl2.
        rewrite (Hsx k h2 Hk), (Hsps k h2 Hk); [done | |].
        + intros l0 Hge Hlt. apply Hag; lia.
        + intros l0 Hge Hlt. rewrite Hag by lia.
          destruct (lookup_lt_is_Some_2 h1' l0 Hlt) as [o0 Ho0]. rewrite Ho0.
          by eapply prefix_lookup_Some.
      - simpl in Hts. destruct (snapshot_props (snapshot n h) ps) as [ts1|] eqn:Hts1; [| done].
        injection Hts as <-.
        destruct (IHps ts1 h1 eq_refl Hpre) as (qs & h' & Hcps & Hpre' & Hsps).
        exists ((j, Accessor g s e) :: qs), h'. simpl. rewrite Hcps.
        split; [done |]. split; [done |].
        intros k h2 Hk Hag. simpl. by rewrite (Hsps k h2 Hk). }
    destruct (Hprops (props o) ts h1 Hps Hpre) as (qs & h' & Hcps & Hpre' & Hsps).
    exists (VObject (length h')), (h' ++ [Obj (proto o) qs (callable o)]).
    simpl. rewrite (prefix_lookup_Some _ _ _ _ Hl Hpre), Hcps.
    split; [done |]. split; [by apply prefix_app_r |].
    intros k h2 Hk Hag. destruct k as [|k]; [lia |]. simpl.
    pose proof (prefix_length _ _ Hpre') as Hl'.
    rewrite Hag, lookup_middle by (rewrite ?length_app; simpl; lia). simpl.
    rewrite (Hsps k h2); [done | lia |].
    intros l0 Hge Hlt. rewrite Hag by (rewrite ?length_app; simpl; lia).
    by apply lookup_app_l.
Qed.
(** ** The extras of a Schema *)

Section Extras.

Variable MetadataEnum : constructor.
Variable MetadataClass : constructor.
Hypothesis MetadataEnum_allocates_only : allocates_only MetadataEnum.
Hypothesis MetadataClass_allocates_only : allocates_only MetadataClass.

(** How a completed construction ended: with the copy of the extras, made
    in a heap that grew from the initial one, and the assignment of the
    five fields. *)
Lemma MetadataSchema_extras (schema : value) (h h' : heap) (S : value)
    (evs : list event) :
  realm `prefix_of` h →
  MetadataSchema MetadataEnum MetadataClass schema h = (Normal S, h', evs) →
  ∃ C name description extras copy h3 hc,
    S = VObject (length h) ∧ h `prefix_of` h3 ∧ length h < length h3
    ∧ (is_Some (chain h schema) → Get h schema "extras" = Normal extras)
    ∧ clone_at (length h3) extras h3 = (Normal copy, hc)
    ∧ h' = <[length h := schema_object C (Datatypes.S (length h)) name description copy]> hc.
Proof using MetadataEnum_allocates_only MetadataClass_allocates_only.
  intros Hrealm Hrun. rewrite MetadataSchema_unfold in Hrun.
  set (this := length h) in *. set (E := Datatypes.S this).
  set (this_obj := Obj (Some MetadataSchema_prototype) [] None).
  rewrite (bind_step _ _ h _ this) in Hrun by reflexivity.
  destruct schema as [| | | | |l]; try done.
  rewrite (bind_step _ _ _ _ ()) in Hrun by reflexivity.
  rewrite (bind_step _ _ _ _ (length (h ++ [this_obj]))) in Hrun by reflexivity.
  replace (length (h ++ [this_obj])) with E in Hrun
    by (rewrite length_app; unfold E, this; simpl; lia).
  set (hb := h ++ [this_obj]) in *.
  assert (length hb = E) as Hlen_hb
    by (unfold hb; rewrite length_app; simpl; unfold E, this; lia).
  assert (h `prefix_of` hb) as Hhb by (by apply prefix_app_r).
  set (h0 := hb ++ [literal []]) in *.
  assert (length h0 = Datatypes.S E) as Hlen0
    by (unfold h0; rewrite length_app, Hlen_hb; simpl; lia).
  apply bind_Normal_inv in Hrun as (se & h1 & es1 & es1' & H1 & Hrun & ->).
  injection H1 as _ <- <-.
  rewrite (bind_step _ _ _ _ (for_in_keys h0 se)) in Hrun by reflexivity.
  apply bind_Normal_inv in Hrun as ([] & h2 & es2 & es2' & H2 & Hrun & ->).
  assert (hb `prefix_of` h2 ∧ E < length h2) as [Hhb2 Hlen2].
  { assert (keeps E (λ _, True)
              (for_each (for_in_keys h0 se) (enum_entry MetadataEnum (VObject l) E))) as Hk.
    { apply keeps_for_each. intros k. apply keeps_enum_entry; [done | by left]. }
    split.
    - eapply (keeps_prefix E (λ _, True)); [exact Hk | exact H2 | | | | done].
      + by apply prefix_app_r.
      + unfold hb, E, this; rewrite ?length_app; simpl length; lia.
      + unfold h0, hb, E, this; rewrite ?length_app; simpl length; lia.
    - destruct (Hk h0 _ _ _ ltac:(rewrite Hlen0; lia) H2) as (Hl & _).
      rewrite Hlen0 in Hl. lia. }
  unfold after_enums in Hrun.
  rewrite (bind_step _ _ h2 _ (length h2)) in Hrun by reflexivity.
  apply bind_Normal_inv in Hrun as (sc & h3' & es3 & es3' & H3 & Hrun & ->).
  injection H3 as _ <- <-.
  rewrite (bind_step _ _ _ _ (for_in_keys (h2 ++ [literal []]) sc)) in Hrun by reflexivity.
  apply bind_Normal_inv in Hrun as ([] & h4 & es4 & es4' & H4 & Hrun & ->).
  assert (hb `prefix_of` h4) as Hhb4.
  { assert (keeps E (λ _, True)
              (for_each (for_in_keys (h2 ++ [literal []]) sc)
                 (class_entry MetadataClass (VObject l) E (length h2)))) as Hk.
    { apply keeps_for_each. intros k. apply keeps_class_entry; [done |]. left. lia. }
    eapply (keeps_prefix E (λ _, True)); [exact Hk | exact H4 | | lia | | done].
    - by apply prefix_app_r.
    - rewrite length_app. lia. }
  assert (h4 !! this = Some this_obj) as Hthis4.
  { eapply prefix_lookup_Some; [| exact Hhb4]. apply lookup_middle. }
  destruct (assemble_inv (VObject l) this E (length h2) h4 h' S es4')
    as (name & description & extras & copy & h3 & hc & -> & -> & Hh3 & HG & Hclone & ->);
    [by do 2 (etrans; [| eassumption]) | done | done |].
  assert (length h3 = length h4) as Hlen3 by (rewrite Hh3; apply length_insert).
  pose proof (lookup_lt_Some _ _ _ Hthis4) as Hlt4.
  exists (length h2), name, description, extras, copy, h3, hc.
  split; [done |]. split; [| split; [lia |]; split; [| split; [by rewrite Hlen3 | done]]].
  - rewrite Hh3. apply prefix_insert_above; [by etrans | done].
  - intros Hchain. by destruct (HG h) as (_ & _ & ?); [by etrans | done | done |].
Qed.

(** C3. The extras of a constructed Schema are a deep copy of the input's
    extras: [schema.extras] has the content the input's extras had when
    the construction began, and it keeps returning the same value with
    that same content in every later heap in which the objects that
    existed before the construction (the caller's, the extras object and
    all it refers to among them) have changed in whatever way, the
    built-in objects and the objects made by the construction being as
    the construction left them. *)
Theorem extras_copy_is_isolated (schema : value) (h h' : heap) (S : value)
    (evs : list event) (extras : value) (t : tree) (h2 : heap) :
  realm `prefix_of` h →
  MetadataSchema MetadataEnum MetadataClass schema h = (Normal S, h', evs) →
  Get h schema "extras" = Normal extras → content h extras = Some t →
  realm `prefix_of` h2 →
  (∀ l, length h ≤ l → l < length h' → h2 !! l = h' !! l) →
  ∃ copy,
    Get h' S "extras" = Normal copy ∧ content h' copy = Some t
    ∧ Get h2 S "extras" = Normal copy ∧ content h2 copy = Some t.
Proof using MetadataEnum_allocates_only MetadataClass_allocates_only.
  intros Hrealm Hrun Hx Ht Hrealm2 Hag.
  destruct (MetadataSchema_extras schema h h' S evs Hrealm Hrun)
    as (C & name & description & extras' & copy & h3 & hc
        & -> & Hh3 & Hlt & HG & Hclone & Hh').
  rewrite HG in Hx by (by eapply Get_Normal_chain). injection Hx as ->.
  destruct (clone_at_content (length h) extras h t Ht (length h3) h3 ltac:(lia) Hh3)
    as (copy' & hc' & Hclone' & Hhc & Hcontent).
  rewrite Hclone in Hclone'. injection Hclone' as <- <-.
  pose proof (prefix_length _ _ Hhc) as Hlenc.
  assert (length h' = length hc) as Hlen' by (rewrite Hh'; apply length_insert).
  assert (h' !! length h
          = Some (schema_object C (Datatypes.S (length h)) name description copy)) as Hthis.
  { rewrite Hh'. apply list_lookup_insert_eq. lia. }
  assert (h2 !! length h
          = Some (schema_object C (Datatypes.S (length h)) name description copy)) as Hthis2.
  { rewrite Hag by lia. exact Hthis. }
  assert (realm `prefix_of` h') as Hrealm'.
  { rewrite Hh'. apply prefix_insert_above; [| by apply prefix_length].
    by do 2 (etrans; [| eassumption]). }
  exists copy. split_and!.
  - eapply (Get_accessor h' _ _ "extras" "_extras" _ true);
      [exact Hrealm' | exact Hthis | reflexivity | unfold accessors; in_list
      | reflexivity | reflexivity].
  - apply Hcontent; [lia |]. intros l Hge Hlt'. rewrite Hh'.
    apply list_lookup_insert_ne. lia.
  - eapply (Get_accessor h2 _ _ "extras" "_extras" _ true);
      [exact Hrealm2 | exact Hthis2 | reflexivity | unfold accessors; in_list
      | reflexivity | reflexivity].
  - apply Hcontent.
    + pose proof (lookup_lt_Some _ _ _ Hthis2). lia.
    + intros l Hge Hlt'. rewrite Hag by lia. rewrite Hh'.
      apply list_lookup_insert_ne. lia.
Qed.

End Extras.
(** ** Values with the same content *)

Lemma snapshot_mono (n : nat) :
  ∀ (v : value) (h : heap) (t : tree),
    snapshot n h v = Some t →
    ∀ (m : nat) (h' : heap), n ≤ m → h `prefix_of` h' → snapshot m h' v = Some t.
Proof.
  induction n as [|n IH]; intros v h t Hs m h' Hm Hpre.
  - destruct v; try done; injection Hs as <-; by apply snapshot_primitive.
  - destruct v as [| | | | |l];
      try (injection Hs as <-; by apply snapshot_primitive).
    simpl in Hs. destruct (h !! l) as [o|] eqn:Hl; [| done].
    destruct (snapshot_props (snapshot n h) (props o)) as [ts|] eqn:Hps; [| done].
    injection Hs as <-. destruct m as [|m]; [lia |]. simpl.
    rewrite (prefix_lookup_Some _ _ _ _ Hl Hpre).
    assert (∀ ps ts0, snapshot_props (snapshot n h) ps = Some ts0 →
              snapshot_props (snapshot m h') ps = Some ts0) as Hprops.
    { induction ps as [|[j [x e|g s e]] ps IHps]; intros ts0 Hts; simpl in *.
      - done.
      - destruct (snapshot n h x) as [tx|] eqn:Hx; [| done].
        destruct (snapshot_props (snapshot n h) ps) as [ts1|]; [| done].
        injection Hts as <-.
        by rewrite (IH x h tx Hx m h' ltac:(lia) Hpre), (IHps ts1 eq_refl).
      - destruct (snapshot_props (snapshot n h) ps) as [ts1|]; [| done].
        injection Hts as <-. by rewrite (IHps ts1 eq_refl). }
    by rewrite (Hprops _ _ Hps).
Qed.

Lemma content_prefix (h h' : heap) (v : value) (t : tree) :
  content h v = Some t → h `prefix_of` h' → content h' v = Some t.
Proof.
  intros Hc Hpre. eapply snapshot_mono; [exact Hc | by apply prefix_length | done].
Qed.

Lemma snapshot_content (n : nat) (h : heap) (v : value) (t : tree) :
  snapshot n h v = Some t → n ≤ length h → content h v = Some t.
Proof. intros Hs Hn. by eapply snapshot_mono. Qed.

(** The property under a key, in an object and in its content. *)
Lemma snapshot_props_own (rec : value → option tree) (ps : list (string * property))
    (ts : list (string * tree_property)) (k : string) :
  snapshot_props rec ps = Some ts →
  match own k ps, tree_own k ts with
  | None, None => True
  | Some (Data x e), Some (TData tx e') => e = e' ∧ rec x = Some tx
  | Some (Accessor g s e), Some (TAccessor g' s' e') => g = g' ∧ s = s' ∧ e = e'
  | _, _ => False
  end.
Proof.
  revert ts. induction ps as [|[j [x e|g s e]] ps IH]; intros ts Hts; simpl in Hts.
  - by injection Hts as <-.
  - destruct (rec x) as [tx|] eqn:Hx; [| done].
    destruct (snapshot_props rec ps) as [ts1|]; [| done]. injection Hts as <-.
    simpl. destruct (decide (j = k)); [done | by apply IH].
  - destruct (snapshot_props rec ps) as [ts1|]; [| done]. injection Hts as <-.
    simpl. destruct (decide (j = k)); [done | by apply IH].
Qed.

Lemma snapshot_props_enumerable_keys (rec : value → option tree)
    (ps : list (string * property)) (ts : list (string * tree_property)) :
  snapshot_props rec ps = Some ts → enumerable_keys ps = tree_enumerable_keys ts.
Proof.
  unfold enumerable_keys, tree_enumerable_keys.
  revert ts. induction ps as [|[j [x e|g s e]] ps IH]; intros ts Hts; simpl in Hts.
  - by injection Hts as <-.
  - destruct (rec x), (snapshot_props rec ps) as [ts1|]; try done. injection Hts as <-.
    specialize (IH ts1 eq_refl).
    destruct e; [rewrite !filter_cons_True by done | rewrite !filter_cons_False by done];
      rewrite ?fmap_cons; by rewrite IH.
  - destruct (snapshot_props rec ps) as [ts1|]; try done. injection Hts as <-.
    specialize (IH ts1 eq_refl).
    destruct e; [rewrite !filter_cons_True by done | rewrite !filter_cons_False by done];
      rewrite ?fmap_cons; by rewrite IH.
Qed.
Lemma similar_view (h : heap) (x1 x2 : value) :
  similar h x1 x2 →
  x1 = x2
  ∨ ∃ l1 l2 o1 o2 n ts,
      x1 = VObject l1 ∧ x2 = VObject l2 ∧ h !! l1 = Some o1 ∧ h !! l2 = Some o2
      ∧ proto o1 = proto o2 ∧ n < length h
      ∧ snapshot_props (snapshot n h) (props o1) = Some ts
      ∧ snapshot_props (snapshot n h) (props o2) = Some ts.
Proof.
  intros [->|(t & H1 & H2)]; [by left |]. unfold content in *.
  destruct x1 as [| | | | |l1], x2 as [| | | | |l2];
    try (rewrite snapshot_primitive in H1 by done);
    try (rewrite snapshot_primitive in H2 by done);
    try (left; congruence);
    try (injection H1 as <-; destruct (length h); simpl in H2; [done |];
         destruct (h !! _); [| done]; destruct (snapshot_props _ _); done);
    try (injection H2 as <-; destruct (length h); simpl in H1; [done |];
         destruct (h !! _); [| done]; destruct (snapshot_props _ _); done).
  right. destruct (length h) as [|n] eqn:Hlen; [done |]. simpl in H1, H2.
  destruct (h !! l1) as [o1|] eqn:Hl1; [| done].
  destruct (h !! l2) as [o2|] eqn:Hl2; [| done].
  destruct (snapshot_props (snapshot n h) (props o1)) as [ts1|] eqn:Hs1; [| done].
  destruct (snapshot_props (snapshot n h) (props o2)) as [ts2|] eqn:Hs2; [| done].
  injection H1 as <-. injection H2 as Hp Hc ->.
  exists l1, l2, o1, o2, n, ts1. split_and!; try done. lia.
Qed.

(** Reading the same property of two values with the same content gives
    values with the same content, or fails in the same way. *)
Lemma Get_at_similar (d : nat) (h : heap) (s1 s2 : value) (k : string) :
  similar h s1 s2 →
  match Get_at d h s1 k, Get_at d h s2 k with
  | Normal a, Normal b => similar h a b
  | Throw e1, Throw e2 => e1 = e2
  | _, _ => False
  end.
Proof.
  intros Hsim. destruct (similar_view h s1 s2 Hsim)
    as [->|(l1 & l2 & o1 & o2 & n & ts & -> & -> & Hl1 & Hl2 & Hp & Hn & Hs1 & Hs2)].
  { destruct (Get_at d h s2 k); [by left | done]. }
  clear Hsim. revert k. induction d as [|d IH]; intros k; [by rewrite !Get_at_0 |].
  destruct (chain_from (length h) h (proto o1)) as [los|] eqn:Hchain; last first.
  { rewrite !Get_at_object_None; [done | |]; unfold chain; simpl.
    - by rewrite Hl2, <- Hp, Hchain.
    - by rewrite Hl1, Hchain. }
  assert (chain h (VObject l1) = Some (o1 :: los.*2)) as Hc1
    by (unfold chain; simpl; by rewrite Hl1, Hchain).
  assert (chain h (VObject l2) = Some (o2 :: los.*2)) as Hc2
    by (unfold chain; simpl; by rewrite Hl2, <- Hp, Hchain).
  rewrite (Get_at_object d h l1 k _ Hc1), (Get_at_object d h l2 k _ Hc2).
  rewrite Hl1, Hl2. simpl lookup_chain. unfold proto_value. simpl from_option.
  pose proof (snapshot_props_own (snapshot n h) (props o1) ts k Hs1) as H1.
  pose proof (snapshot_props_own (snapshot n h) (props o2) ts k Hs2) as H2.
  destruct (own k (props o1)) as [[x1 e1|g1 t1 e1]|], (own k (props o2)) as [[x2 e2|g2 t2 e2]|],
    (tree_own k ts) as [[tx e|g t e]|]; try done.
  - right. exists tx. destruct H1 as [_ H1], H2 as [_ H2].
    split; eapply snapshot_content; eauto; lia.
  - destruct H1 as (-> & -> & ->), H2 as (-> & -> & ->).
    destruct g as [[f|]|]; [apply IH | rewrite Hp; by left | by left].
  - destruct (lookup_chain k los.*2) as [[x e|[[f|]|] t e]|];
      [by left | apply IH | rewrite Hp; by left | by left | by left].
Qed.

Lemma similar_enumerable_keys (h : heap) (x1 x2 : value) :
  similar h x1 x2 →
  from_option (λ o, enumerable_keys (props o)) [] (view h x1)
  = from_option (λ o, enumerable_keys (props o)) [] (view h x2).
Proof.
  intros [->|(l1 & l2 & o1 & o2 & n & ts & -> & -> & Hl1 & Hl2 & _ & _ & Hs1 & Hs2)]%similar_view;
    [done |].
  simpl. rewrite Hl1, Hl2. simpl.
  by rewrite (snapshot_props_enumerable_keys _ _ _ Hs1),
    (snapshot_props_enumerable_keys _ _ _ Hs2).
Qed.

Lemma similar_input_keys (h : heap) (s1 s2 : value) (field : string) :
  similar h s1 s2 → input_keys h s1 field = input_keys h s2 field.
Proof.
  intros Hsim. unfold input_keys, Get.
  pose proof (Get_at_similar stack_limit h s1 s2 field Hsim) as HG.
  destruct (Get_at stack_limit h s1 field), (Get_at stack_limit h s2 field); try done.
  by apply similar_enumerable_keys.
Qed.
(** ** Instances made between two heaps *)

Lemma entries_of_table (h : heap) (l : loc) (ps : list (string * property)) :
  h !! l = Some (table_object ps) → entries_of h (VObject l) = ps.*2.
Proof. unfold entries_of. simpl. by intros ->. Qed.

Section Two_runs.

Variable MetadataEnum : constructor.
Variable MetadataClass : constructor.
Hypothesis MetadataEnum_allocates_only : allocates_only MetadataEnum.
Hypothesis MetadataClass_allocates_only : allocates_only MetadataClass.
Hypothesis MetadataEnum_returns_new : returns_new MetadataEnum.
Hypothesis MetadataClass_returns_new : returns_new MetadataClass.

(** An entry made between [h] and [h'] is an instance that lies between
    them. *)
Lemma made_between (C : constructor) (h h' : heap) (p : property) :
  returns_new C → made C h h' p →
  ∃ i, p = Data (VObject i) true ∧ length h ≤ i < length h'.
Proof.
  intros Hnew (i & args & hcall & hc & -> & HC & Hl1 & Hl2).
  exists i. split; [done |]. pose proof (Hnew _ _ _ _ HC). lia.
Qed.

End Two_runs.
(** ** The defaults of an Atmosphere *)

Lemma chain_atmosphere_instance (h : heap) (l : loc) (o : object) :
  realm `prefix_of` h → h !! l = Some o → proto o = Some Atmosphere_prototype →
  chain h (VObject l) = Some [o; Atmosphere_prototype_object; Object_prototype_object].
Proof.
  intros Hpre Hl Hp.
  apply (chain_instance h l o [(Atmosphere_prototype, Atmosphere_prototype_object);
                               (Object_prototype, Object_prototype_object)]); [done.. |].
  by rewrite Hp.
Qed.

(** Assigning a new field of an Atmosphere adds it. *)
Lemma Put_atmosphere (h : heap) (l : loc) (ps : list (string * property)) (k : string)
    (v : value) :
  realm `prefix_of` h → h !! l = Some (Obj (Some Atmosphere_prototype) ps None) →
  own k ps = None → k ≠ "hasOwnProperty" → k ≠ "__proto__" →
  Put l k v h
  = (Normal (), <[l := Obj (Some Atmosphere_prototype) (ps ++ [(k, Data v true)]) None]> h, []).
Proof.
  intros Hrealm Hl Hk Hk1 Hk2.
  rewrite (Put_store l k v h _ _ Hl (chain_atmosphere_instance h l _ Hrealm Hl eq_refl)).
  - simpl. rewrite store_own_new; [done | by apply own_None].
  - simpl lookup_chain. rewrite Hk. simpl. by rewrite !decide_False by done.
Qed.

Lemma Get_atmosphere (h : heap) (l : loc) (ps : list (string * property)) (k : string)
    (x : value) (e : bool) :
  realm `prefix_of` h → h !! l = Some (Obj (Some Atmosphere_prototype) ps None) →
  own k ps = Some (Data x e) → Get h (VObject l) k = Normal x.
Proof.
  intros Hrealm Hl Hk. eapply Get_own_data; [exact Hl | | exact Hk].
  by apply chain_atmosphere_instance.
Qed.

Lemma Put_atmosphere_step (h t : heap) (ps : list (string * property)) (k : string)
    (v : value) :
  realm `prefix_of` h → own k ps = None → k ≠ "hasOwnProperty" → k ≠ "__proto__" →
  Put (length h) k v (h ++ Obj (Some Atmosphere_prototype) ps None :: t)
  = (Normal (), h ++ Obj (Some Atmosphere_prototype) (ps ++ [(k, Data v true)]) None :: t, []).
Proof.
  intros Hrealm Hk Hk1 Hk2.
  rewrite (Put_atmosphere _ _ ps) by (done || by apply prefix_app_r || apply lookup_middle).
  by rewrite insert_middle.
Qed.

(** A call of [new] either throws, or returns an instance and a heap that
    extends the heap of the call. *)
Lemma new_cases (name : string) (C : constructor) (args : list value) (h h' : heap)
    (r : completion value) (evs : list event) :
  allocates_only C → new name C args h = (r, h', evs) →
  ∃ k c, h' = h ++ k ∧ evs = [Ev name args h c]
         ∧ r = match c with Normal l => Normal (VObject l) | Throw e => Throw e end.
Proof.
  intros HC. unfold new. destruct (C args h) as [c hc] eqn:Hc. intros [= <- <- <-].
  destruct (HC _ _ _ _ Hc) as [k ->]. by exists k, c.
Qed.

Section Defaults.

Variable Cartesian2 : constructor.
Variable Cartesian3 : constructor.
Variable DynamicAtmosphereLightingType_NONE : value.
Hypothesis Cartesian2_allocates_only : allocates_only Cartesian2.
Hypothesis Cartesian3_allocates_only : allocates_only Cartesian3.

Ltac put_step H :=
  erewrite bind_step in H;
  [| apply Put_atmosphere_step; [assumption | reflexivity | done | done]];
  simpl app in H.

Ltac new_step HC H l k hc :=
  let c := fresh "c" in let es := fresh "es" in let es' := fresh "es'" in
  let a := fresh "a" in let e := fresh "e" in let Hnew := fresh "Hnew" in
  apply bind_inv in H as [(a & hc & es & es' & Hnew & H & ->)|(e & Hnew & ->)];
  apply (new_cases _ _ _ _ _ _ _ HC) in Hnew as (k & c & -> & -> & Hnew);
  [destruct c as [l|?]; [injection Hnew as -> | discriminate Hnew];
   rewrite <- app_assoc in H; simpl app in H
  |destruct c as [?|?]; [discriminate Hnew | injection Hnew as ->]].

(** C10. [new Atmosphere()] either ends with the exception of one of its four
    calls of [new Cartesian3] and [new Cartesian2], or returns a new object
    whose fields read: lightIntensity 10, rayleighScaleHeight 10000,
    mieScaleHeight 3200, mieAnisotropy 0.9, hueShift, saturationShift and
    brightnessShift 0, dynamicLighting the constant
    DynamicAtmosphereLightingType.NONE, showGroundAtmosphere true,
    lightingFadeRange the instance that [new Cartesian2(1.0e7, 2.0e7)]
    returned and nightFadeRange the instance that
    [new Cartesian2(1.0e7, 5.0e7)] returned. *)
Theorem atmosphere_defaults (h h' : heap) (r : completion value) (evs : list event) :
  realm `prefix_of` h →
  Atmosphere Cartesian2 Cartesian3 DynamicAtmosphereLightingType_NONE h = (r, h', evs) →
  (∃ e ev, r = Throw e ∧ last evs = Some ev ∧ ev_result ev = Throw e)
  ∨ (∃ this rayleigh mie lighting night h1 h2 h3 h4,
       r = Normal (VObject this) ∧ h !! this = None
       ∧ evs = [Ev "Cartesian3" [VNumber 5.5e-6; VNumber 13.0e-6; VNumber 28.4e-6] h1
                   (Normal rayleigh);
                Ev "Cartesian3" [VNumber 21e-6; VNumber 21e-6; VNumber 21e-6] h2 (Normal mie);
                Ev "Cartesian2" [VNumber 1.0e7; VNumber 2.0e7] h3 (Normal lighting);
                Ev "Cartesian2" [VNumber 1.0e7; VNumber 5.0e7] h4 (Normal night)]
       ∧ ∀ k v,
           (k, v) ∈ [("lightIntensity", VNumber 10.0);
                     ("rayleighCoefficient", VObject rayleigh);
                     ("mieCoefficient", VObject mie);
                     ("rayleighScaleHeight", VNumber 10000.0);
                     ("mieScaleHeight", VNumber 3200.0);
                     ("mieAnisotropy", VNumber 0.9);
                     ("hueShift", VNumber 0.0);
                     ("saturationShift", VNumber 0.0);
                     ("brightnessShift", VNumber 0.0);
                     ("dynamicLighting", DynamicAtmosphereLightingType_NONE);
                     ("lightingFadeRange", VObject lighting);
                     ("nightFadeRange", VObject night);
                     ("showGroundAtmosphere", VBool true)] →
           Get h' (VObject this) k = Normal v).
Proof using Cartesian2_allocates_only Cartesian3_allocates_only.
  intros Hrealm Hrun. unfold Atmosphere in Hrun.
  rewrite (bind_step _ _ h (h ++ [Obj (Some Atmosphere_prototype) [] None]) (length h))
    in Hrun by reflexivity.
  put_step Hrun.
  new_step Cartesian3_allocates_only Hrun rayleigh k1 hc1;
    [| left; by eexists _, _].
  put_step Hrun.
  new_step Cartesian3_allocates_only Hrun mie k2 hc2;
    [| left; by eexists _, _].
  do 8 put_step Hrun.
  new_step Cartesian2_allocates_only Hrun lighting k3 hc3;
    [| left; by eexists _, _].
  put_step Hrun.
  new_step Cartesian2_allocates_only Hrun night k4 hc4;
    [| left; by eexists _, _].
  do 2 put_step Hrun.
  injection Hrun as <- <- <-.
  right. eexists (length h), rayleigh, mie, lighting, night, _, _, _, _.
  split; [reflexivity |]. split; [by apply lookup_ge_None_2 |]. split; [reflexivity |].
  intros k v Hkv.
  eapply (Get_atmosphere _ _ _ k v true);
    [by apply prefix_app_r | apply lookup_middle |].
  repeat (apply elem_of_cons in Hkv as [[= -> ->]|Hkv]; [reflexivity |]).
  by apply elem_of_nil in Hkv.
Qed.

End Defaults.

(** * Concrete runs *)

(** ** The units keep the contracts *)

Lemma Enum_unit_allocates_only : allocates_only Enum_unit.
Proof.
  intros args h r h'. unfold Enum_unit.
  repeat case_match; intros [= <- <-]; (reflexivity || by apply prefix_app_r).
Qed.

Lemma Enum_unit_returns_new : returns_new Enum_unit.
Proof.
  intros args h l h'. unfold Enum_unit.
  repeat case_match; intros [= <- <-]. rewrite length_app. simpl. lia.
Qed.

Lemma Class_unit_allocates_only : allocates_only Class_unit.
Proof.
  intros args h r h'. unfold Class_unit.
  repeat case_match; intros [= <- <-]; (reflexivity || by apply prefix_app_r).
Qed.

Lemma Class_unit_returns_new : returns_new Class_unit.
Proof.
  intros args h l h'. unfold Class_unit.
  repeat case_match; intros [= <- <-]. rewrite length_app. simpl. lia.
Qed.

Lemma Cartesian_unit_allocates_only : allocates_only Cartesian_unit.
Proof. intros args h r h' [= <- <-]. by apply prefix_app_r. Qed.

Ltac by_computation := apply (bool_decide_unpack _); vm_compute; exact I.

Ltac run := vm_compute; reflexivity.

Lemma realm_prefix (objects : list object) : realm `prefix_of` realm ++ objects.
Proof. by exists objects. Qed.

Ltac field_computation :=
  first [ left; run
        | right; eexists _, _; split; [run |];
          split; [reflexivity |]; split; [eexists; run | by_computation] ].

Ltac wf_computation :=
  split; [by eexists |]; split; field_computation.

Ltac plain_computation := split; by_computation.

(** ** The properties at concrete inputs *)

(** C1. A raw schema whose enums mapping has the key [__proto__], as
    [JSON.parse] makes it from a text with that member, is well-formed, and
    the enums of the Schema constructed from it have no key: the assignment
    [enums[enumId] = ...] of the loop went to the setter of
    [Object.prototype.__proto__], which made the Enum instance the prototype
    of the table. *)
Theorem proto_key_is_omitted :
  wf_raw_schema proto_key_heap (VObject 4)
  ∧ input_keys proto_key_heap (VObject 4) "enums" = ["__proto__"]
  ∧ ∃ S E instance h' evs,
      MetadataSchema Enum_unit Class_unit (VObject 4) proto_key_heap = (Normal S, h', evs)
      ∧ Get h' S "enums" = Normal (VObject E)
      ∧ keys_of h' (VObject E) = []
      ∧ ev_result <$> evs = [Normal instance]
      ∧ h' !! E = Some (Obj (Some instance) [] None).
Proof.
  split; [wf_computation |]. split; [run |].
  eexists _, _, _, _, _. split; [run |]. repeat split; run.
Qed.


(** C4 at [null]. *)
Lemma non_object_rejected_witness :
  (∀ l, VNull ≠ VObject l)
  ∧ ∃ h', MetadataSchema Enum_unit Class_unit VNull realm
          = (Throw (InvalidArgument "schema"), h', []).
Proof.
  split; [discriminate |].
  apply (non_object_rejected Enum_unit Class_unit VNull realm). discriminate.
Defined.

(** C7 at [{}]. *)
Lemma empty_object_schema_witness :
  realm `prefix_of` empty_schema_heap
  ∧ empty_schema_heap !! 4 = Some (literal [])
  ∧ ∃ h' S C E,
      MetadataSchema Enum_unit Class_unit (VObject 4) empty_schema_heap
      = (Normal (VObject S), h', [])
      ∧ Get h' (VObject S) "classes" = Normal (VObject C) ∧ h' !! C = Some (literal [])
      ∧ Get h' (VObject S) "enums" = Normal (VObject E) ∧ h' !! E = Some (literal [])
      ∧ C ≠ E
      ∧ Get h' (VObject S) "name" = Normal VUndefined
      ∧ Get h' (VObject S) "description" = Normal VUndefined
      ∧ Get h' (VObject S) "extras" = Normal VUndefined.
Proof.
  split; [apply realm_prefix |]. split; [reflexivity |].
  apply (empty_object_schema Enum_unit Class_unit empty_schema_heap 4);
    [apply realm_prefix | reflexivity].
Defined.

(** C5 at a schema whose class refers to an
    enum that is missing: the Class unit throws, and so does the construction. *)
Lemma construction_failure_propagates_witness :
  ∃ h' evs,
    MetadataSchema Enum_unit Class_unit (VObject 4) missing_enum_heap
    = (Throw (Thrown (VString "color")), h', evs)
    ∧ Forall (genuine Enum_unit Class_unit) evs
    ∧ ∀ i ev e, evs !! i = Some ev → ev_result ev = Throw e →
        Throw (Thrown (VString "color")) = Throw (A:=value) e ∧ S i = length evs.
Proof.
  eexists _, _. split; [run |].
  eapply (construction_failure_propagates Enum_unit Class_unit (VObject 4) missing_enum_heap).
  run.
Defined.

(** X13 at the sample schema. *)
Lemma enum_calls_precede_class_calls_witness :
  ∃ r h' evs,
    realm `prefix_of` sample_heap
    ∧ MetadataSchema Enum_unit Class_unit (VObject 4) sample_heap = (r, h', evs)
    ∧ ∃ E evs_enum evs_class,
        evs = evs_enum ++ evs_class
        ∧ Forall (λ ev, ev_ctor ev = "MetadataEnum") evs_enum
        ∧ Forall (λ ev, class_call E ev ∧ ev_heap ev !! E = h' !! E) evs_class
        ∧ ∀ S, r = Normal S → Get h' S "enums" = Normal (VObject E).
Proof.
  eexists _, _, _. split; [apply realm_prefix |]. split; [run |].
  eapply (enum_calls_precede_class_calls Enum_unit Class_unit Enum_unit_allocates_only
           Class_unit_allocates_only (VObject 4) sample_heap);
    [apply realm_prefix | run].
Defined.

(** X1 at the sample schema. *)
Lemma schema_tables_have_the_input_keys_witness :
  ∃ S h' evs,
    realm `prefix_of` sample_heap
    ∧ wf_raw_schema sample_heap (VObject 4) ∧ plain_ids sample_heap (VObject 4)
    ∧ MetadataSchema Enum_unit Class_unit (VObject 4) sample_heap = (Normal S, h', evs)
    ∧ ∃ C E,
        Get h' S "classes" = Normal (VObject C)
        ∧ keys_of h' (VObject C) = input_keys sample_heap (VObject 4) "classes"
        ∧ (Get sample_heap (VObject 4) "classes" = Normal VUndefined →
           keys_of h' (VObject C) = [])
        ∧ Get h' S "enums" = Normal (VObject E)
        ∧ keys_of h' (VObject E) = input_keys sample_heap (VObject 4) "enums"
        ∧ (Get sample_heap (VObject 4) "enums" = Normal VUndefined →
           keys_of h' (VObject E) = []).
Proof.
  eexists _, _, _. split; [apply realm_prefix |]. split; [wf_computation |].
  split; [plain_computation |]. split; [run |].
  eapply (schema_tables_have_the_input_keys Enum_unit Class_unit Enum_unit_allocates_only
           Class_unit_allocates_only (VObject 4) sample_heap);
    [apply realm_prefix | wf_computation | plain_computation | run].
Defined.

(** C9 at a schema whose enums mapping inherits
    the enumerable key [ghost]. *)
Lemma only_own_properties_populate_witness :
  ∃ S h' evs,
    realm `prefix_of` inherited_key_heap
    ∧ wf_raw_schema inherited_key_heap (VObject 4)
    ∧ Get inherited_key_heap (VObject 5) "ghost" = Normal (VObject 7)
    ∧ MetadataSchema Enum_unit Class_unit (VObject 4) inherited_key_heap
      = (Normal S, h', evs)
    ∧ ∃ C E,
        Get h' S "classes" = Normal (VObject C)
        ∧ (∀ k, k ∈ keys_of h' (VObject C) →
                k ∈ input_keys inherited_key_heap (VObject 4) "classes")
        ∧ Get h' S "enums" = Normal (VObject E)
        ∧ (∀ k, k ∈ keys_of h' (VObject E) →
                k ∈ input_keys inherited_key_heap (VObject 4) "enums")
        ∧ Forall (λ ev, (ev_ctor ev = "MetadataEnum"
                         ∧ call_for_key inherited_key_heap (VObject 4) "enums" ev)
                        ∨ (ev_ctor ev = "MetadataClass"
                           ∧ call_for_key inherited_key_heap (VObject 4) "classes" ev)) evs.
Proof.
  eexists _, _, _. split; [apply realm_prefix |]. split; [wf_computation |].
  split; [run |]. split; [run |].
  eapply (only_own_properties_populate Enum_unit Class_unit Enum_unit_allocates_only
           Class_unit_allocates_only (VObject 4) inherited_key_heap);
    [apply realm_prefix | wf_computation | run].
Defined.

(** C3 at the sample schema, the caller overwriting the
    extras object and the object nested in it after the construction. *)
Lemma extras_copy_is_isolated_witness :
  ∃ S h' evs t h2,
    realm `prefix_of` sample_heap
    ∧ MetadataSchema Enum_unit Class_unit (VObject 4) sample_heap = (Normal S, h', evs)
    ∧ Get sample_heap (VObject 4) "extras" = Normal (VObject 11)
    ∧ content sample_heap (VObject 11) = Some t
    ∧ h2 = <[11 := literal [("author", VString "eve")]]> (<[12 := literal []]> h')
    ∧ ∃ copy,
        Get h' S "extras" = Normal copy ∧ content h' copy = Some t
        ∧ Get h2 S "extras" = Normal copy ∧ content h2 copy = Some t.
Proof.
  eexists _, _, _, _, _. split; [apply realm_prefix |]. split; [run |].
  split; [run |]. split; [run |]. split; [reflexivity |].
  eapply (extras_copy_is_isolated Enum_unit Class_unit Enum_unit_allocates_only
            Class_unit_allocates_only (VObject 4) sample_heap);
    [apply realm_prefix | run | run | run | by eexists | ].
  intros l Hl _. change (length sample_heap) with 13 in Hl.
  rewrite !list_lookup_insert_ne by lia. reflexivity.
Defined.

(** C10 with the constructor [Cartesian_unit] and the
    string NONE for the constant. *)
Lemma atmosphere_defaults_witness :
  ∃ h' evs,
    realm `prefix_of` realm
    ∧ Atmosphere Cartesian_unit Cartesian_unit (VString "NONE") realm
      = (Normal (VObject 4), h', evs)
    ∧ ((∃ e ev, Normal (VObject 4) = Throw e ∧ last evs = Some ev ∧ ev_result ev = Throw e)
       ∨ (∃ this rayleigh mie lighting night h1 h2 h3 h4,
            Normal (VObject 4) = Normal (VObject this) ∧ realm !! this = None
            ∧ evs = [Ev "Cartesian3" [VNumber 5.5e-6; VNumber 13.0e-6; VNumber 28.4e-6] h1
                        (Normal rayleigh);
                     Ev "Cartesian3" [VNumber 21e-6; VNumber 21e-6; VNumber 21e-6] h2
                        (Normal mie);
                     Ev "Cartesian2" [VNumber 1.0e7; VNumber 2.0e7] h3 (Normal lighting);
                     Ev "Cartesian2" [VNumber 1.0e7; VNumber 5.0e7] h4 (Normal night)]
            ∧ ∀ k v,
                (k, v) ∈ [("lightIntensity", VNumber 10.0);
                          ("rayleighCoefficient", VObject rayleigh);
                          ("mieCoefficient", VObject mie);
                          ("rayleighScaleHeight", VNumber 10000.0);
                          ("mieScaleHeight", VNumber 3200.0);
                          ("mieAnisotropy", VNumber 0.9);
                          ("hueShift", VNumber 0.0);
                          ("saturationShift", VNumber 0.0);
                          ("brightnessShift", VNumber 0.0);
                          ("dynamicLighting", VString "NONE");
                          ("lightingFadeRange", VObject lighting);
                          ("nightFadeRange", VObject night);
                          ("showGroundAtmosphere", VBool true)] →
                Get h' (VObject this) k = Normal v)).
Proof.
  eexists _, _. split; [reflexivity |]. split; [run |].
  eapply (atmosphere_defaults Cartesian_unit Cartesian_unit (VString "NONE")
            Cartesian_unit_allocates_only Cartesian_unit_allocates_only realm);
    [reflexivity | run].
Defined.

(** * More on [MetadataSchema] *)

(** ** The whole construction, as a frame *)

Section Untouched.

Variable MetadataEnum : constructor.
Variable MetadataClass : constructor.
Hypothesis MetadataEnum_allocates_only : allocates_only MetadataEnum.
Hypothesis MetadataClass_allocates_only : allocates_only MetadataClass.

Lemma keeps_MetadataSchema (n : nat) (schema : value) :
  keeps n (λ _, True) (MetadataSchema MetadataEnum MetadataClass schema).
Proof using MetadataEnum_allocates_only MetadataClass_allocates_only.
  rewrite MetadataSchema_unfold.
  apply keeps_bind_alloc. intros this Hthis.
  apply keeps_bind; [apply keeps_Check | intros _].
  apply keeps_bind_alloc. intros enums Henums.
  apply keeps_bind; [apply keeps_get | intros ?].
  apply keeps_bind; [apply keeps_for_in | intros ?].
  apply keeps_bind; [| intros _; apply keeps_after_enums; [done | by left]].
  apply keeps_for_each. intros k. apply keeps_enum_entry; [done | by left].
Qed.

Lemma MetadataSchema_prefix (schema : value) (h h' : heap) (r : completion value)
    (evs : list event) :
  MetadataSchema MetadataEnum MetadataClass schema h = (r, h', evs) →
  h `prefix_of` h' ∧ Forall (λ ev, h `prefix_of` ev_heap ev) evs.
Proof using MetadataEnum_allocates_only MetadataClass_allocates_only.
  intros Hrun.
  by eapply (keeps_prefix (length h) (λ _, True) _ h h h' r evs
               (keeps_MetadataSchema (length h) schema) Hrun).
Qed.

(** X2. [new MetadataSchema(schema)] writes to new objects only: whether it
    returns or throws, every object that existed before the call, the raw
    schema and all it refers to among them, is afterwards what it was, and
    so it is at each call of [MetadataEnum] and [MetadataClass]. *)
Theorem construction_leaves_the_heap_alone (schema : value) (h h' : heap)
    (r : completion value) (evs : list event) :
  MetadataSchema MetadataEnum MetadataClass schema h = (r, h', evs) →
  h `prefix_of` h' ∧ Forall (λ ev, h `prefix_of` ev_heap ev) evs.
Proof using MetadataEnum_allocates_only MetadataClass_allocates_only.
  apply MetadataSchema_prefix.
Qed.

End Untouched.

(** ** A failing enum *)

Section Fail_fast.

Variable MetadataEnum : constructor.
Variable MetadataClass : constructor.

Lemma emits_class_entry (schema : value) (enums classes : loc) (classId : string) :
  emits (λ ev, ev_ctor ev = "MetadataClass")
    (class_entry MetadataClass schema enums classes classId).
Proof.
  unfold class_entry, call_method.
  repeat first
    [ apply emits_bind; [| intros ?]
    | match goal with |- emits _ (if ?b then _ else _) => destruct b end
    | apply emits_new
    | apply emits_quiet; solve [eauto with quiet] ].
Qed.

Lemma emits_after_enums (schema : value) (this enums : loc) :
  emits (λ ev, ev_ctor ev = "MetadataClass") (after_enums MetadataClass schema this enums).
Proof.
  unfold after_enums.
  apply emits_bind; [apply emits_quiet; eauto with quiet | intros classes].
  apply emits_bind; [apply emits_quiet; eauto with quiet | intros schema_classes].
  apply emits_bind; [apply emits_quiet; eauto with quiet | intros classIds].
  apply emits_bind; [| intros _; apply emits_quiet, quiet_assemble].
  apply emits_for_each. intros k. apply emits_class_entry.
Qed.

Lemma faithful_enum_loop (schema : value) (enums : loc) (ks : list string) :
  faithful MetadataEnum MetadataClass (for_each ks (enum_entry MetadataEnum schema enums)).
Proof.
  unfold enum_entry, call_method.
  repeat first
    [ apply faithful_bind; [| intros ?]
    | apply faithful_for_each; intros ?
    | apply faithful_new_enum
    | match goal with |- faithful _ _ (if ?b then _ else _) => destruct b end
    | apply quiet_faithful; solve [eauto with quiet] ].
Qed.

(** X3. When a call of [MetadataEnum] throws, no [MetadataClass] is
    constructed at all: the construction of the Schema ends with the
    exception of that call, and every constructor call made was a call of
    [MetadataEnum]. *)
Theorem failing_enum_prevents_classes (schema : value) (h h' : heap)
    (r : completion value) (evs : list event) (ev : event) (e : exn) :
  MetadataSchema MetadataEnum MetadataClass schema h = (r, h', evs) →
  ev ∈ evs → ev_ctor ev = "MetadataEnum" → ev_result ev = Throw e →
  r = Throw e ∧ Forall (λ ev', ev_ctor ev' = "MetadataEnum") evs.
Proof.
  intros Hrun Hin Hctor Hres.
  split.
  { apply list_elem_of_lookup in Hin as [i Hi].
    by destruct (faithful_MetadataSchema MetadataEnum MetadataClass schema h r h' evs Hrun)
      as [_ Hf]; destruct (Hf i ev e Hi Hres). }
  rewrite MetadataSchema_unfold in Hrun.
  rewrite (bind_step _ _ h _ (length h)) in Hrun by reflexivity.
  apply bind_inv in Hrun as [(a & h1 & es & es' & H1 & Hrun & ->)|(e1 & H1 & ->)];
    unfold Check_typeOf_object, throw, ret in H1;
    [| destruct schema; simplify_eq; by apply elem_of_nil in Hin].
  assert (es = [] ∧ h1 = h ++ [Obj (Some MetadataSchema_prototype) [] None]) as [-> ->]
    by (destruct schema; by simplify_eq).
  rewrite (bind_step _ _ _ _ (length (h ++ [Obj (Some MetadataSchema_prototype) [] None])))
    in Hrun by reflexivity.
  apply bind_inv in Hrun as [(se & h2 & es2 & es2' & H2 & Hrun & ->)|(e2 & H2 & ->)];
    injection H2 as _ <- <-; [| by apply elem_of_nil in Hin].
  rewrite (bind_step _ _ _ _ (for_in_keys _ se)) in Hrun by reflexivity.
  apply bind_inv in Hrun as [([] & h3 & es3 & es3' & H3 & Hrun & ->)|(e3 & H3 & ->)].
  - exfalso. simpl in Hin. apply elem_of_app in Hin as [Hin|Hin].
    + apply list_elem_of_lookup in Hin as [i Hi].
      by destruct (faithful_enum_loop _ _ _ _ _ _ _ H3) as [_ Hf];
        destruct (Hf i ev e Hi Hres).
    + pose proof (emits_after_enums _ _ _ _ _ _ _ Hrun) as Hc.
      rewrite Forall_forall in Hc. specialize (Hc ev Hin). simpl in Hc. congruence.
  - simpl. eapply (emits_for_each (λ ev, ev_ctor ev = "MetadataEnum")); [| exact H3].
    intros k. apply emits_enum_entry.
Qed.

End Fail_fast.

(** ** A completed construction, step by step *)

Section Steps.

Variable MetadataEnum : constructor.
Variable MetadataClass : constructor.
Hypothesis MetadataEnum_allocates_only : allocates_only MetadataEnum.
Hypothesis MetadataClass_allocates_only : allocates_only MetadataClass.

(** The steps of a construction that completes: the two loops, each from
    the heap the other left, and the five assignments; with what each
    leaves alone. *)
Lemma MetadataSchema_steps (schema : value) (h h' : heap) (S : value) (evs : list event) :
  realm `prefix_of` h →
  MetadataSchema MetadataEnum MetadataClass schema h = (Normal S, h', evs) →
  ∃ l se sc h2 h4 es2 es4 name description copy,
    schema = VObject l ∧ S = VObject (length h) ∧ evs = es2 ++ es4
    ∧ Get ((h ++ [Obj (Some MetadataSchema_prototype) [] None]) ++ [literal []])
          (VObject l) "enums" = Normal se
    ∧ for_each
        (for_in_keys ((h ++ [Obj (Some MetadataSchema_prototype) [] None]) ++ [literal []]) se)
        (enum_entry MetadataEnum (VObject l) (Datatypes.S (length h)))
        ((h ++ [Obj (Some MetadataSchema_prototype) [] None]) ++ [literal []])
      = (Normal (), h2, es2)
    ∧ (h ++ [Obj (Some MetadataSchema_prototype) [] None]) `prefix_of` h2
    ∧ Datatypes.S (length h) < length h2
    ∧ Get (h2 ++ [literal []]) (VObject l) "classes" = Normal sc
    ∧ for_each (for_in_keys (h2 ++ [literal []]) sc)
        (class_entry MetadataClass (VObject l) (Datatypes.S (length h)) (length h2))
        (h2 ++ [literal []])
      = (Normal (), h4, es4)
    ∧ h2 `prefix_of` h4 ∧ length h2 < length h4
    ∧ (∀ l0, l0 ≠ length h → l0 < length h4 → h' !! l0 = h4 !! l0)
    ∧ h' !! length h
      = Some (schema_object (length h2) (Datatypes.S (length h)) name description copy)
    ∧ length h4 ≤ length h'
    ∧ (∀ n, Get h (VObject l) "name" = Normal n → name = n)
    ∧ (∀ d, Get h (VObject l) "description" = Normal d → description = d).
Proof using MetadataEnum_allocates_only MetadataClass_allocates_only.
  intros Hrealm Hrun. rewrite MetadataSchema_unfold in Hrun.
  set (this := length h) in *. set (E := Datatypes.S this).
  set (this_obj := Obj (Some MetadataSchema_prototype) [] None).
  rewrite (bind_step _ _ h _ this) in Hrun by reflexivity.
  destruct schema as [| | | | |l]; try done.
  rewrite (bind_step _ _ _ _ ()) in Hrun by reflexivity.
  rewrite (bind_step _ _ _ _ (length (h ++ [this_obj]))) in Hrun by reflexivity.
  replace (length (h ++ [this_obj])) with E in Hrun
    by (rewrite length_app; unfold E, this; simpl; lia).
  set (hb := h ++ [this_obj]) in *.
  assert (length hb = E) as Hlen_hb
    by (unfold hb; rewrite length_app; simpl; unfold E, this; lia).
  assert (h `prefix_of` hb) as Hhb by (by apply prefix_app_r).
  set (h0 := hb ++ [literal []]) in *.
  assert (length h0 = Datatypes.S E) as Hlen0
    by (unfold h0; rewrite length_app, Hlen_hb; simpl; lia).
  apply bind_Normal_inv in Hrun as (se & h1 & es1 & es1' & H1 & Hrun & ->).
  injection H1 as H1 <- <-.
  rewrite (bind_step _ _ _ _ (for_in_keys h0 se)) in Hrun by reflexivity.
  apply bind_Normal_inv in Hrun as ([] & h2 & es2 & es2' & H2 & Hrun & ->).
  assert (hb `prefix_of` h2 ∧ E < length h2) as [Hhb2 Hlen2].
  { assert (keeps E (λ _, True)
              (for_each (for_in_keys h0 se) (enum_entry MetadataEnum (VObject l) E))) as Hk.
    { apply keeps_for_each. intros k. apply keeps_enum_entry; [done | by left]. }
    split.
    - eapply (keeps_prefix E (λ _, True)); [exact Hk | exact H2 | | | | done].
      + by apply prefix_app_r.
      + unfold hb, E, this; rewrite ?length_app; simpl length; lia.
      + unfold h0, hb, E, this; rewrite ?length_app; simpl length; lia.
    - destruct (Hk h0 _ _ _ ltac:(rewrite Hlen0; lia) H2) as (Hl & _).
      rewrite Hlen0 in Hl. lia. }
  unfold after_enums in Hrun.
  rewrite (bind_step _ _ h2 _ (length h2)) in Hrun by reflexivity.
  apply bind_Normal_inv in Hrun as (sc & h3' & es3 & es3' & H3 & Hrun & ->).
  injection H3 as H3 <- <-.
  rewrite (bind_step _ _ _ _ (for_in_keys (h2 ++ [literal []]) sc)) in Hrun by reflexivity.
  apply bind_Normal_inv in Hrun as ([] & h4 & es4 & es4' & H4 & Hrun & ->).
  assert (h2 `prefix_of` h4 ∧ length h2 < length h4) as [Hh24 Hlen4].
  { assert (keeps (length h2) (λ _, True)
              (for_each (for_in_keys (h2 ++ [literal []]) sc)
                 (class_entry MetadataClass (VObject l) E (length h2)))) as Hk.
    { apply keeps_for_each. intros k. apply keeps_class_entry; [done |]. by left. }
    split.
    - eapply (keeps_prefix (length h2) (λ _, True)); [exact Hk | exact H4 | | lia | | done].
      + by apply prefix_app_r.
      + rewrite length_app. lia.
    - destruct (Hk (h2 ++ [literal []]) _ _ _ ltac:(rewrite length_app; lia) H4) as (Hl & _).
      rewrite length_app in Hl. simpl in Hl. lia. }
  assert (hb `prefix_of` h4) as Hhb4 by (by etrans).
  assert (h4 !! this = Some this_obj) as Hthis4.
  { eapply prefix_lookup_Some; [| exact Hhb4]. apply lookup_middle. }
  destruct (assemble_inv (VObject l) this E (length h2) h4 h' S es4')
    as (name & description & extras & copy & h3 & hc & -> & -> & Hh3 & HG & Hclone & ->);
    [by do 2 (etrans; [| eassumption]) | done | done |].
  assert (length h3 = length h4) as Hlen3 by (rewrite Hh3; apply length_insert).
  pose proof (lookup_lt_Some _ _ _ Hthis4) as Hlt4.
  pose proof (clone_at_prefix _ _ _ _ _ Hclone) as Hhc.
  pose proof (prefix_length _ _ Hhc) as Hlenc.
  exists l, se, sc, h2, h4, es2, es4, name, description, copy.
  rewrite app_nil_r.
  split_and!; try done.
  - intros l0 Hne Hl0. rewrite list_lookup_insert_ne by done.
    destruct (lookup_lt_is_Some_2 h4 l0 Hl0) as [o Ho]. rewrite Ho.
    eapply prefix_lookup_Some; [| exact Hhc]. rewrite Hh3.
    by rewrite list_lookup_insert_ne.
  - apply list_lookup_insert_eq. lia.
  - rewrite length_insert. lia.
  - intros n Hn. destruct (HG h) as (Hn' & _ & _);
      [by etrans | done | by eapply Get_Normal_chain | congruence].
  - intros d Hd. destruct (HG h) as (_ & Hd' & _);
      [by etrans | done | by eapply Get_Normal_chain | congruence].
Qed.

End Steps.

(** ** The instance *)

Lemma for_in_keys_keyless (h : heap) (v : value) :
  realm `prefix_of` h → keyless v → for_in_keys h v = [].
Proof.
  intros Hrealm Hv.
  pose proof (realm_chain_from h (Some Object_prototype)
                [(Object_prototype, Object_prototype_object)] Hrealm eq_refl) as Hc.
  destruct v as [| |b|x|s|l]; try done;
    unfold for_in_keys, chain, view, proto; by rewrite Hc.
Qed.

Section Instance.

Variable MetadataEnum : constructor.
Variable MetadataClass : constructor.
Hypothesis MetadataEnum_allocates_only : allocates_only MetadataEnum.
Hypothesis MetadataClass_allocates_only : allocates_only MetadataClass.

(** X4. A constructed Schema is a new object with the prototype
    [MetadataSchema.prototype] whose own properties are the five underscore
    fields, in the order of their assignments; these, and not the five
    accessors, which are not enumerable, are the keys a [for ... in] over
    the Schema visits. *)
Theorem schema_enumerates_its_fields (schema : value) (h h' : heap) (S : value)
    (evs : list event) :
  realm `prefix_of` h →
  MetadataSchema MetadataEnum MetadataClass schema h = (Normal S, h', evs) →
  ∃ this o,
    S = VObject this ∧ h !! this = None ∧ h' !! this = Some o
    ∧ proto o = Some MetadataSchema_prototype
    ∧ own_keys (props o) = schema_fields
    ∧ for_in_keys h' S = schema_fields.
Proof using MetadataEnum_allocates_only MetadataClass_allocates_only.
  intros Hrealm Hrun.
  pose proof (MetadataSchema_prefix MetadataEnum MetadataClass MetadataEnum_allocates_only
                MetadataClass_allocates_only _ _ _ _ _ Hrun) as [Hpre _].
  destruct (MetadataSchema_steps MetadataEnum MetadataClass MetadataEnum_allocates_only
              MetadataClass_allocates_only schema h h' S evs Hrealm Hrun)
    as (l & se & sc & h2 & h4 & es2 & es4 & name & description & copy & -> & -> & _ & _ & _
        & _ & _ & _ & _ & _ & _ & _ & Hthis & _).
  eexists (length h), _. split; [reflexivity |]. split; [by apply lookup_ge_None_2 |].
  split; [exact Hthis |]. split; [reflexivity |]. split; [reflexivity |].
  unfold for_in_keys.
  rewrite (chain_schema_instance h' _ _ (transitivity Hrealm Hpre) Hthis eq_refl).
  reflexivity.
Qed.

(** X5. The name and the description of a constructed Schema are the values
    the raw schema has under [name] and [description], as they are: no
    conversion and no copy (an object is passed on as the same object),
    unlike the extras. *)
Theorem name_and_description_pass_through (schema : value) (h h' : heap) (S : value)
    (evs : list event) :
  realm `prefix_of` h →
  MetadataSchema MetadataEnum MetadataClass schema h = (Normal S, h', evs) →
  (∀ name, Get h schema "name" = Normal name → Get h' S "name" = Normal name)
  ∧ (∀ description, Get h schema "description" = Normal description →
       Get h' S "description" = Normal description).
Proof using MetadataEnum_allocates_only MetadataClass_allocates_only.
  intros Hrealm Hrun.
  pose proof (MetadataSchema_prefix MetadataEnum MetadataClass MetadataEnum_allocates_only
                MetadataClass_allocates_only _ _ _ _ _ Hrun) as [Hpre _].
  destruct (MetadataSchema_steps MetadataEnum MetadataClass MetadataEnum_allocates_only
              MetadataClass_allocates_only schema h h' S evs Hrealm Hrun)
    as (l & se & sc & h2 & h4 & es2 & es4 & name & description & copy & -> & -> & _ & _ & _
        & _ & _ & _ & _ & _ & _ & _ & Hthis & _ & Hname & Hdescription).
  assert (realm `prefix_of` h') as Hrealm' by (by etrans).
  split.
  - intros n Hn. rewrite <- (Hname n Hn).
    eapply (Get_accessor h' _ _ "name" "_name" _ true);
      [exact Hrealm' | exact Hthis | reflexivity | unfold accessors; in_list
      | reflexivity | reflexivity].
  - intros d Hd. rewrite <- (Hdescription d Hd).
    eapply (Get_accessor h' _ _ "description" "_description" _ true);
      [exact Hrealm' | exact Hthis | reflexivity | unfold accessors; in_list
      | reflexivity | reflexivity].
Qed.

End Instance.

(** ** Edge cases of the loops *)

Section Edges.

Variable MetadataEnum : constructor.
Variable MetadataClass : constructor.
Hypothesis MetadataEnum_allocates_only : allocates_only MetadataEnum.
Hypothesis MetadataClass_allocates_only : allocates_only MetadataClass.

(** X6. An enum named [hasOwnProperty] cannot be constructed: when the
    enums mapping of the raw schema has an own enumerable property
    [hasOwnProperty] that is not a function (as every JSON value), the
    test [schema.enums.hasOwnProperty(enumId)] of the first round calls
    that value, and the construction throws a TypeError before any
    constructor is called. *)
Theorem own_hasOwnProperty_key_throws (l lm : loc) (m : object) (v : value) (h : heap) :
  realm `prefix_of` h →
  mapping_at h (VObject l) "enums" lm m →
  own "hasOwnProperty" (props m) = Some (Data v true) →
  (∀ lf o, v = VObject lf → h !! lf = Some o → callable o = None) →
  ∃ h', MetadataSchema MetadataEnum MetadataClass (VObject l) h = (Throw TypeError, h', []).
Proof.
  intros Hrealm (HG & Hm & [os Hos] & Hnd) Hown Hv.
  rewrite MetadataSchema_unfold.
  set (this_obj := Obj (Some MetadataSchema_prototype) [] None).
  set (h0 := (h ++ [this_obj]) ++ [literal []]).
  assert (h `prefix_of` h0) as Hpre by (by do 2 apply prefix_app_r).
  rewrite (bind_step _ _ h _ (length h)) by reflexivity.
  rewrite (bind_step _ _ _ _ ()) by reflexivity.
  rewrite (bind_step _ _ _ _ (length (h ++ [this_obj]))) by reflexivity.
  rewrite (bind_step _ _ h0 h0 (VObject lm))
    by (unfold get, read; by rewrite (Get_prefix _ _ _ _ _ HG Hpre)).
  rewrite (bind_step _ _ h0 h0 (for_in_keys h0 (VObject lm))) by reflexivity.
  exists h0. apply bind_throw.
  assert (chain h0 (VObject lm) = Some os) as Hos0 by (by eapply chain_prefix).
  assert (h0 !! lm = Some m) as Hm0 by (by eapply prefix_lookup_Some).
  assert (∃ k ks, for_in_keys h0 (VObject lm) = k :: ks) as (k & ks & ->).
  { pose proof (for_in_own_keys h0 (VObject lm) m Hm0 (mk_is_Some _ _ Hos0)) as Hf.
    destruct (for_in_keys h0 (VObject lm)) as [|k ks]; [| by eexists _, _].
    exfalso. simpl in Hf.
    assert ("hasOwnProperty" ∈ enumerable_keys (props m)) as Hin.
    { clear -Hown. unfold enumerable_keys.
      induction (props m) as [|[k p] ps IH]; [done |]. simpl in Hown.
      destruct (decide (k = "hasOwnProperty")) as [->|Hne].
      - injection Hown as ->. rewrite filter_cons_True by done. by left.
      - destruct (decide (enumerable p = true)).
        + rewrite filter_cons_True by done. right. auto.
        + rewrite filter_cons_False by done. auto. }
    rewrite <- Hf in Hin. by apply elem_of_nil in Hin. }
  simpl for_each. apply bind_throw. unfold enum_entry.
  rewrite (bind_step _ _ h0 h0 (VObject lm))
    by (unfold get, read; by rewrite (Get_prefix _ _ _ _ _ HG Hpre)).
  apply bind_throw. unfold call_method.
  rewrite (bind_step _ _ h0 h0 v)
    by (unfold get, read; by rewrite (Get_own_data h0 lm m os _ v true Hm0 Hos0 Hown)).
  unfold read. f_equal. f_equal. unfold Call.
  destruct v as [| | | | |lf]; try reflexivity.
  destruct (h0 !! lf) as [o|] eqn:Ho; [| reflexivity]. simpl.
  assert (callable o = None) as ->; [| reflexivity].
  destruct (h !! lf) as [o'|] eqn:Ho'.
  - rewrite (prefix_lookup_Some _ _ _ _ Ho' Hpre) in Ho. injection Ho as <-.
    by eapply Hv.
  - apply lookup_ge_None_1 in Ho'. unfold h0 in Ho.
    rewrite <- app_assoc in Ho. rewrite lookup_app_r in Ho by done.
    destruct (lf - length h) as [|[|n]]; simpl in Ho; by simplify_eq.
Qed.

(** X7. A field [enums] or [classes] that is null, a boolean or a number
    is taken for an absent one: the loop over it has no round, so no
    instance is constructed from it, and the table of the Schema is an
    empty object. *)
Theorem keyless_fields_give_empty_tables (schema : value) (h h' : heap) (S : value)
    (evs : list event) :
  realm `prefix_of` h →
  MetadataSchema MetadataEnum MetadataClass schema h = (Normal S, h', evs) →
  (∀ v, Get h schema "enums" = Normal v → keyless v →
     Forall (λ ev, ev_ctor ev = "MetadataClass") evs
     ∧ ∃ E, Get h' S "enums" = Normal (VObject E) ∧ h' !! E = Some (literal []))
  ∧ (∀ v, Get h schema "classes" = Normal v → keyless v →
       Forall (λ ev, ev_ctor ev = "MetadataEnum") evs
       ∧ ∃ C, Get h' S "classes" = Normal (VObject C) ∧ h' !! C = Some (literal [])).
Proof using MetadataEnum_allocates_only MetadataClass_allocates_only.
  intros Hrealm Hrun.
  pose proof (MetadataSchema_prefix MetadataEnum MetadataClass MetadataEnum_allocates_only
                MetadataClass_allocates_only _ _ _ _ _ Hrun) as [Hpre _].
  destruct (MetadataSchema_steps MetadataEnum MetadataClass MetadataEnum_allocates_only
              MetadataClass_allocates_only schema h h' S evs Hrealm Hrun)
    as (l & se & sc & h2 & h4 & es2 & es4 & name & description & copy & -> & -> & -> & Hse
        & H2 & Hhb2 & Hlen2 & Hsc & H4 & Hh24 & Hlen4 & Hkeep & Hthis & Hlen' & _).
  assert (realm `prefix_of` h') as Hrealm' by (by etrans).
  set (hb := h ++ [Obj (Some MetadataSchema_prototype) [] None]) in *.
  assert (h `prefix_of` hb) as Hhb by (by apply prefix_app_r).
  assert (Forall (λ ev, ev_ctor ev = "MetadataEnum") es2) as Hes2.
  { eapply (emits_for_each (λ ev, ev_ctor ev = "MetadataEnum")); [| exact H2].
    intros k. apply emits_enum_entry. }
  assert (Forall (λ ev, ev_ctor ev = "MetadataClass") es4) as Hes4.
  { eapply (emits_for_each (λ ev, ev_ctor ev = "MetadataClass")); [| exact H4].
    intros k. apply emits_class_entry. }
  split.
  - intros v Hv Hkeyless.
    rewrite (Get_prefix h (hb ++ [literal []]) _ _ _ Hv) in Hse
      by (by do 2 apply prefix_app_r).
    injection Hse as <-.
    rewrite for_in_keys_keyless in H2
      by (done || (etrans; [exact Hrealm |]; by do 2 apply prefix_app_r)).
    injection H2 as <- <-.
    split; [done |]. exists (Datatypes.S (length h)). split.
    + eapply (Get_accessor h' _ _ "enums" "_enums" _ true);
        [exact Hrealm' | exact Hthis | reflexivity | unfold accessors; in_list
        | reflexivity | reflexivity].
    + rewrite Hkeep by lia.
      eapply prefix_lookup_Some; [| exact Hh24].
      replace (Datatypes.S (length h)) with (length hb)
        by (unfold hb; rewrite length_app; simpl; lia).
      apply lookup_middle.
  - intros v Hv Hkeyless.
    assert (h `prefix_of` h2 ++ [literal []]) as Hh2
      by (apply prefix_app_r; by etrans).
    rewrite (Get_prefix h (h2 ++ [literal []]) _ _ _ Hv Hh2) in Hsc.
    injection Hsc as <-.
    rewrite for_in_keys_keyless in H4 by (done || (etrans; [exact Hrealm | exact Hh2])).
    injection H4 as <- <-.
    split; [by rewrite app_nil_r |]. exists (length h2). split.
    + eapply (Get_accessor h' _ _ "classes" "_classes" _ true);
        [exact Hrealm' | exact Hthis | reflexivity | unfold accessors; in_list
        | reflexivity | reflexivity].
    + rewrite Hkeep.
      * apply lookup_middle.
      * pose proof (prefix_length _ _ Hhb2). unfold hb in *.
        rewrite length_app in *. simpl in *. lia.
      * rewrite length_app. simpl. lia.
Qed.

End Edges.

(** ** The entries of the tables *)

Lemma own_app_fresh (k : string) (p : property) (ps rest : list (string * property)) :
  k ∉ own_keys ps → own k (ps ++ (k, p) :: rest) = Some p.
Proof.
  unfold own_keys. induction ps as [|[k' q] ps IH]; simpl.
  - intros _. by rewrite decide_True.
  - rewrite not_elem_of_cons. intros [Hne Hnin].
    destruct (decide (k' = k)); [congruence | auto].
Qed.

Section Entries.

Variable C : constructor.
Variables (name field key : string) (more : list (string * value)).
Variables (schema mapping : value) (m : object) (table : loc).
Variable hb : heap.
Hypothesis C_allocates_only : allocates_only C.
Hypothesis schema_field : Get hb schema field = Normal mapping.
Hypothesis mapping_view : view hb mapping = Some m.
Hypothesis mapping_chain : is_Some (chain hb mapping).
Hypothesis table_above : length hb ≤ table.
Hypothesis realm_below : realm `prefix_of` hb.

(** When the table is a plain object, no own key of the mapping is
    [__proto__] and the loop completes: there was one constructor call for
    each own key of the mapping among the keys, in their order, with the
    definition under that key, and the table has got the instance it
    returned under that key. *)
Lemma table_loop_entries (ks : list string) (h h' : heap) (ps : list (string * property))
    (evs : list event) :
  hb `prefix_of` h → h !! table = Some (Obj (Some Object_prototype) ps None) →
  NoDup (own_keys ps ++ filter (λ k, is_Some (own k (props m))) ks) →
  "__proto__" ∉ filter (λ k, is_Some (own k (props m))) ks →
  for_each ks (table_entry C name field key more schema table) h = (Normal (), h', evs) →
  ∃ rest,
    h' !! table = Some (Obj (Some Object_prototype) (ps ++ rest) None)
    ∧ Forall2 (λ k ev, ∃ definition hcall instance,
                 Get hb mapping k = Normal definition ∧ hb `prefix_of` hcall
                 ∧ ev = Ev name [VObject (length hcall)]
                          (hcall ++ [literal (("id", VString k) :: (key, definition) :: more)])
                          (Normal instance)
                 ∧ own k (ps ++ rest) = Some (Data (VObject instance) true))
        (filter (λ k, is_Some (own k (props m))) ks) evs.
Proof using C_allocates_only schema_field mapping_view mapping_chain table_above
  realm_below.
  revert h ps evs. induction ks as [|k ks IH]; intros h ps evs Hpre Ho Hnd Hproto.
  - intros [= <- <-]. exists []. rewrite app_nil_r. split; [done | constructor].
  - simpl for_each.
    intros (a & h1 & es & es' & H1 & H2 & ->)%bind_Normal_inv. destruct a.
    apply (table_entry_cases C name field key more schema mapping m table hb
             schema_field mapping_view mapping_chain k h h1 _ es Hpre) in H1
      as [(Hnone & _ & -> & ->)|[(e & [=] & _)|(Hown & d & rc & hc & Hd & HC & Hrc)]].
    + rewrite filter_cons_False in Hnd, Hproto |- *
        by (rewrite Hnone; by apply is_Some_None).
      by apply (IH h ps es').
    + rewrite filter_cons_True in Hnd, Hproto |- * by done.
      destruct rc as [li|e]; [| by destruct Hrc as ([=] & _)].
      destruct Hrc as (es0 & HP & ->).
      pose proof (C_allocates_only _ _ _ _ HC) as Hhc.
      assert (hb `prefix_of` hc) as Hpre_c
        by (etrans; [| exact Hhc]; by apply prefix_app_r).
      assert (hc !! table = Some (Obj (Some Object_prototype) ps None)) as Ho_c.
      { eapply prefix_lookup_Some; [| exact Hhc]. by apply lookup_app_l_Some. }
      assert (k ∉ own_keys ps) as Hfresh.
      { apply NoDup_app in Hnd as (_ & Hdis & _). intros Hin.
        apply (Hdis k Hin). by left. }
      assert (k ≠ "__proto__") as Hk.
      { intros ->. apply Hproto. by left. }
      rewrite (Put_store table k (VObject li) hc _
                 [Obj (Some Object_prototype) ps None; Object_prototype_object] Ho_c) in HP.
      2: { apply chain_plain_object; [by etrans | done | done]. }
      2: { simpl lookup_chain. rewrite (proj2 (own_None k ps) Hfresh).
           destruct (decide ("hasOwnProperty" = k)); [done |].
           by rewrite decide_False by done. }
      injection HP as <- <-. simpl in H2. rewrite store_own_new in H2 by done.
      destruct (IH (<[table := Obj (Some Object_prototype)
                                 (ps ++ [(k, Data (VObject li) true)]) None]> hc)
                   (ps ++ [(k, Data (VObject li) true)]) es')
        as (rest & Ho' & Hall); [| | | | exact H2 |].
      * by apply prefix_insert_above.
      * apply list_lookup_insert_eq. by eapply lookup_lt_Some.
      * unfold own_keys in *. rewrite fmap_app, <- app_assoc. done.
      * intros Hin. apply Hproto. by right.
      * rewrite <- app_assoc in Ho', Hall. simpl in Ho', Hall.
        exists ((k, Data (VObject li) true) :: rest). split; [done |].
        simpl. constructor; [| done].
        exists d, h, li. split; [done |]. split; [done |]. split; [done |].
        by apply own_app_fresh.
Qed.

End Entries.

(** A whole pass, with its entries. *)
Lemma table_pass_entries (C : constructor) (name field key : string)
    (more : list (string * value)) (schema : value) (table : loc) (hb h h' : heap)
    (mv : value) (evs : list event) :
  allocates_only C → realm `prefix_of` hb → hb `prefix_of` h → length hb ≤ table →
  field_ok hb schema field → "__proto__" ∉ input_keys hb schema field →
  h !! table = Some (literal []) →
  Get h schema field = Normal mv →
  for_each (for_in_keys h mv) (table_entry C name field key more schema table) h
  = (Normal (), h', evs) →
  ∃ ps, h' !! table = Some (Obj (Some Object_prototype) ps None)
    ∧ Forall2 (λ k ev, ∃ definition hcall instance,
                 Get hb mv k = Normal definition ∧ hb `prefix_of` hcall
                 ∧ ev = Ev name [VObject (length hcall)]
                          (hcall ++ [literal (("id", VString k) :: (key, definition) :: more)])
                          (Normal instance)
                 ∧ own k ps = Some (Data (VObject instance) true))
        (input_keys hb schema field) evs.
Proof.
  intros HC Hrealm Hpre Htable [HG|(lm & m & Hm)] Hproto Ht Hmv Hrun.
  - rewrite (Get_prefix hb h _ _ _ HG Hpre) in Hmv. injection Hmv as <-.
    injection Hrun as <- <-. exists []. split; [done |].
    rewrite input_keys_absent by done. constructor.
  - pose proof (mapping_at_prefix _ _ _ _ _ _ Hm Hpre) as (HG' & Hl' & Hc' & _).
    rewrite HG' in Hmv. injection Hmv as <-.
    rewrite (input_keys_mapping _ _ _ _ _ Hm) in Hproto |- *.
    destruct Hm as (HG & Hl & Hc & Hnd).
    pose proof (for_in_own_keys h (VObject lm) m Hl' Hc') as Hkeys.
    destruct (table_loop_entries C name field key more schema (VObject lm) m table hb
                HC HG Hl Hc Htable Hrealm (for_in_keys h (VObject lm)) h h' [] evs)
      as (ps & Hps & Hall); try done.
    + rewrite Hkeys. simpl. by apply NoDup_enumerable_keys.
    + by rewrite Hkeys.
    + exists ps. split; [done |]. by rewrite Hkeys in Hall.
Qed.

Section Tables.

Variable MetadataEnum : constructor.
Variable MetadataClass : constructor.
Hypothesis MetadataEnum_allocates_only : allocates_only MetadataEnum.
Hypothesis MetadataClass_allocates_only : allocates_only MetadataClass.

(** X8. For every well-formed raw schema without the identifier
    [__proto__], a construction that completes has made exactly one
    constructor call for each key of the enums mapping, in the order of the
    keys, and after these one for each key of the classes mapping, in their
    order. The call for a key got a new object holding the key under [id]
    and, under [enum] or [class], the very definition the raw schema has
    under the key (for a class also the enum table under [enums]); and the
    table of the Schema holds under the key the instance that call
    returned. *)
Theorem tables_hold_the_constructed_instances (schema : value) (h h' : heap) (S : value)
    (evs : list event) :
  realm `prefix_of` h → wf_raw_schema h schema → plain_ids h schema →
  MetadataSchema MetadataEnum MetadataClass schema h = (Normal S, h', evs) →
  ∃ C E enum_calls class_calls,
    evs = enum_calls ++ class_calls
    ∧ Get h' S "enums" = Normal (VObject E)
    ∧ Get h' S "classes" = Normal (VObject C)
    ∧ Forall2 (entry_of h schema "MetadataEnum" "enums" "enum" [] h' E)
        (input_keys h schema "enums") enum_calls
    ∧ Forall2 (entry_of h schema "MetadataClass" "classes" "class" [("enums", VObject E)]
                 h' C)
        (input_keys h schema "classes") class_calls.
Proof using MetadataEnum_allocates_only MetadataClass_allocates_only.
  intros Hrealm Hwf [Hpe Hpc] Hrun.
  pose proof (MetadataSchema_prefix MetadataEnum MetadataClass MetadataEnum_allocates_only
                MetadataClass_allocates_only _ _ _ _ _ Hrun) as [Hpre _].
  destruct (MetadataSchema_steps MetadataEnum MetadataClass MetadataEnum_allocates_only
              MetadataClass_allocates_only schema h h' S evs Hrealm Hrun)
    as (l & se & sc & h2 & h4 & es2 & es4 & name & description & copy & -> & -> & -> & Hse
        & H2 & Hhb2 & Hlen2 & Hsc & H4 & Hh24 & Hlen4 & Hkeep & Hthis & Hlen' & _).
  destruct Hwf as (_ & Hfe & Hfc).
  assert (realm `prefix_of` h') as Hrealm' by (by etrans).
  set (this_obj := Obj (Some MetadataSchema_prototype) [] None) in *.
  set (hb := h ++ [this_obj]) in *.
  set (E := Datatypes.S (length h)) in *.
  assert (length hb = E) as Hlen_hb by (unfold hb, E; rewrite length_app; simpl; lia).
  assert (h `prefix_of` hb) as Hhb by (by apply prefix_app_r).
  assert (h `prefix_of` h2) as Hh2 by (by etrans).
  assert (length h ≤ length h2) as Hlenh2 by (by apply prefix_length).
  destruct (table_pass_entries MetadataEnum "MetadataEnum" "enums" "enum" [] (VObject l) E
              h (hb ++ [literal []]) h2 se es2) as (eps & Heps & Hecalls); try done.
  { by apply prefix_app_r. }
  { unfold E. lia. }
  { rewrite <- Hlen_hb. apply lookup_middle. }
  destruct (table_pass_entries MetadataClass "MetadataClass" "classes" "class"
              [("enums", VObject E)] (VObject l) (length h2) h (h2 ++ [literal []]) h4 sc es4)
    as (cps & Hcps & Hccalls); try done.
  { by apply prefix_app_r. }
  { apply lookup_middle. }
  assert (h' !! E = Some (Obj (Some Object_prototype) eps None)) as HE.
  { rewrite Hkeep by (unfold E; lia). by eapply prefix_lookup_Some. }
  assert (h' !! length h2 = Some (Obj (Some Object_prototype) cps None)) as HC.
  { rewrite Hkeep by (unfold E in *; lia). done. }
  assert (∀ field mv k d, field_ok h (VObject l) field →
            Get (if decide (field = "enums") then hb ++ [literal []] else h2 ++ [literal []])
                (VObject l) field = Normal mv →
            Get h mv k = Normal d →
            ∃ mapping, Get h (VObject l) field = Normal mapping ∧ Get h mapping k = Normal d)
    as Hfield.
  { intros field mv k d Hok Hmv Hd.
    assert (∃ x, Get h (VObject l) field = Normal x) as [x Hx]
      by (destruct Hok as [?|(lm & m & ? & _)]; by eexists).
    exists x. split; [done |].
    rewrite (Get_prefix h _ _ _ _ Hx) in Hmv; [by injection Hmv as -> |].
    destruct (decide (field = "enums")); apply prefix_app_r; [done | by etrans]. }
  exists (length h2), E, es2, es4. split; [done |]. split.
  { eapply (Get_accessor h' _ _ "enums" "_enums" _ true);
      [exact Hrealm' | exact Hthis | reflexivity | unfold accessors; in_list
      | reflexivity | reflexivity]. }
  split.
  { eapply (Get_accessor h' _ _ "classes" "_classes" _ true);
      [exact Hrealm' | exact Hthis | reflexivity | unfold accessors; in_list
      | reflexivity | reflexivity]. }
  split.
  - eapply Forall2_impl; [exact Hecalls |].
    intros k ev (d & hcall & instance & Hd & Hcall & -> & Hown).
    destruct (Hfield "enums" se k d Hfe Hse Hd) as (mapping & Hm & Hmk).
    exists mapping, d, (length hcall), instance.
    split; [done |]. split; [done |]. split; [done |]. split; [done |].
    split; [apply lookup_ge_None_2; by apply prefix_length |].
    split; [apply lookup_middle |]. split; [done |].
    by eapply (Get_plain_data h' E _ k _ true Hrealm' HE).
  - eapply Forall2_impl; [exact Hccalls |].
    intros k ev (d & hcall & instance & Hd & Hcall & -> & Hown).
    destruct (Hfield "classes" sc k d Hfc Hsc Hd) as (mapping & Hm & Hmk).
    exists mapping, d, (length hcall), instance.
    split; [done |]. split; [done |]. split; [done |]. split; [done |].
    split; [apply lookup_ge_None_2; by apply prefix_length |].
    split; [apply lookup_middle |]. split; [done |].
    by eapply (Get_plain_data h' (length h2) _ k _ true Hrealm' HC).
Qed.

End Tables.

(** * More on [Atmosphere] *)

Lemma new_Normal_inv (name : string) (C : constructor) (args : list value) (h h' : heap)
    (v : value) (evs : list event) :
  allocates_only C → new name C args h = (Normal v, h', evs) →
  ∃ l k, v = VObject l ∧ h' = h ++ k ∧ C args h = (Normal l, h ++ k).
Proof.
  intros HC. unfold new. destruct (C args h) as [[l|e] hc] eqn:Hc; intros [= <- <- <-].
  destruct (HC _ _ _ _ Hc) as [k ->]. by exists l, k.
Qed.

Section Settings.

Variable Cartesian2 : constructor.
Variable Cartesian3 : constructor.
Variable DynamicAtmosphereLightingType_NONE : value.
Hypothesis Cartesian2_allocates_only : allocates_only Cartesian2.
Hypothesis Cartesian3_allocates_only : allocates_only Cartesian3.

Ltac put_step H :=
  erewrite bind_step in H;
  [| apply Put_atmosphere_step; [assumption | reflexivity | done | done]];
  simpl app in H.

Ltac new_step HC H l k Hcall :=
  let es := fresh "es" in let es' := fresh "es'" in
  let a := fresh "a" in let hc := fresh "hc" in let Hnew := fresh "Hnew" in
  apply bind_Normal_inv in H as (a & hc & es & es' & Hnew & H & ->);
  apply (new_Normal_inv _ _ _ _ _ _ _ HC) in Hnew as (l & k & -> & -> & Hcall);
  rewrite <- app_assoc in H; simpl app in H.

(** The steps of a construction that completes: the instance, with its
    thirteen fields, and the four constructor calls, each later than the
    one before. *)
Lemma Atmosphere_steps (h h' : heap) (S : value) (evs : list event) :
  realm `prefix_of` h →
  Atmosphere Cartesian2 Cartesian3 DynamicAtmosphereLightingType_NONE h = (Normal S, h', evs) →
  ∃ rayleigh mie lighting night t h1 k1 h2 k2 h3 k3 h4 k4,
    S = VObject (length h)
    ∧ h' = h ++ Obj (Some Atmosphere_prototype)
                  [("lightIntensity", Data (VNumber 10.0) true);
                   ("rayleighCoefficient", Data (VObject rayleigh) true);
                   ("mieCoefficient", Data (VObject mie) true);
                   ("rayleighScaleHeight", Data (VNumber 10000.0) true);
                   ("mieScaleHeight", Data (VNumber 3200.0) true);
                   ("mieAnisotropy", Data (VNumber 0.9) true);
                   ("hueShift", Data (VNumber 0.0) true);
                   ("saturationShift", Data (VNumber 0.0) true);
                   ("brightnessShift", Data (VNumber 0.0) true);
                   ("dynamicLighting", Data DynamicAtmosphereLightingType_NONE true);
                   ("lightingFadeRange", Data (VObject lighting) true);
                   ("nightFadeRange", Data (VObject night) true);
                   ("showGroundAtmosphere", Data (VBool true) true)] None :: t
    ∧ Cartesian3 [VNumber 5.5e-6; VNumber 13.0e-6; VNumber 28.4e-6] h1
      = (Normal rayleigh, h1 ++ k1)
    ∧ Cartesian3 [VNumber 21e-6; VNumber 21e-6; VNumber 21e-6] h2 = (Normal mie, h2 ++ k2)
    ∧ Cartesian2 [VNumber 1.0e7; VNumber 2.0e7] h3 = (Normal lighting, h3 ++ k3)
    ∧ Cartesian2 [VNumber 1.0e7; VNumber 5.0e7] h4 = (Normal night, h4 ++ k4)
    ∧ length h < length h1 ∧ length (h1 ++ k1) = length h2
    ∧ length (h2 ++ k2) = length h3 ∧ length (h3 ++ k3) = length h4
    ∧ length (h4 ++ k4) = length h'.
Proof using Cartesian2_allocates_only Cartesian3_allocates_only.
  intros Hrealm Hrun. unfold Atmosphere in Hrun.
  rewrite (bind_step _ _ h (h ++ [Obj (Some Atmosphere_prototype) [] None]) (length h))
    in Hrun by reflexivity.
  put_step Hrun.
  new_step Cartesian3_allocates_only Hrun rayleigh k1 Hcall1.
  put_step Hrun.
  new_step Cartesian3_allocates_only Hrun mie k2 Hcall2.
  do 8 put_step Hrun.
  new_step Cartesian2_allocates_only Hrun lighting k3 Hcall3.
  put_step Hrun.
  new_step Cartesian2_allocates_only Hrun night k4 Hcall4.
  do 2 put_step Hrun.
  injection Hrun as <- <- <-.
  eexists rayleigh, mie, lighting, night, _, _, k1, _, k2, _, k3, _, k4.
  split; [reflexivity |]. split; [reflexivity |].
  split; [exact Hcall1 |]. split; [exact Hcall2 |].
  split; [exact Hcall3 |]. split; [exact Hcall4 |].
  rewrite !length_app. simpl. rewrite !length_app. simpl. lia.
Qed.

(** X9. The settings of an Atmosphere are ordinary fields: an assignment to
    any of the thirteen succeeds, the field then reads as the value
    assigned, and the other twelve read as before. *)
Theorem atmosphere_settings_are_writable (h h' : heap) (S : value) (evs : list event)
    (f : string) (v : value) :
  realm `prefix_of` h →
  Atmosphere Cartesian2 Cartesian3 DynamicAtmosphereLightingType_NONE h = (Normal S, h', evs) →
  f ∈ atmosphere_fields →
  ∃ this h2,
    S = VObject this
    ∧ Put this f v h' = (Normal (), h2, [])
    ∧ Get h2 S f = Normal v
    ∧ ∀ g, g ∈ atmosphere_fields → g ≠ f → Get h2 S g = Get h' S g.
Proof using Cartesian2_allocates_only Cartesian3_allocates_only.
  intros Hrealm Hrun Hf.
  destruct (Atmosphere_steps h h' S evs Hrealm Hrun)
    as (rayleigh & mie & lighting & night & t & h1 & k1 & h2 & k2 & h3 & k3 & h4 & k4
        & -> & -> & _).
  set (ps := [("lightIntensity", Data (VNumber 10.0) true);
              ("rayleighCoefficient", Data (VObject rayleigh) true);
              ("mieCoefficient", Data (VObject mie) true);
              ("rayleighScaleHeight", Data (VNumber 10000.0) true);
              ("mieScaleHeight", Data (VNumber 3200.0) true);
              ("mieAnisotropy", Data (VNumber 0.9) true);
              ("hueShift", Data (VNumber 0.0) true);
              ("saturationShift", Data (VNumber 0.0) true);
              ("brightnessShift", Data (VNumber 0.0) true);
              ("dynamicLighting", Data DynamicAtmosphereLightingType_NONE true);
              ("lightingFadeRange", Data (VObject lighting) true);
              ("nightFadeRange", Data (VObject night) true);
              ("showGroundAtmosphere", Data (VBool true) true)]).
  set (o := Obj (Some Atmosphere_prototype) ps None).
  assert (realm `prefix_of` h ++ o :: t) as Hrealm' by (by apply prefix_app_r).
  assert ((h ++ o :: t) !! length h = Some o) as Ho by apply lookup_middle.
  assert (own_keys ps = atmosphere_fields) as Hkeys by reflexivity.
  assert (∃ x, own f ps = Some (Data x true)) as [x Hx].
  { repeat (apply elem_of_cons in Hf as [->|Hf]; [by eexists |]).
    by apply elem_of_nil in Hf. }
  exists (length h), (h ++ Obj (Some Atmosphere_prototype) (store_own f v ps) None :: t).
  split; [reflexivity |]. split.
  { rewrite (Put_store (length h) f v (h ++ o :: t) o
               [o; Atmosphere_prototype_object; Object_prototype_object] Ho).
    - by rewrite insert_middle.
    - by apply chain_atmosphere_instance.
    - change (lookup_chain f [o; Atmosphere_prototype_object; Object_prototype_object])
        with (match own f ps with
              | Some p => Some p
              | None => lookup_chain f [Atmosphere_prototype_object; Object_prototype_object]
              end).
      by rewrite Hx. }
  assert (realm `prefix_of` h ++ Obj (Some Atmosphere_prototype) (store_own f v ps) None :: t)
    as Hrealm2 by (by apply prefix_app_r).
  split.
  - eapply (Get_atmosphere _ _ _ f v true); [exact Hrealm2 | apply lookup_middle |].
    clear -Hx. induction ps as [|[k p] ps IH]; [done |]. simpl in *.
    destruct (decide (k = f)) as [->|Hne]; simpl.
    + rewrite decide_True by done. by injection Hx as ->.
    + rewrite decide_False by done. auto.
  - intros g Hg Hne.
    assert (∃ y, own g ps = Some (Data y true)) as [y Hy].
    { repeat (apply elem_of_cons in Hg as [->|Hg]; [by eexists |]).
      by apply elem_of_nil in Hg. }
    rewrite (Get_atmosphere _ _ _ g y true Hrealm' Ho Hy).
    eapply (Get_atmosphere _ _ _ g y true); [exact Hrealm2 | apply lookup_middle |].
    clear -Hy Hne. induction ps as [|[k p] ps IH]; [done |]. simpl in *.
    destruct (decide (k = f)) as [->|Hnf]; simpl.
    + rewrite decide_False in Hy |- * by done. done.
    + destruct (decide (k = g)); [done | auto].
Qed.

Hypothesis Cartesian2_returns_new : returns_new Cartesian2.
Hypothesis Cartesian3_returns_new : returns_new Cartesian3.

(** X10. Every Atmosphere has vectors of its own: the instance and the four
    objects under [rayleighCoefficient], [mieCoefficient],
    [lightingFadeRange] and [nightFadeRange] are five different objects,
    all of them new, and no object that existed before the construction is
    changed by it. So two Atmospheres never share a vector. *)
Theorem atmosphere_vectors_are_its_own (h h' : heap) (S : value) (evs : list event) :
  realm `prefix_of` h →
  Atmosphere Cartesian2 Cartesian3 DynamicAtmosphereLightingType_NONE h = (Normal S, h', evs) →
  h `prefix_of` h'
  ∧ ∃ this rayleigh mie lighting night,
      S = VObject this
      ∧ Get h' S "rayleighCoefficient" = Normal (VObject rayleigh)
      ∧ Get h' S "mieCoefficient" = Normal (VObject mie)
      ∧ Get h' S "lightingFadeRange" = Normal (VObject lighting)
      ∧ Get h' S "nightFadeRange" = Normal (VObject night)
      ∧ NoDup [this; rayleigh; mie; lighting; night]
      ∧ Forall (λ l, length h ≤ l < length h') [this; rayleigh; mie; lighting; night].
Proof using Cartesian2_allocates_only Cartesian3_allocates_only Cartesian2_returns_new
  Cartesian3_returns_new.
  intros Hrealm Hrun.
  destruct (Atmosphere_steps h h' S evs Hrealm Hrun)
    as (rayleigh & mie & lighting & night & t & h1 & k1 & h2 & k2 & h3 & k3 & h4 & k4
        & -> & -> & Hc1 & Hc2 & Hc3 & Hc4 & Hl1 & Hl2 & Hl3 & Hl4 & Hl5).
  apply Cartesian3_returns_new in Hc1, Hc2. apply Cartesian2_returns_new in Hc3, Hc4.
  split; [by apply prefix_app_r |].
  exists (length h), rayleigh, mie, lighting, night.
  split; [reflexivity |].
  match goal with
  | |- context [h ++ Obj (Some Atmosphere_prototype) ?ps None :: t] =>
      assert (∀ k x, own k ps = Some (Data x true) →
                Get (h ++ Obj (Some Atmosphere_prototype) ps None :: t)
                    (VObject (length h)) k = Normal x) as HG
  end.
  { intros k x Hk. eapply (Get_atmosphere _ _ _ k x true);
      [by apply prefix_app_r | apply lookup_middle | exact Hk]. }
  split; [by apply HG |]. split; [by apply HG |].
  split; [by apply HG |]. split; [by apply HG |].
  clear HG Hrun. rewrite !length_app in *. simpl length in *.
  split.
  - repeat (apply NoDup_cons; split;
            [rewrite ?not_elem_of_cons; split_and?; try apply not_elem_of_nil; lia |]).
    apply NoDup_nil_2.
  - repeat (apply Forall_cons; split; [lia |]). apply Forall_nil_2.
Qed.

End Settings.

(** ** The identifier [__proto__] *)

Lemma set_prototype_cases (l : loc) (v : value) (h h' : heap) (r : completion unit)
    (evs : list event) :
  set_prototype l v h = (r, h', evs) →
  h' = h ∨ ∃ o p, h !! l = Some o ∧ h' = <[l := Obj p (props o) (callable o)]> h.
Proof.
  unfold set_prototype. destruct (h !! l) as [o|]; [| intros [= _ <- _]; by left].
  destruct v as [| | | | |l']; try (intros [= _ <- _]; by left).
  - intros [= _ <- _]. right. by exists o, None.
  - destruct (chain_from _ _ _) as [los|]; [| intros [= _ <- _]; by left].
    case_bool_decide; intros [= _ <- _]; [by left |].
    right. by exists o, (Some l').
Qed.

Lemma store_own_data (k : string) (v : value) (ps : list (string * property)) :
  Forall (λ kp, ∃ x e, kp.2 = Data x e) ps →
  Forall (λ kp, ∃ x e, kp.2 = Data x e) (store_own k v ps).
Proof.
  induction 1 as [|[k' p] ps Hp Hps IH]; simpl.
  - repeat constructor. by eexists _, _.
  - destruct (decide (k' = k)).
    + constructor; [| done]. destruct p; by eexists _, _.
    + by constructor.
Qed.

Lemma own_data (k : string) (ps : list (string * property)) (p : property) :
  Forall (λ kp, ∃ x e, kp.2 = Data x e) ps → own k ps = Some p → ∃ x e, p = Data x e.
Proof.
  induction 1 as [|[k' q] ps Hq Hps IH]; simpl; [done |].
  destruct (decide (k' = k)); [by intros [= <-] | done].
Qed.

Section Proto_key.

Variable C : constructor.
Variables (name field key : string) (more : list (string * value)).
Variables (schema mapping : value) (m : object) (table : loc).
Variable hb : heap.
Hypothesis C_allocates_only : allocates_only C.
Hypothesis schema_field : Get hb schema field = Normal mapping.
Hypothesis mapping_view : view hb mapping = Some m.
Hypothesis mapping_chain : is_Some (chain hb mapping).
Hypothesis table_above : length hb ≤ table.
Hypothesis realm_below : realm `prefix_of` hb.

(** A loop that completes never gives the table an own property
    [__proto__]: when the round for that key comes, the table still is a
    plain object, and the assignment goes to the setter it inherits. *)
Lemma table_loop_proto (ks : list string) (h h' : heap) (p : option loc)
    (ps : list (string * property)) (evs : list event) :
  hb `prefix_of` h → h !! table = Some (Obj p ps None) →
  Forall (λ kp, ∃ x e, kp.2 = Data x e) ps → "__proto__" ∉ own_keys ps →
  p = Some Object_prototype ∨ "__proto__" ∉ filter (λ k, is_Some (own k (props m))) ks →
  NoDup (filter (λ k, is_Some (own k (props m))) ks) →
  for_each ks (table_entry C name field key more schema table) h = (Normal (), h', evs) →
  ∃ p' ps', h' !! table = Some (Obj p' ps' None) ∧ "__proto__" ∉ own_keys ps'.
Proof using C_allocates_only schema_field mapping_view mapping_chain table_above
  realm_below.
  revert h p ps evs. induction ks as [|k ks IH]; intros h p ps evs Hpre Ho Hdata Hno Hp Hnd.
  - intros [= <- <-]. by exists p, ps.
  - simpl for_each.
    intros (a & h1 & es & es' & H1 & H2 & ->)%bind_Normal_inv. destruct a.
    apply (table_entry_cases C name field key more schema mapping m table hb
             schema_field mapping_view mapping_chain k h h1 _ es Hpre) in H1
      as [(Hnone & _ & -> & ->)|[(e & [=] & _)|(Hown & d & rc & hc & Hd & HC & Hrc)]].
    + rewrite filter_cons_False in Hnd, Hp by (rewrite Hnone; by apply is_Some_None).
      by apply (IH h p ps es').
    + rewrite filter_cons_True in Hnd, Hp by done.
      apply NoDup_cons in Hnd as [Hk Hnd].
      destruct rc as [li|e]; [| by destruct Hrc as ([=] & _)].
      destruct Hrc as (es0 & HP & ->).
      pose proof (C_allocates_only _ _ _ _ HC) as Hhc.
      assert (hb `prefix_of` hc) as Hpre_c
        by (etrans; [| exact Hhc]; by apply prefix_app_r).
      assert (hc !! table = Some (Obj p ps None)) as Ho_c.
      { eapply prefix_lookup_Some; [| exact Hhc]. by apply lookup_app_l_Some. }
      pose proof (Put_prefix hb _ _ _ _ _ _ _ HP Hpre_c table_above) as Hpre1.
      pose proof (lookup_lt_Some _ _ _ Ho_c) as Hlt.
      destruct (decide (k = "__proto__")) as [->|Hne].
      * destruct Hp as [->|Hp]; [| exfalso; apply Hp; by left].
        unfold Put in HP. rewrite Ho_c in HP.
        rewrite (chain_plain_object hc table _ (transitivity realm_below Hpre_c) Ho_c eq_refl)
          in HP.
        simpl lookup_chain in HP. rewrite (proj2 (own_None _ ps) Hno) in HP. simpl in HP.
        apply set_prototype_cases in HP as [->|(o & p' & Ho' & ->)].
        -- refine (IH _ (Some Object_prototype) ps es' _ _ _ _ _ _ H2); auto.
        -- rewrite Ho_c in Ho'. injection Ho' as <-. simpl in *.
           refine (IH _ p' ps es' _ _ _ _ _ _ H2); auto.
           by apply list_lookup_insert_eq.
      * assert ("__proto__" ∉ own_keys (store_own k (VObject li) ps)) as Hno'.
        { rewrite own_keys_store_own. intros [?|?]; [congruence | done]. }
        destruct Hp as [->|Hp].
        -- rewrite (Put_store table k (VObject li) hc _
                      [Obj (Some Object_prototype) ps None; Object_prototype_object] Ho_c)
             in HP.
           2: { apply chain_plain_object; [by etrans | done | done]. }
           2: { simpl lookup_chain. destruct (own k ps) as [q|] eqn:Hq.
                - by destruct (own_data k ps q Hdata Hq) as (x & e & ->).
                - simpl. destruct (decide ("hasOwnProperty" = k)); [done |].
                  by rewrite decide_False by done. }
           injection HP as <- <-. simpl in H2.
           refine (IH _ (Some Object_prototype) (store_own k (VObject li) ps) es'
                     _ _ _ _ _ _ H2); auto.
           ++ by apply list_lookup_insert_eq.
           ++ by apply store_own_data.
        -- assert ("__proto__" ∉ filter (λ k, is_Some (own k (props m))) ks) as Hp'.
           { intros Hin. apply Hp. by right. }
           apply Put_cases in HP as [_ [->|(o & o' & Ho' & -> & _ & Hcall & Hprops)]].
           ++ refine (IH _ p ps es' _ _ _ _ _ _ H2); auto.
           ++ rewrite Ho_c in Ho'. injection Ho' as <-. simpl in *.
              destruct o' as [p' ps' c']. simpl in *. subst c'.
              refine (IH _ p' ps' es' _ _ _ _ _ _ H2); auto.
              ** by apply list_lookup_insert_eq.
              ** destruct Hprops as [->|[_ ->]]; [done | by apply store_own_data].
              ** destruct Hprops as [->|[_ ->]]; done.
Qed.

End Proto_key.

Lemma table_pass_proto (C : constructor) (name field key : string)
    (more : list (string * value)) (schema : value) (table : loc) (hb h h' : heap)
    (mv : value) (evs : list event) :
  allocates_only C → realm `prefix_of` hb → hb `prefix_of` h → length hb ≤ table →
  field_ok hb schema field →
  h !! table = Some (literal []) →
  Get h schema field = Normal mv →
  for_each (for_in_keys h mv) (table_entry C name field key more schema table) h
  = (Normal (), h', evs) →
  ∃ p ps, h' !! table = Some (Obj p ps None) ∧ "__proto__" ∉ own_keys ps.
Proof.
  intros HC Hrealm Hpre Htable [HG|(lm & m & Hm)] Ht Hmv Hrun.
  - rewrite (Get_prefix hb h _ _ _ HG Hpre) in Hmv. injection Hmv as <-.
    injection Hrun as <- <-. exists (Some Object_prototype), []. split; [done |].
    apply not_elem_of_nil.
  - pose proof (mapping_at_prefix _ _ _ _ _ _ Hm Hpre) as (HG' & Hl' & Hc' & _).
    rewrite HG' in Hmv. injection Hmv as <-.
    destruct Hm as (HG & Hl & Hc & Hnd).
    pose proof (for_in_own_keys h (VObject lm) m Hl' Hc') as Hkeys.
    apply (table_loop_proto C name field key more schema (VObject lm) m table hb
             HC HG Hl Hc Htable Hrealm (for_in_keys h (VObject lm)) h h'
             (Some Object_prototype) [] evs); try done.
    + apply not_elem_of_nil.
    + by left.
    + rewrite Hkeys. by apply NoDup_enumerable_keys.
Qed.

Section Proto_identifier.

Variable MetadataEnum : constructor.
Variable MetadataClass : constructor.
Hypothesis MetadataEnum_allocates_only : allocates_only MetadataEnum.
Hypothesis MetadataClass_allocates_only : allocates_only MetadataClass.

(** X11. No table of a Schema ever has the key [__proto__]: for every
    well-formed raw schema, whatever the constructors return, neither the
    enums nor the classes of the constructed Schema have an own property
    [__proto__]. So for every raw schema with an enum or a class of that
    name, the keys of the table differ from the keys of the input
    mapping. *)
Theorem proto_identifier_never_becomes_a_key (schema : value) (h h' : heap) (S : value)
    (evs : list event) :
  realm `prefix_of` h → wf_raw_schema h schema →
  MetadataSchema MetadataEnum MetadataClass schema h = (Normal S, h', evs) →
  ∃ C E,
    Get h' S "enums" = Normal (VObject E)
    ∧ Get h' S "classes" = Normal (VObject C)
    ∧ ("__proto__" ∉ keys_of h' (VObject E))
    ∧ ("__proto__" ∉ keys_of h' (VObject C))
    ∧ ("__proto__" ∈ input_keys h schema "enums" →
       keys_of h' (VObject E) ≠ input_keys h schema "enums")
    ∧ ("__proto__" ∈ input_keys h schema "classes" →
       keys_of h' (VObject C) ≠ input_keys h schema "classes").
Proof using MetadataEnum_allocates_only MetadataClass_allocates_only.
  intros Hrealm Hwf Hrun.
  pose proof (MetadataSchema_prefix MetadataEnum MetadataClass MetadataEnum_allocates_only
                MetadataClass_allocates_only _ _ _ _ _ Hrun) as [Hpre _].
  destruct (MetadataSchema_steps MetadataEnum MetadataClass MetadataEnum_allocates_only
              MetadataClass_allocates_only schema h h' S evs Hrealm Hrun)
    as (l & se & sc & h2 & h4 & es2 & es4 & name & description & copy & -> & -> & -> & Hse
        & H2 & Hhb2 & Hlen2 & Hsc & H4 & Hh24 & Hlen4 & Hkeep & Hthis & Hlen' & _).
  destruct Hwf as (_ & Hfe & Hfc).
  assert (realm `prefix_of` h') as Hrealm' by (by etrans).
  set (this_obj := Obj (Some MetadataSchema_prototype) [] None) in *.
  set (hb := h ++ [this_obj]) in *.
  set (E := Datatypes.S (length h)) in *.
  assert (length hb = E) as Hlen_hb by (unfold hb, E; rewrite length_app; simpl; lia).
  assert (h `prefix_of` hb) as Hhb by (by apply prefix_app_r).
  assert (h `prefix_of` h2) as Hh2 by (by etrans).
  assert (length h ≤ length h2) as Hlenh2 by (by apply prefix_length).
  destruct (table_pass_proto MetadataEnum "MetadataEnum" "enums" "enum" [] (VObject l) E
              h (hb ++ [literal []]) h2 se es2) as (pe & eps & Heps & Hekeys); try done.
  { by apply prefix_app_r. }
  { unfold E. lia. }
  { rewrite <- Hlen_hb. apply lookup_middle. }
  destruct (table_pass_proto MetadataClass "MetadataClass" "classes" "class"
              [("enums", VObject E)] (VObject l) (length h2) h (h2 ++ [literal []]) h4 sc es4)
    as (pc & cps & Hcps & Hckeys); try done.
  { by apply prefix_app_r. }
  { apply lookup_middle. }
  assert (h' !! E = Some (Obj pe eps None)) as HE.
  { rewrite Hkeep by (unfold E; lia). by eapply prefix_lookup_Some. }
  assert (h' !! length h2 = Some (Obj pc cps None)) as HC.
  { rewrite Hkeep by (unfold E in *; lia). done. }
  assert (keys_of h' (VObject E) = own_keys eps) as HkE
    by (unfold keys_of; simpl; by rewrite HE).
  assert (keys_of h' (VObject (length h2)) = own_keys cps) as HkC
    by (unfold keys_of; simpl; by rewrite HC).
  exists (length h2), E. rewrite HkE, HkC. split_and!; try done.
  - eapply (Get_accessor h' _ _ "enums" "_enums" _ true);
      [exact Hrealm' | exact Hthis | reflexivity | unfold accessors; in_list
      | reflexivity | reflexivity].
  - eapply (Get_accessor h' _ _ "classes" "_classes" _ true);
      [exact Hrealm' | exact Hthis | reflexivity | unfold accessors; in_list
      | reflexivity | reflexivity].
  - intros Hin Heq. rewrite <- Heq in Hin. done.
  - intros Hin Heq. rewrite <- Heq in Hin. done.
Qed.

End Proto_identifier.

(** * The further properties at concrete inputs *)

Lemma Cartesian_unit_returns_new : returns_new Cartesian_unit.
Proof. intros args h l h' [= <- <-]. rewrite length_app. simpl. lia. Qed.

Lemma Failing_unit_allocates_only : allocates_only Failing_unit.
Proof. by intros args h r h' [= <- <-]. Qed.

(** X2 at the sample schema. *)
Lemma construction_leaves_the_heap_alone_witness :
  ∃ r h' evs,
    MetadataSchema Enum_unit Class_unit (VObject 4) sample_heap = (r, h', evs)
    ∧ sample_heap `prefix_of` h'
    ∧ Forall (λ ev, sample_heap `prefix_of` ev_heap ev) evs.
Proof.
  eexists _, _, _. split; [run |].
  eapply (construction_leaves_the_heap_alone Enum_unit Class_unit Enum_unit_allocates_only
            Class_unit_allocates_only (VObject 4) sample_heap).
  run.
Defined.

(** X3 at the sample schema with a [MetadataEnum] that throws. *)
Lemma failing_enum_prevents_classes_witness :
  ∃ h' ev,
    MetadataSchema Failing_unit Class_unit (VObject 4) sample_heap
    = (Throw (Thrown (VString "invalid")), h', [ev])
    ∧ ev ∈ [ev] ∧ ev_ctor ev = "MetadataEnum"
    ∧ ev_result ev = Throw (Thrown (VString "invalid"))
    ∧ Throw (A:=value) (Thrown (VString "invalid")) = Throw (Thrown (VString "invalid"))
    ∧ Forall (λ ev', ev_ctor ev' = "MetadataEnum") [ev].
Proof.
  eexists _, _. split; [run |]. split; [by left |]. split; [reflexivity |].
  split; [reflexivity |].
  eapply (failing_enum_prevents_classes Failing_unit Class_unit (VObject 4) sample_heap);
    [run | by left | reflexivity | reflexivity].
Defined.

(** X4 at the sample schema. *)
Lemma schema_enumerates_its_fields_witness :
  ∃ S h' evs,
    realm `prefix_of` sample_heap
    ∧ MetadataSchema Enum_unit Class_unit (VObject 4) sample_heap = (Normal S, h', evs)
    ∧ ∃ this o,
        S = VObject this ∧ sample_heap !! this = None ∧ h' !! this = Some o
        ∧ proto o = Some MetadataSchema_prototype
        ∧ own_keys (props o) = schema_fields
        ∧ for_in_keys h' S = schema_fields.
Proof.
  eexists _, _, _. split; [apply realm_prefix |]. split; [run |].
  eapply (schema_enumerates_its_fields Enum_unit Class_unit Enum_unit_allocates_only
            Class_unit_allocates_only (VObject 4) sample_heap);
    [apply realm_prefix | run].
Defined.

(** X5 at the sample schema. *)
Lemma name_and_description_pass_through_witness :
  ∃ S h' evs,
    realm `prefix_of` sample_heap
    ∧ MetadataSchema Enum_unit Class_unit (VObject 4) sample_heap = (Normal S, h', evs)
    ∧ Get sample_heap (VObject 4) "name" = Normal (VString "city")
    ∧ Get sample_heap (VObject 4) "description" = Normal (VString "a city block")
    ∧ (∀ name, Get sample_heap (VObject 4) "name" = Normal name →
         Get h' S "name" = Normal name)
    ∧ (∀ description, Get sample_heap (VObject 4) "description" = Normal description →
         Get h' S "description" = Normal description).
Proof.
  eexists _, _, _. split; [apply realm_prefix |]. split; [run |].
  split; [run |]. split; [run |].
  eapply (name_and_description_pass_through Enum_unit Class_unit Enum_unit_allocates_only
            Class_unit_allocates_only (VObject 4) sample_heap);
    [apply realm_prefix | run].
Defined.

(** X6 at a schema with an enum named [hasOwnProperty]. *)
Lemma own_hasOwnProperty_key_throws_witness :
  realm `prefix_of` shadowing_heap
  ∧ mapping_at shadowing_heap (VObject 4) "enums" 5 (literal [("hasOwnProperty", VObject 6)])
  ∧ own "hasOwnProperty" (props (literal [("hasOwnProperty", VObject 6)]))
    = Some (Data (VObject 6) true)
  ∧ ∃ h', MetadataSchema Enum_unit Class_unit (VObject 4) shadowing_heap
          = (Throw TypeError, h', []).
Proof.
  assert (mapping_at shadowing_heap (VObject 4) "enums" 5
            (literal [("hasOwnProperty", VObject 6)])) as Hm.
  { split; [run |]. split; [reflexivity |]. split; [eexists; run | by_computation]. }
  split; [apply realm_prefix |]. split; [exact Hm |]. split; [reflexivity |].
  eapply (own_hasOwnProperty_key_throws Enum_unit Class_unit 4 5 _ (VObject 6)
            shadowing_heap (realm_prefix _) Hm eq_refl).
  intros lf o [= <-] [= <-]. reflexivity.
Defined.

(** X7 at [{ enums: null, classes: 3 }]. *)
Lemma keyless_fields_give_empty_tables_witness :
  ∃ S h' evs,
    realm `prefix_of` keyless_heap
    ∧ MetadataSchema Enum_unit Class_unit (VObject 4) keyless_heap = (Normal S, h', evs)
    ∧ Get keyless_heap (VObject 4) "enums" = Normal VNull ∧ keyless VNull
    ∧ Get keyless_heap (VObject 4) "classes" = Normal (VNumber 3) ∧ keyless (VNumber 3)
    ∧ (∀ v, Get keyless_heap (VObject 4) "enums" = Normal v → keyless v →
         Forall (λ ev, ev_ctor ev = "MetadataClass") evs
         ∧ ∃ E, Get h' S "enums" = Normal (VObject E) ∧ h' !! E = Some (literal []))
    ∧ (∀ v, Get keyless_heap (VObject 4) "classes" = Normal v → keyless v →
         Forall (λ ev, ev_ctor ev = "MetadataEnum") evs
         ∧ ∃ C, Get h' S "classes" = Normal (VObject C) ∧ h' !! C = Some (literal [])).
Proof.
  eexists _, _, _. split; [apply realm_prefix |]. split; [run |].
  split; [run |]. split; [exact I |]. split; [run |]. split; [exact I |].
  eapply (keyless_fields_give_empty_tables Enum_unit Class_unit Enum_unit_allocates_only
            Class_unit_allocates_only (VObject 4) keyless_heap);
    [apply realm_prefix | run].
Defined.

(** X8 at the sample schema. *)
Lemma tables_hold_the_constructed_instances_witness :
  ∃ S h' evs,
    realm `prefix_of` sample_heap
    ∧ wf_raw_schema sample_heap (VObject 4) ∧ plain_ids sample_heap (VObject 4)
    ∧ MetadataSchema Enum_unit Class_unit (VObject 4) sample_heap = (Normal S, h', evs)
    ∧ ∃ C E enum_calls class_calls,
        evs = enum_calls ++ class_calls
        ∧ Get h' S "enums" = Normal (VObject E)
        ∧ Get h' S "classes" = Normal (VObject C)
        ∧ Forall2 (entry_of sample_heap (VObject 4) "MetadataEnum" "enums" "enum" [] h' E)
            (input_keys sample_heap (VObject 4) "enums") enum_calls
        ∧ Forall2 (entry_of sample_heap (VObject 4) "MetadataClass" "classes" "class"
                     [("enums", VObject E)] h' C)
            (input_keys sample_heap (VObject 4) "classes") class_calls.
Proof.
  eexists _, _, _. split; [apply realm_prefix |]. split; [wf_computation |].
  split; [plain_computation |]. split; [run |].
  eapply (tables_hold_the_constructed_instances Enum_unit Class_unit
            Enum_unit_allocates_only Class_unit_allocates_only (VObject 4) sample_heap);
    [apply realm_prefix | wf_computation | plain_computation | run].
Defined.

(** X9 with the constructor [Cartesian_unit], for the field [hueShift] and
    the value 0.4. *)
Lemma atmosphere_settings_are_writable_witness :
  ∃ S h' evs,
    realm `prefix_of` realm
    ∧ Atmosphere Cartesian_unit Cartesian_unit (VString "NONE") realm = (Normal S, h', evs)
    ∧ "hueShift" ∈ atmosphere_fields
    ∧ ∃ this h2,
        S = VObject this
        ∧ Put this "hueShift" (VNumber 0.4) h' = (Normal (), h2, [])
        ∧ Get h2 S "hueShift" = Normal (VNumber 0.4)
        ∧ ∀ g, g ∈ atmosphere_fields → g ≠ "hueShift" → Get h2 S g = Get h' S g.
Proof.
  eexists _, _, _. split; [reflexivity |]. split; [run |].
  split; [unfold atmosphere_fields; in_list |].
  eapply (atmosphere_settings_are_writable Cartesian_unit Cartesian_unit (VString "NONE")
            Cartesian_unit_allocates_only Cartesian_unit_allocates_only realm);
    [reflexivity | run | unfold atmosphere_fields; in_list].
Defined.

(** X10 with the constructor [Cartesian_unit]. *)
Lemma atmosphere_vectors_are_its_own_witness :
  ∃ S h' evs,
    realm `prefix_of` realm
    ∧ Atmosphere Cartesian_unit Cartesian_unit (VString "NONE") realm = (Normal S, h', evs)
    ∧ realm `prefix_of` h'
    ∧ ∃ this rayleigh mie lighting night,
        S = VObject this
        ∧ Get h' S "rayleighCoefficient" = Normal (VObject rayleigh)
        ∧ Get h' S "mieCoefficient" = Normal (VObject mie)
        ∧ Get h' S "lightingFadeRange" = Normal (VObject lighting)
        ∧ Get h' S "nightFadeRange" = Normal (VObject night)
        ∧ NoDup [this; rayleigh; mie; lighting; night]
        ∧ Forall (λ l, length realm ≤ l < length h') [this; rayleigh; mie; lighting; night].
Proof.
  eexists _, _, _. split; [reflexivity |]. split; [run |].
  eapply (atmosphere_vectors_are_its_own Cartesian_unit Cartesian_unit (VString "NONE")
            Cartesian_unit_allocates_only Cartesian_unit_allocates_only
            Cartesian_unit_returns_new Cartesian_unit_returns_new realm);
    [reflexivity | run].
Defined.

(** X11 at the schema with an enum named [__proto__]. *)
Lemma proto_identifier_never_becomes_a_key_witness :
  ∃ S h' evs,
    realm `prefix_of` proto_key_heap
    ∧ wf_raw_schema proto_key_heap (VObject 4)
    ∧ MetadataSchema Enum_unit Class_unit (VObject 4) proto_key_heap = (Normal S, h', evs)
    ∧ "__proto__" ∈ input_keys proto_key_heap (VObject 4) "enums"
    ∧ ∃ C E,
        Get h' S "enums" = Normal (VObject E)
        ∧ Get h' S "classes" = Normal (VObject C)
        ∧ ("__proto__" ∉ keys_of h' (VObject E))
        ∧ ("__proto__" ∉ keys_of h' (VObject C))
        ∧ ("__proto__" ∈ input_keys proto_key_heap (VObject 4) "enums" →
           keys_of h' (VObject E) ≠ input_keys proto_key_heap (VObject 4) "enums")
        ∧ ("__proto__" ∈ input_keys proto_key_heap (VObject 4) "classes" →
           keys_of h' (VObject C) ≠ input_keys proto_key_heap (VObject 4) "classes").
Proof.
  eexists _, _, _. split; [apply realm_prefix |]. split; [wf_computation |].
  split; [run |]. split; [by_computation |].
  eapply (proto_identifier_never_becomes_a_key Enum_unit Class_unit
            Enum_unit_allocates_only Class_unit_allocates_only (VObject 4) proto_key_heap);
    [apply realm_prefix | wf_computation | run].
Defined.

(** * The accessors and the fields behind them *)




Section Read_only.

Variable MetadataEnum : constructor.
Variable MetadataClass : constructor.
Hypothesis MetadataEnum_allocates_only : allocates_only MetadataEnum.
Hypothesis MetadataClass_allocates_only : allocates_only MetadataClass.


End Read_only.

(** * The enum table when the classes are built *)

Section Complete.

Variable MetadataEnum : constructor.
Variable MetadataClass : constructor.
Hypothesis MetadataEnum_allocates_only : allocates_only MetadataEnum.
Hypothesis MetadataClass_allocates_only : allocates_only MetadataClass.

(** X12. For every well-formed raw schema without an enum named
    [__proto__], however the construction completes: all calls of
    [MetadataEnum] come before all calls of [MetadataClass]; and when a
    [MetadataClass] is called, one [MetadataEnum] call has been made for
    each key of the input's enums mapping, in their order, each with the
    definition under that key, and the table that the class is given under
    [enums] holds, under each of these keys, the instance that call
    returned: the complete enum table. That table is what [schema.enums]
    returns when the construction completes. *)
Theorem classes_get_the_complete_enum_table (schema : value) (h h' : heap)
    (r : completion value) (evs : list event) :
  realm `prefix_of` h → wf_raw_schema h schema →
  "__proto__" ∉ input_keys h schema "enums" →
  MetadataSchema MetadataEnum MetadataClass schema h = (r, h', evs) →
  ∃ E enum_calls class_calls,
    evs = enum_calls ++ class_calls
    ∧ Forall (λ ev, ev_ctor ev = "MetadataEnum") enum_calls
    ∧ Forall (λ ev, class_call E ev
                    ∧ Forall2 (entry_of h schema "MetadataEnum" "enums" "enum" []
                                 (ev_heap ev) E)
                        (input_keys h schema "enums") enum_calls)
        class_calls
    ∧ ∀ S, r = Normal S →
        Get h' S "enums" = Normal (VObject E)
        ∧ Forall2 (entry_of h schema "MetadataEnum" "enums" "enum" [] h' E)
            (input_keys h schema "enums") enum_calls.
Proof using MetadataEnum_allocates_only MetadataClass_allocates_only.
  intros Hrealm ([l ->] & Hfe & _) Hproto Hrun.
  pose proof (MetadataSchema_prefix MetadataEnum MetadataClass MetadataEnum_allocates_only
                MetadataClass_allocates_only _ _ _ _ _ Hrun) as [Hpre Hpre_evs].
  rewrite MetadataSchema_unfold in Hrun.
  set (this := length h) in *. set (E := S this). exists E.
  set (this_obj := Obj (Some MetadataSchema_prototype) [] None) in *.
  rewrite (bind_step _ _ h _ this) in Hrun by reflexivity.
  rewrite (bind_step _ _ _ _ ()) in Hrun by reflexivity.
  rewrite (bind_step _ _ _ _ (length (h ++ [this_obj]))) in Hrun by reflexivity.
  replace (length (h ++ [this_obj])) with E in Hrun
    by (rewrite length_app; unfold E, this; simpl; lia).
  set (h0 := (h ++ [this_obj]) ++ [literal []]) in *.
  assert (h `prefix_of` h0) as Hh0 by (by do 2 apply prefix_app_r).
  assert (length h0 = S (S this)) as Hlen0
    by (unfold h0; rewrite !length_app; unfold this; simpl; lia).
  assert (∃ se, Get h (VObject l) "enums" = Normal se) as [se Hse]
    by (destruct Hfe as [?|(lm & m & ? & _)]; by eexists).
  rewrite (bind_step _ _ h0 h0 se) in Hrun
    by (unfold get, read; by rewrite (Get_prefix _ _ _ _ _ Hse Hh0)).
  rewrite (bind_step _ _ _ _ (for_in_keys h0 se)) in Hrun by reflexivity.
  assert (keeps (S this) (λ _, True)
            (for_each (for_in_keys h0 se) (enum_entry MetadataEnum (VObject l) E))) as Hk.
  { apply keeps_for_each. intros k. apply keeps_enum_entry; [done |]. left. unfold E. lia. }
  assert (emits (λ ev, ev_ctor ev = "MetadataEnum")
            (for_each (for_in_keys h0 se) (enum_entry MetadataEnum (VObject l) E))) as Hem.
  { apply emits_for_each. intros k. apply emits_enum_entry. }
  apply bind_inv in Hrun as [([] & h2 & es2 & es2' & H2 & Hrun & ->)|(e & H2 & ->)];
    last first.
  { exists evs, []. split; [by rewrite app_nil_r |]. split; [by eapply Hem |].
    split; [constructor | done]. }
  exists es2, es2'. split; [done |]. split; [by eapply Hem |].
  destruct (Hk h0 _ _ _ ltac:(lia) H2) as (Hlen2 & Hsame2 & _).
  assert (realm `prefix_of` h2) as Hrealm2.
  { eapply (keeps_prefix (S this) (λ _, True)); [exact Hk | exact H2 | | | lia | done].
    - by etrans.
    - pose proof (prefix_length _ _ Hrealm). unfold this. lia. }
  assert (h2 !! this = Some this_obj) as Hthis2.
  { rewrite Hsame2 by (auto; lia). unfold h0. rewrite <- app_assoc. apply lookup_middle. }
  destruct (table_pass_entries MetadataEnum "MetadataEnum" "enums" "enum" [] (VObject l) E
              h h0 h2 se es2) as (eps & Heps & Hcalls); try done.
  { unfold E, this. lia. }
  { unfold h0. replace E with (length (h ++ [this_obj]))
      by (rewrite length_app; unfold E, this; simpl; lia).
    apply lookup_middle. }
  { by eapply Get_prefix. }
  assert (∀ hx, realm `prefix_of` hx → hx !! E = h2 !! E →
            Forall2 (entry_of h (VObject l) "MetadataEnum" "enums" "enum" [] hx E)
              (input_keys h (VObject l) "enums") es2) as Hentries.
  { intros hx Hrealmx HEx. rewrite Heps in HEx.
    eapply Forall2_impl; [exact Hcalls |].
    intros k ev (d & hcall & instance & Hd & Hcall & -> & Hown).
    exists se, d, (length hcall), instance.
    split; [done |]. split; [done |]. split; [done |]. split; [done |].
    split; [apply lookup_ge_None_2; by apply prefix_length |].
    split; [apply lookup_middle |]. split; [done |].
    by eapply (Get_plain_data hx E _ k _ true Hrealmx HEx). }
  destruct (keeps_after_enums MetadataClass MetadataClass_allocates_only
              (length h2) (λ l, l ≠ this) (VObject l) this E
              ltac:(right; auto) h2 r h' es2' ltac:(lia) Hrun)
    as (_ & Hfin & Hevs).
  split.
  - apply Forall_forall. intros ev Hev. split.
    + eapply Forall_forall in Hev; [exact Hev |]. by eapply after_enums_events.
    + apply Hentries.
      * etrans; [exact Hrealm |]. rewrite Forall_forall in Hpre_evs.
        apply Hpre_evs. apply elem_of_app. by right.
      * eapply Forall_forall in Hevs as [_ Hev']; [| exact Hev].
        apply Hev'; unfold E; lia.
  - intros S0 ->.
    destruct (after_enums_Normal MetadataClass MetadataClass_allocates_only (VObject l) this E
                h2 h' S0 es2' Hrealm2 Hthis2 Hrun)
      as (-> & Hrealm' & C & n & d & x & Hs).
    split.
    + by eapply (Get_accessor h' this _ "enums" "_enums" _ true);
        [done | exact Hs | done | unfold accessors; in_list | |].
    + apply Hentries; [done |]. apply Hfin; unfold E; lia.
Qed.

End Complete.

(** * Tables of whatever prototype *)

Lemma set_prototype_object_inv (l l' : loc) (h h' : heap) (evs : list event) :
  set_prototype l (VObject l') h = (Normal (), h', evs) →
  ∃ o los, h !! l = Some o ∧ chain_from (length h) h (Some l') = Some los
           ∧ (l ∉ los.*1) ∧ h' = <[l := Obj (Some l') (props o) (callable o)]> h.
Proof.
  unfold set_prototype. destruct (h !! l) as [o|]; [| done].
  destruct (chain_from _ _ _) as [los|]; [| done].
  case_bool_decide; [done |]. intros [= <- _]. by exists o, los.
Qed.

Lemma chain_from_keep (h h' : heap) (p : option loc) (los : list (loc * object)) :
  chain_from (length h) h p = Some los → length h ≤ length h' →
  (∀ l, l ∈ los.*1 → h' !! l = h !! l) →
  chain_from (length h') h' p = Some los.
Proof.
  intros Hc Hlen Hsame. eapply chain_from_ext; [exact Hc | exact Hlen |].
  intros l o Hin. rewrite Hsame.
  - by eapply chain_from_lookup.
  - apply list_elem_of_fmap. by exists (l, o).
Qed.

Lemma NoDup_app_cons_drop {A} (l k : list A) (x : A) :
  NoDup (l ++ x :: k) → NoDup (l ++ k) ∧ x ∉ k.
Proof.
  rewrite !NoDup_app, NoDup_cons. intros (Hl & Hdis & Hx & Hk).
  split; [| done]. split; [done |]. split; [| done].
  intros y Hy Hin. apply (Hdis y Hy). by right.
Qed.

Section Any_table.

Variable C : constructor.
Variables (name field key : string) (more : list (string * value)).
Variables (schema mapping : value) (m : object) (table : loc).
Variable hb : heap.
Hypothesis C_allocates_only : allocates_only C.
Hypothesis C_no_setter : instances_inherit_no_setter C.
Hypothesis schema_field : Get hb schema field = Normal mapping.
Hypothesis mapping_view : view hb mapping = Some m.
Hypothesis mapping_chain : is_Some (chain hb mapping).
Hypothesis table_above : length hb ≤ table.
Hypothesis realm_below : realm `prefix_of` hb.

(** A loop that completes, whatever the keys: the table has got one entry
    for each own key of the mapping among the keys other than [__proto__],
    in their order. The round for [__proto__] finds the table a plain
    object and makes the instance its prototype; in the rounds after it the
    table inherits from an instance, and from it no setter. *)
Lemma table_loop_any (ks : list string) (h h' : heap) (p : option loc)
    (ps : list (string * property)) (evs : list event) :
  hb `prefix_of` h → h !! table = Some (Obj p ps None) →
  NoDup (own_keys ps ++ filter (λ k, is_Some (own k (props m))) ks) →
  "__proto__" ∉ own_keys ps →
  (p = Some Object_prototype
   ∨ (("__proto__" ∉ filter (λ k, is_Some (own k (props m))) ks)
      ∧ ∃ los, chain_from (length h) h p = Some los ∧ (table ∉ los.*1)
          ∧ ∀ k g s e, lookup_chain k los.*2 = Some (Accessor g (Some s) e) →
              k = "__proto__")) →
  for_each ks (table_entry C name field key more schema table) h = (Normal (), h', evs) →
  hb `prefix_of` h' ∧ length h ≤ length h'
  ∧ ∃ p' ps', h' !! table = Some (Obj p' ps' None)
      ∧ own_keys ps'
        = own_keys ps
          ++ filter (λ k, k ≠ "__proto__") (filter (λ k, is_Some (own k (props m))) ks)
      ∧ Forall (λ kp, kp ∈ ps ∨ made C h h' kp.2) ps'.
Proof using C_allocates_only C_no_setter schema_field mapping_view mapping_chain
  table_above realm_below.
  revert h p ps evs. induction ks as [|k ks IH]; intros h p ps evs Hpre Ho Hnd Hno Hstate.
  - intros [= <- <-]. split; [done |]. split; [done |]. exists p, ps.
    split; [done |]. split; [by rewrite app_nil_r |].
    apply Forall_forall. auto.
  - simpl for_each.
    intros (a & h1 & es & es' & H1 & H2 & ->)%bind_Normal_inv. destruct a.
    apply (table_entry_cases C name field key more schema mapping m table hb
             schema_field mapping_view mapping_chain k h h1 _ es Hpre) in H1
      as [(Hnone & _ & -> & ->)|[(e & [=] & _)|(Hown & d & rc & hc & Hd & HC & Hrc)]].
    + rewrite filter_cons_False in Hnd, Hstate |- *
        by (rewrite Hnone; by apply is_Some_None).
      by apply (IH h p ps es').
    + rewrite filter_cons_True in Hnd, Hstate |- * by done.
      destruct rc as [li|e]; [| by destruct Hrc as ([=] & _)].
      destruct Hrc as (es0 & HP & ->).
      pose proof (C_allocates_only _ _ _ _ HC) as Hhc.
      assert (h `prefix_of` hc) as Hhhc
        by (etrans; [| exact Hhc]; by apply prefix_app_r).
      assert (hb `prefix_of` hc) as Hpre_c by (by etrans).
      assert (hc !! table = Some (Obj p ps None)) as Ho_c
        by (by eapply prefix_lookup_Some).
      assert (k ∉ own_keys ps) as Hfresh.
      { apply NoDup_app in Hnd as (_ & Hdis & _). intros Hin.
        apply (Hdis k Hin). by left. }
      pose proof (lookup_lt_Some _ _ _ Ho_c) as Hlt.
      assert (length h ≤ length hc) as Hlen_c by (by apply prefix_length).
      assert (∀ ps1 p1 h'' p'' ps'',
                h'' !! table = Some (Obj p'' ps'' None) →
                Forall (λ kp, kp ∈ ps1
                              ∨ made C (<[table := Obj p1 ps1 None]> hc) h'' kp.2) ps'' →
                length hc ≤ length h'' →
                (∀ kp, kp ∈ ps1 → kp ∈ ps ∨ kp = (k, Data (VObject li) true)) →
                Forall (λ kp, kp ∈ ps ∨ made C h h'' kp.2) ps'') as Hmade.
      { intros ps1 p1 h'' p'' ps'' _ Hall Hlen'' Hps1.
        eapply Forall_impl; [exact Hall |]. intros [j q].
        intros [Hin|(i & args & hcall & hc' & -> & HC' & Hl1 & Hl2)].
        - destruct (Hps1 _ Hin) as [?|[= -> ->]]; [by left |]. right.
          eexists li, _, _, hc. split; [done |]. split; [exact HC |].
          rewrite length_app. simpl. lia.
        - right. exists i, args, hcall, hc'. split; [done |]. split; [done |].
          rewrite length_insert in Hl1. simpl. lia. }
      destruct (decide (k = "__proto__")) as [->|Hne].
      * destruct Hstate as [->|[Hin _]]; [| exfalso; apply Hin; by left].
        apply NoDup_app_cons_drop in Hnd as [Hnd Hrest].
        unfold Put in HP. rewrite Ho_c in HP.
        rewrite (chain_plain_object hc table _ (transitivity realm_below Hpre_c) Ho_c eq_refl)
          in HP.
        simpl lookup_chain in HP. rewrite (proj2 (own_None _ ps) Hno) in HP. simpl in HP.
        apply set_prototype_object_inv in HP as (o & los & Ho' & Hlos & Hnotin & ->).
        rewrite Ho_c in Ho'. injection Ho' as <-. simpl in H2 |- *.
        destruct (IH (<[table := Obj (Some li) ps None]> hc) (Some li) ps es')
          as (Hpre' & Hlen' & p' & ps' & Ho' & Hkeys & Hall); [| | | | | exact H2 |].
        -- by apply prefix_insert_above.
        -- by apply list_lookup_insert_eq.
        -- done.
        -- done.
        -- right. split; [done |]. exists los. split; [| split; [done |]].
           ++ apply (chain_from_keep hc); [done | by rewrite length_insert |].
              intros l Hl. apply list_lookup_insert_ne. by intros ->.
           ++ intros k' g s e. apply (C_no_setter _ _ _ _ _ _ _ _ _) with (2 := HC); [| done].
              apply prefix_app_r. by etrans.
        -- rewrite length_insert in Hlen'.
           split; [done |]. split; [lia |]. exists p', ps'. split; [done |].
           rewrite filter_cons_False by (intros Hk; by apply Hk).
           split; [done |].
           eapply (Hmade ps (Some li)); [exact Ho' | exact Hall | done | auto].
      * rewrite (filter_cons_True (λ k, k ≠ "__proto__")) by done.
        assert (∀ h3, h3 = <[table := Obj p (ps ++ [(k, Data (VObject li) true)]) None]> hc →
                  h1 = h3 →
                  (p = Some Object_prototype
                   ∨ (("__proto__" ∉ filter (λ k, is_Some (own k (props m))) ks)
                      ∧ ∃ los, chain_from (length h3) h3 p = Some los ∧ (table ∉ los.*1)
                          ∧ ∀ k g s e,
                              lookup_chain k los.*2 = Some (Accessor g (Some s) e) →
                              k = "__proto__")) →
                  hb `prefix_of` h' ∧ length h ≤ length h'
                  ∧ ∃ p' ps', h' !! table = Some (Obj p' ps' None)
                      ∧ own_keys ps'
                        = own_keys ps
                          ++ k :: filter (λ k, k ≠ "__proto__")
                                    (filter (λ k, is_Some (own k (props m))) ks)
                      ∧ Forall (λ kp, kp ∈ ps ∨ made C h h' kp.2) ps') as Hstep.
        { intros h3 -> -> Hstate'.
          destruct (IH (<[table := Obj p (ps ++ [(k, Data (VObject li) true)]) None]> hc) p
                      (ps ++ [(k, Data (VObject li) true)]) es')
            as (Hpre' & Hlen' & p' & ps' & Ho' & Hkeys & Hall);
            [| | | | exact Hstate' | exact H2 |].
          - by apply prefix_insert_above.
          - by apply list_lookup_insert_eq.
          - unfold own_keys in *. rewrite fmap_app, <- app_assoc. done.
          - unfold own_keys in *. rewrite fmap_app, not_elem_of_app. split; [done |].
            simpl. rewrite not_elem_of_cons. split; [congruence | apply not_elem_of_nil].
          - rewrite length_insert in Hlen'.
            split; [done |]. split; [lia |]. exists p', ps'. split; [done |]. split.
            + rewrite Hkeys. unfold own_keys. rewrite fmap_app, <- app_assoc. done.
            + eapply (Hmade _ p); [exact Ho' | exact Hall | done |].
              intros kp [?|Hkp%list_elem_of_singleton]%elem_of_app; auto. }
        destruct Hstate as [->|(Hnp & los & Hlos & Hnotin & Hns)].
        -- rewrite (Put_store table k (VObject li) hc _
                      [Obj (Some Object_prototype) ps None; Object_prototype_object] Ho_c)
             in HP.
           2: { apply chain_plain_object; [by etrans | done | done]. }
           2: { simpl lookup_chain. rewrite (proj2 (own_None k ps) Hfresh).
                destruct (decide ("hasOwnProperty" = k)); [done |].
                by rewrite decide_False by done. }
           injection HP as HP _. simpl in HP. rewrite store_own_new in HP by done.
           eapply Hstep; [reflexivity | by symmetry | by left].
        -- assert (chain_from (length hc) hc p = Some los) as Hlos_c.
           { apply (chain_from_keep h); [done | done |].
             intros l Hl. apply list_elem_of_fmap in Hl as ([l0 o0] & -> & Hin).
             pose proof (chain_from_lookup _ _ _ _ Hlos _ _ Hin) as Hl0. simpl.
             rewrite Hl0. by eapply prefix_lookup_Some. }
           unfold Put in HP. rewrite Ho_c in HP. unfold chain in HP. simpl view in HP.
           rewrite Ho_c in HP. simpl proto in HP. rewrite Hlos_c in HP.
           simpl lookup_chain in HP. rewrite (proj2 (own_None k ps) Hfresh) in HP.
           assert (h1 = <[table := Obj p (ps ++ [(k, Data (VObject li) true)]) None]> hc)
             as Hh1.
           { destruct (lookup_chain k los.*2) as [[x e|g [s|] e]|] eqn:Hlk.
             - injection HP as <- _. simpl. by rewrite store_own_new.
             - by pose proof (Hns _ _ _ _ Hlk).
             - done.
             - injection HP as <- _. simpl. by rewrite store_own_new. }
           eapply Hstep; [reflexivity | exact Hh1 |]. right.
           split; [intros Hin; apply Hnp; by right |].
           exists los. split; [| done].
           apply (chain_from_keep hc); [done | by rewrite length_insert |].
           intros l Hl. apply list_lookup_insert_ne. by intros ->.
Qed.

End Any_table.

(** A whole pass over a field of a well-formed raw schema. *)
Lemma table_pass_any (C : constructor) (name field key : string)
    (more : list (string * value)) (schema : value) (table : loc) (hb h h' : heap)
    (mv : value) (evs : list event) :
  allocates_only C → instances_inherit_no_setter C →
  realm `prefix_of` hb → hb `prefix_of` h → length hb ≤ table →
  field_ok hb schema field →
  h !! table = Some (literal []) →
  Get h schema field = Normal mv →
  for_each (for_in_keys h mv) (table_entry C name field key more schema table) h
  = (Normal (), h', evs) →
  hb `prefix_of` h' ∧ length h ≤ length h'
  ∧ ∃ p ps, h' !! table = Some (Obj p ps None)
      ∧ own_keys ps = filter (λ k, k ≠ "__proto__") (input_keys hb schema field)
      ∧ Forall (λ kp, made C h h' kp.2) ps.
Proof.
  intros HC Hns Hrealm Hpre Htable [HG|(lm & m & Hm)] Ht Hmv Hrun.
  - rewrite (Get_prefix hb h _ _ _ HG Hpre) in Hmv. injection Hmv as <-.
    injection Hrun as <- <-. split; [done |]. split; [done |].
    exists (Some Object_prototype), []. split; [done |]. split; [| constructor].
    by rewrite input_keys_absent.
  - pose proof (mapping_at_prefix _ _ _ _ _ _ Hm Hpre) as (HG' & Hl' & Hc' & _).
    rewrite HG' in Hmv. injection Hmv as <-.
    rewrite (input_keys_mapping _ _ _ _ _ Hm).
    destruct Hm as (HG & Hl & Hc & Hnd).
    pose proof (for_in_own_keys h (VObject lm) m Hl' Hc') as Hkeys.
    destruct (table_loop_any C name field key more schema (VObject lm) m table hb
                HC Hns HG Hl Hc Htable Hrealm (for_in_keys h (VObject lm)) h h'
                (Some Object_prototype) [] evs)
      as (Hpre' & Hlen & p & ps & Hps & Hown & Hmade); try done.
    + rewrite Hkeys. simpl. by apply NoDup_enumerable_keys.
    + apply not_elem_of_nil.
    + by left.
    + split; [done |]. split; [done |]. exists p, ps. split; [done |].
      split; [by rewrite Hown, Hkeys |].
      eapply Forall_impl; [exact Hmade |]. intros kp [Hin|?]; [| done].
      by apply elem_of_nil in Hin.
Qed.

Lemma keys_of_object (h : heap) (l : loc) (o : object) :
  h !! l = Some o → keys_of h (VObject l) = own_keys (props o).
Proof. unfold keys_of. simpl. by intros ->. Qed.

Lemma entries_of_object (h : heap) (l : loc) (o : object) :
  h !! l = Some o → entries_of h (VObject l) = (props o).*2.
Proof. unfold entries_of. simpl. by intros ->. Qed.

Section Built_any.

Variable MetadataEnum : constructor.
Variable MetadataClass : constructor.
Hypothesis MetadataEnum_allocates_only : allocates_only MetadataEnum.
Hypothesis MetadataClass_allocates_only : allocates_only MetadataClass.
Hypothesis MetadataEnum_no_setter : instances_inherit_no_setter MetadataEnum.
Hypothesis MetadataClass_no_setter : instances_inherit_no_setter MetadataClass.

(** What a completed construction from a well-formed raw schema leaves,
    whatever its identifiers: the Schema at the first location that was
    free, the enum table right after it, two tables with one instance for
    each key of the input mappings other than [__proto__], and a copy of
    the extras made when all the rest was done. *)
Lemma MetadataSchema_built_any (schema : value) (h h' : heap) (S : value)
    (evs : list event) :
  realm `prefix_of` h → wf_raw_schema h schema →
  MetadataSchema MetadataEnum MetadataClass schema h = (Normal S, h', evs) →
  S = VObject (length h) ∧ h `prefix_of` h' ∧
  ∃ C pe eps pc cps name description extras copy h3 hc,
    h' = <[length h := schema_object C (Datatypes.S (length h)) name description copy]> hc
    ∧ Get h schema "extras" = Normal extras
    ∧ h `prefix_of` h3 ∧ length h < length h3
    ∧ clone_at (length h3) extras h3 = (Normal copy, hc)
    ∧ h' !! Datatypes.S (length h) = Some (Obj pe eps None)
    ∧ own_keys eps = filter (λ k, k ≠ "__proto__") (input_keys h schema "enums")
    ∧ Forall (λ kp, made MetadataEnum h h' kp.2) eps
    ∧ h' !! C = Some (Obj pc cps None)
    ∧ own_keys cps = filter (λ k, k ≠ "__proto__") (input_keys h schema "classes")
    ∧ Forall (λ kp, made MetadataClass h h' kp.2) cps
    ∧ Datatypes.S (length h) < C.
Proof using MetadataEnum_allocates_only MetadataClass_allocates_only
  MetadataEnum_no_setter MetadataClass_no_setter.
  intros Hrealm ([l ->] & Hfe & Hfc) Hrun.
  assert (is_Some (chain h (VObject l))) as Hchain.
  { destruct Hfe as [HG|(lm & m & HG & _)]; by eapply Get_Normal_chain. }
  rewrite MetadataSchema_unfold in Hrun.
  set (this := length h) in *. set (E := Datatypes.S this).
  set (this_obj := Obj (Some MetadataSchema_prototype) [] None).
  rewrite (bind_step _ _ h _ this) in Hrun by reflexivity.
  rewrite (bind_step _ _ _ _ ()) in Hrun by reflexivity.
  rewrite (bind_step _ _ _ _ (length (h ++ [this_obj]))) in Hrun by reflexivity.
  replace (length (h ++ [this_obj])) with E in Hrun
    by (rewrite length_app; unfold E, this; simpl; lia).
  set (hb := h ++ [this_obj]) in *.
  assert (length hb = E) as Hlen_hb by (unfold hb; rewrite length_app; simpl; unfold E, this; lia).
  assert (h `prefix_of` hb) as Hhb by (by apply prefix_app_r).
  set (h0 := hb ++ [literal []]) in *.
  assert (hb `prefix_of` h0) as Hh0 by (by apply prefix_app_r).
  apply bind_Normal_inv in Hrun as (se & h1 & es1 & es1' & H1 & Hrun & ->).
  injection H1 as H1 <- <-.
  rewrite (bind_step _ _ _ _ (for_in_keys h0 se)) in Hrun by reflexivity.
  apply bind_Normal_inv in Hrun as ([] & h2 & es2 & es2' & H2 & Hrun & ->).
  destruct (table_pass_any MetadataEnum "MetadataEnum" "enums" "enum" [] (VObject l) E
              hb h0 h2 se es2) as (Hhb2 & Hlen2 & pe & eps & Heps & Hekeys & Hemade);
    try done.
  { by etrans. }
  { lia. }
  { by eapply field_ok_prefix. }
  { unfold h0. rewrite <- Hlen_hb. apply lookup_middle. }
  rewrite (input_keys_prefix h hb) in Hekeys by done.
  unfold after_enums in Hrun.
  rewrite (bind_step _ _ h2 _ (length h2)) in Hrun by reflexivity.
  set (C := length h2) in *.
  apply bind_Normal_inv in Hrun as (sc & h3' & es3 & es3' & H3 & Hrun & ->).
  injection H3 as H3 <- <-.
  rewrite (bind_step _ _ _ _ (for_in_keys (h2 ++ [literal []]) sc)) in Hrun by reflexivity.
  apply bind_Normal_inv in Hrun as ([] & h4 & es4 & es4' & H4 & Hrun & ->).
  assert (h `prefix_of` h2) as Hh2 by (by etrans).
  destruct (table_pass_any MetadataClass "MetadataClass" "classes" "class"
              [("enums", VObject E)] (VObject l) C h2 (h2 ++ [literal []]) h4 sc es4)
    as (Hh24 & Hlen4 & pc & cps & Hcps & Hckeys & Hcmade); try done.
  { by etrans. }
  { by apply prefix_app_r. }
  { by eapply field_ok_prefix. }
  { apply lookup_middle. }
  rewrite (input_keys_prefix h h2) in Hckeys by done.
  assert (h4 !! this = Some this_obj) as Hthis4.
  { eapply prefix_lookup_Some; [| exact Hh24]. eapply prefix_lookup_Some; [| exact Hhb2].
    apply lookup_middle. }
  destruct (assemble_inv (VObject l) this E C h4 h' S es4')
    as (name & description & extras & copy & h3 & hc & -> & -> & Hh3 & HG & Hclone & ->);
    [by do 2 (etrans; [| eassumption]) | done | done |].
  destruct (HG h) as (Hn & Hd & Hx); [by etrans | done | done |].
  assert (length h3 = length h4) as Hlen3 by (rewrite Hh3; apply length_insert).
  pose proof (clone_at_prefix _ _ _ _ _ Hclone) as Hhc.
  pose proof (prefix_length _ _ Hhc) as Hlenc.
  pose proof (prefix_length _ _ Hh24) as Hlen24.
  assert (length h0 = Datatypes.S E) as Hlen0
    by (unfold h0; rewrite length_app, Hlen_hb; simpl; lia).
  rewrite length_app in Hlen4. simpl in Hlen4.
  assert (h `prefix_of` h3) as Hhh3.
  { rewrite Hh3. apply prefix_insert_above; [by etrans | done]. }
  split; [done |]. split.
  { apply prefix_insert_above; [by etrans | done]. }
  exists C, pe, eps, pc, cps, name, description, extras, copy, h3, hc.
  assert (∀ l0 o0, l0 ≠ this → h4 !! l0 = Some o0 →
            <[this := schema_object C E name description copy]> hc !! l0 = Some o0)
    as Hkeep.
  { intros l0 o0 Hne Hl0. rewrite list_lookup_insert_ne by done.
    eapply prefix_lookup_Some; [| exact Hhc]. rewrite Hh3.
    by rewrite list_lookup_insert_ne. }
  split; [done |]. split; [done |].
  split; [done |]. split; [unfold this in *; lia |].
  split; [by rewrite Hlen3 |].
  split; [apply Hkeep; [unfold E; lia | by eapply prefix_lookup_Some] |].
  split; [done |]. split.
  { eapply Forall_impl; [exact Hemade |]. intros kp Hm.
    eapply made_weaken; [exact Hm | |].
    - pose proof (prefix_length _ _ Hhb). pose proof (prefix_length _ _ Hh0). lia.
    - rewrite length_insert. lia. }
  split; [apply Hkeep; [unfold C, E in *; lia | done] |].
  split; [done |]. split.
  { eapply Forall_impl; [exact Hcmade |]. intros kp Hm.
    eapply made_weaken; [exact Hm | |].
    - rewrite length_app. pose proof (prefix_length _ _ Hh2). lia.
    - rewrite length_insert. lia. }
  unfold C. lia.
Qed.

End Built_any.

(** * Two constructions from the same content *)

Section Two_runs_any.

Variable MetadataEnum : constructor.
Variable MetadataClass : constructor.
Hypothesis MetadataEnum_allocates_only : allocates_only MetadataEnum.
Hypothesis MetadataClass_allocates_only : allocates_only MetadataClass.
Hypothesis MetadataEnum_returns_new : returns_new MetadataEnum.
Hypothesis MetadataClass_returns_new : returns_new MetadataClass.
Hypothesis MetadataEnum_no_setter : instances_inherit_no_setter MetadataEnum.
Hypothesis MetadataClass_no_setter : instances_inherit_no_setter MetadataClass.

(** C8. Two raw schemas that are different objects with the same
    content, both well-formed, whatever their identifiers, and whose
    extras have a content, are constructed one after the other. Then the
    two Schemas are different objects; their [classes] tables have the
    same keys and so have their [enums] tables; their extras have the same
    content; and every Enum and every Class instance of the first is a
    different object from every instance of the second. The constructors
    are any that only add objects and return a new object that inherits no
    setter but that of [__proto__]. *)
Theorem two_constructions_agree (schema1 schema2 : value) (h h1 h2 : heap)
    (S1 S2 : value) (evs1 evs2 : list event) (t : tree) :
  realm `prefix_of` h →
  wf_raw_schema h schema1 → wf_raw_schema h schema2 →
  schema1 ≠ schema2 → content h schema1 = Some t → content h schema2 = Some t →
  (∀ x, Get h schema1 "extras" = Normal x → is_Some (content h x)) →
  MetadataSchema MetadataEnum MetadataClass schema1 h = (Normal S1, h1, evs1) →
  MetadataSchema MetadataEnum MetadataClass schema2 h1 = (Normal S2, h2, evs2) →
  S1 ≠ S2 ∧
  ∃ C1 C2 E1 E2 x1 x2 tx,
    Get h2 S1 "classes" = Normal (VObject C1) ∧ Get h2 S2 "classes" = Normal (VObject C2)
    ∧ keys_of h2 (VObject C1) = keys_of h2 (VObject C2)
    ∧ Get h2 S1 "enums" = Normal (VObject E1) ∧ Get h2 S2 "enums" = Normal (VObject E2)
    ∧ keys_of h2 (VObject E1) = keys_of h2 (VObject E2)
    ∧ Get h2 S1 "extras" = Normal x1 ∧ Get h2 S2 "extras" = Normal x2
    ∧ content h2 x1 = Some tx ∧ content h2 x2 = Some tx
    ∧ (∀ p1 p2, p1 ∈ entries_of h2 (VObject C1) → p2 ∈ entries_of h2 (VObject C2) →
         ∃ a b, p1 = Data (VObject a) true ∧ p2 = Data (VObject b) true ∧ a ≠ b)
    ∧ (∀ p1 p2, p1 ∈ entries_of h2 (VObject E1) → p2 ∈ entries_of h2 (VObject E2) →
         ∃ a b, p1 = Data (VObject a) true ∧ p2 = Data (VObject b) true ∧ a ≠ b).
Proof using MetadataEnum_allocates_only MetadataClass_allocates_only
  MetadataEnum_returns_new MetadataClass_returns_new MetadataEnum_no_setter
  MetadataClass_no_setter.
  intros Hrealm Hwf1 Hwf2 Hne Ht1 Ht2 Hextras Hrun1 Hrun2.
  assert (similar h schema1 schema2) as Hsim by (right; by exists t).
  destruct (MetadataSchema_built_any MetadataEnum MetadataClass MetadataEnum_allocates_only
              MetadataClass_allocates_only MetadataEnum_no_setter MetadataClass_no_setter
              schema1 h h1 S1 evs1 Hrealm Hwf1 Hrun1)
    as (-> & Hpre1 & C1 & pe1 & eps1 & pc1 & cps1 & name1 & description1 & x1 & copy1
        & h31 & hc1 & Hh1 & Hx1 & Hh31 & Hlt1 & Hclone1 & HE1 & Hekeys1 & Hemade1
        & HC1 & Hckeys1 & Hcmade1 & _).
  assert (realm `prefix_of` h1) as Hrealm1 by by etrans.
  assert (wf_raw_schema h1 schema2) as Hwf2'.
  { destruct Hwf2 as (Hobj & Hfe & Hfc).
    split; [done |]. split; by eapply field_ok_prefix. }
  destruct (MetadataSchema_built_any MetadataEnum MetadataClass MetadataEnum_allocates_only
              MetadataClass_allocates_only MetadataEnum_no_setter MetadataClass_no_setter
              schema2 h1 h2 S2 evs2 Hrealm1 Hwf2' Hrun2)
    as (-> & Hpre2 & C2 & pe2 & eps2 & pc2 & cps2 & name2 & description2 & x2 & copy2
        & h32 & hc2 & Hh2 & Hx2 & Hh32 & Hlt2 & Hclone2 & HE2 & Hekeys2 & Hemade2
        & HC2 & Hckeys2 & Hcmade2 & _).
  assert (realm `prefix_of` h2) as Hrealm2 by by etrans.
  pose proof (prefix_length _ _ (clone_at_prefix _ _ _ _ _ Hclone1)) as Hlenc1.
  pose proof (prefix_length _ _ (clone_at_prefix _ _ _ _ _ Hclone2)) as Hlenc2.
  assert (length h1 = length hc1) as Hlen1 by (rewrite Hh1; apply length_insert).
  assert (length h2 = length hc2) as Hlen2 by (rewrite Hh2; apply length_insert).
  assert (h1 !! length h = Some (schema_object C1 (S (length h)) name1 description1 copy1))
    as Hthis1 by (rewrite Hh1; apply list_lookup_insert_eq; lia).
  assert (h2 !! length h1 = Some (schema_object C2 (S (length h1)) name2 description2 copy2))
    as Hthis2 by (rewrite Hh2; apply list_lookup_insert_eq; lia).
  split; [intros [=]; lia |].
  destruct (Hextras x1 Hx1) as [tx Htx].
  assert (content h1 x2 = Some tx) as Htx2.
  { pose proof (Get_at_similar stack_limit h schema1 schema2 "extras" Hsim) as HG.
    fold (Get h schema1 "extras") in HG. fold (Get h schema2 "extras") in HG.
    rewrite Hx1 in HG.
    rewrite (Get_prefix_eq h h1) in Hx2; [| | done].
    2: { destruct Hwf2 as (_ & [HG'|(lm & m & HG' & _)] & _); by eapply Get_Normal_chain. }
    rewrite Hx2 in HG. eapply content_prefix; [| exact Hpre1].
    destruct HG as [<-|(t' & Ht' & Ht'')]; [done | congruence]. }
  destruct (clone_at_content (length h) x1 h tx Htx (length h31) h31 ltac:(lia) Hh31)
    as (copy1' & hc1' & Hclone1' & _ & Hcontent1).
  rewrite Hclone1 in Hclone1'. injection Hclone1' as <- <-.
  destruct (clone_at_content (length h1) x2 h1 tx Htx2 (length h32) h32 ltac:(lia) Hh32)
    as (copy2' & hc2' & Hclone2' & _ & Hcontent2).
  rewrite Hclone2 in Hclone2'. injection Hclone2' as <- <-.
  exists C1, C2, (S (length h)), (S (length h1)), copy1, copy2, tx.
  assert (∀ l o, h1 !! l = Some o → h2 !! l = Some o) as Hkeep
    by (intros l o Hl; by eapply prefix_lookup_Some).
  split_and!.
  - eapply (Get_accessor h2 _ _ "classes" "_classes" _ true);
      [exact Hrealm2 | exact (Hkeep _ _ Hthis1) | reflexivity | unfold accessors; in_list
      | reflexivity | reflexivity].
  - eapply (Get_accessor h2 _ _ "classes" "_classes" _ true);
      [exact Hrealm2 | exact Hthis2 | reflexivity | unfold accessors; in_list
      | reflexivity | reflexivity].
  - rewrite (keys_of_object _ _ _ (Hkeep _ _ HC1)), (keys_of_object _ _ _ HC2). simpl.
    rewrite Hckeys1, Hckeys2.
    destruct Hwf2 as (_ & Hfe & Hfc). rewrite (input_keys_prefix h h1) by assumption.
    f_equal. by apply similar_input_keys.
  - eapply (Get_accessor h2 _ _ "enums" "_enums" _ true);
      [exact Hrealm2 | exact (Hkeep _ _ Hthis1) | reflexivity | unfold accessors; in_list
      | reflexivity | reflexivity].
  - eapply (Get_accessor h2 _ _ "enums" "_enums" _ true);
      [exact Hrealm2 | exact Hthis2 | reflexivity | unfold accessors; in_list
      | reflexivity | reflexivity].
  - rewrite (keys_of_object _ _ _ (Hkeep _ _ HE1)), (keys_of_object _ _ _ HE2). simpl.
    rewrite Hekeys1, Hekeys2.
    destruct Hwf2 as (_ & Hfe & Hfc). rewrite (input_keys_prefix h h1) by assumption.
    f_equal. by apply similar_input_keys.
  - eapply (Get_accessor h2 _ _ "extras" "_extras" _ true);
      [exact Hrealm2 | exact (Hkeep _ _ Hthis1) | reflexivity | unfold accessors; in_list
      | reflexivity | reflexivity].
  - eapply (Get_accessor h2 _ _ "extras" "_extras" _ true);
      [exact Hrealm2 | exact Hthis2 | reflexivity | unfold accessors; in_list
      | reflexivity | reflexivity].
  - apply Hcontent1; [pose proof (prefix_length _ _ Hpre2); lia |].
    intros l Hge Hlt.
    destruct (lookup_lt_is_Some_2 hc1 l Hlt) as [o Ho]. rewrite Ho.
    apply Hkeep. rewrite Hh1. rewrite list_lookup_insert_ne by lia. done.
  - apply Hcontent2; [lia |].
    intros l Hge Hlt. rewrite Hh2. apply list_lookup_insert_ne. lia.
  - intros p1 p2.
    rewrite (entries_of_object _ _ _ (Hkeep _ _ HC1)), (entries_of_object _ _ _ HC2). simpl.
    intros ([k1 q1] & -> & Hin1)%list_elem_of_fmap ([k2 q2] & -> & Hin2)%list_elem_of_fmap.
    eapply Forall_forall in Hcmade1; [| exact Hin1].
    eapply Forall_forall in Hcmade2; [| exact Hin2].
    destruct (made_between _ _ _ _ MetadataClass_returns_new Hcmade1) as (a & -> & Ha).
    destruct (made_between _ _ _ _ MetadataClass_returns_new Hcmade2) as (b & -> & Hb).
    exists a, b. split; [done |]. split; [done |]. lia.
  - intros p1 p2.
    rewrite (entries_of_object _ _ _ (Hkeep _ _ HE1)), (entries_of_object _ _ _ HE2). simpl.
    intros ([k1 q1] & -> & Hin1)%list_elem_of_fmap ([k2 q2] & -> & Hin2)%list_elem_of_fmap.
    eapply Forall_forall in Hemade1; [| exact Hin1].
    eapply Forall_forall in Hemade2; [| exact Hin2].
    destruct (made_between _ _ _ _ MetadataEnum_returns_new Hemade1) as (a & -> & Ha).
    destruct (made_between _ _ _ _ MetadataEnum_returns_new Hemade2) as (b & -> & Hb).
    exists a, b. split; [done |]. split; [done |]. lia.
Qed.

End Two_runs_any.

(** * The keys of the tables, whatever the identifiers *)

Section All_keys.

Variable MetadataEnum : constructor.
Variable MetadataClass : constructor.
Hypothesis MetadataEnum_allocates_only : allocates_only MetadataEnum.
Hypothesis MetadataClass_allocates_only : allocates_only MetadataClass.
Hypothesis MetadataEnum_no_setter : instances_inherit_no_setter MetadataEnum.
Hypothesis MetadataClass_no_setter : instances_inherit_no_setter MetadataClass.

(** X14. For every well-formed raw schema, the tables of the constructed
    Schema have exactly the keys of the input's mappings other than
    [__proto__], in the same order, when the instances inherit no setter
    but that of [__proto__]. *)
Theorem tables_have_all_keys_but_proto (schema : value) (h h' : heap) (S : value)
    (evs : list event) :
  realm `prefix_of` h → wf_raw_schema h schema →
  MetadataSchema MetadataEnum MetadataClass schema h = (Normal S, h', evs) →
  ∃ C E,
    Get h' S "classes" = Normal (VObject C)
    ∧ keys_of h' (VObject C)
      = filter (λ k, k ≠ "__proto__") (input_keys h schema "classes")
    ∧ Get h' S "enums" = Normal (VObject E)
    ∧ keys_of h' (VObject E)
      = filter (λ k, k ≠ "__proto__") (input_keys h schema "enums").
Proof using MetadataEnum_allocates_only MetadataClass_allocates_only
  MetadataEnum_no_setter MetadataClass_no_setter.
  intros Hrealm Hwf Hrun.
  destruct (MetadataSchema_built_any MetadataEnum MetadataClass MetadataEnum_allocates_only
              MetadataClass_allocates_only MetadataEnum_no_setter MetadataClass_no_setter
              schema h h' S evs Hrealm Hwf Hrun)
    as (-> & Hpre & C & pe & eps & pc & cps & name & description & x & copy
        & h3 & hc & Hh' & _ & Hh3 & Hlt & Hclone & HE & Hekeys & _ & HC & Hckeys & _ & _).
  assert (h' !! length h
          = Some (schema_object C (Datatypes.S (length h)) name description copy)) as Hthis.
  { rewrite Hh'. apply list_lookup_insert_eq.
    pose proof (prefix_length _ _ (clone_at_prefix _ _ _ _ _ Hclone)). lia. }
  assert (realm `prefix_of` h') as Hrealm' by by etrans.
  exists C, (Datatypes.S (length h)).
  rewrite (keys_of_object _ _ _ HC), (keys_of_object _ _ _ HE). simpl.
  split; [| split; [exact Hckeys | split; [| exact Hekeys]]].
  - eapply (Get_accessor h' _ _ "classes" "_classes" _ true);
      [exact Hrealm' | exact Hthis | reflexivity | unfold accessors; in_list
      | reflexivity | reflexivity].
  - eapply (Get_accessor h' _ _ "enums" "_enums" _ true);
      [exact Hrealm' | exact Hthis | reflexivity | unfold accessors; in_list
      | reflexivity | reflexivity].
Qed.

End All_keys.

(** * Further concrete runs *)

Lemma chain_from_plain (h : heap) (l : loc) (o : object) :
  realm `prefix_of` h → h !! l = Some o → proto o = Some Object_prototype →
  chain_from (length h) h (Some l)
  = Some [(l, o); (Object_prototype, Object_prototype_object)].
Proof.
  intros Hrealm Hl Hp.
  pose proof (realm_lookup h Object_prototype _ Hrealm eq_refl) as H0.
  pose proof (prefix_length _ _ Hrealm) as Hlen. simpl in Hlen.
  destruct (length h) as [|[|[|n]]]; [lia.. |].
  simpl. rewrite Hl. simpl. rewrite Hp. unfold Object_prototype in *. by rewrite H0.
Qed.

Lemma plain_instance_no_setter (h : heap) (l : loc) (fields : list (string * value))
    (los : list (loc * object)) (k : string) (g : option getter) (s : setter) (e : bool) :
  realm `prefix_of` h → h !! l = Some (literal fields) →
  chain_from (length h) h (Some l) = Some los →
  lookup_chain k los.*2 = Some (Accessor g (Some s) e) → k = "__proto__".
Proof.
  intros Hrealm Hl Hlos. rewrite (chain_from_plain h l _ Hrealm Hl eq_refl) in Hlos.
  injection Hlos as <-. intros Hlk.
  change ([(l, literal fields); (Object_prototype, Object_prototype_object)].*2)
    with [literal fields; Object_prototype_object] in Hlk.
  change (lookup_chain k [(literal fields); Object_prototype_object])
    with (match own k (props (literal fields)) with
          | Some p => Some p
          | None => lookup_chain k [Object_prototype_object]
          end) in Hlk.
  destruct (own k (props (literal fields))) as [p|] eqn:Hown.
  - cbv beta iota in Hlk. injection Hlk as ->. exfalso. clear -Hown. unfold literal in Hown. simpl in Hown.
    induction fields as [|[k' v] fields IH]; [done |]. simpl in Hown.
    destruct (decide (k' = k)); [done | auto].
  - cbv beta iota in Hlk. simpl in Hlk. repeat case_decide; by simplify_eq.
Qed.

Lemma Enum_unit_no_setter : instances_inherit_no_setter Enum_unit.
Proof.
  intros args h l h' los k g s e Hrealm. unfold Enum_unit.
  repeat case_match; intros [= <- <-]. 
  eapply plain_instance_no_setter; [by apply prefix_app_r | apply lookup_middle].
Qed.

Lemma Class_unit_no_setter : instances_inherit_no_setter Class_unit.
Proof.
  intros args h l h' los k g s e Hrealm. unfold Class_unit.
  repeat case_match; intros [= <- <-].
  eapply plain_instance_no_setter; [by apply prefix_app_r |].
  rewrite lookup_app_r by lia. by replace (S (length h) - length h) with 1 by lia.
Qed.



(** C8 at the two copies of the sample schema. *)
Lemma two_constructions_agree_witness :
  ∃ S1 S2 h1 h2 evs1 evs2 t,
    realm `prefix_of` twin_heap
    ∧ wf_raw_schema twin_heap (VObject 4) ∧ wf_raw_schema twin_heap (VObject 13)
    ∧ VObject 4 ≠ VObject 13
    ∧ content twin_heap (VObject 4) = Some t ∧ content twin_heap (VObject 13) = Some t
    ∧ MetadataSchema Enum_unit Class_unit (VObject 4) twin_heap = (Normal S1, h1, evs1)
    ∧ MetadataSchema Enum_unit Class_unit (VObject 13) h1 = (Normal S2, h2, evs2)
    ∧ S1 ≠ S2
    ∧ ∃ C1 C2 E1 E2 x1 x2 tx,
        Get h2 S1 "classes" = Normal (VObject C1) ∧ Get h2 S2 "classes" = Normal (VObject C2)
        ∧ keys_of h2 (VObject C1) = keys_of h2 (VObject C2)
        ∧ Get h2 S1 "enums" = Normal (VObject E1) ∧ Get h2 S2 "enums" = Normal (VObject E2)
        ∧ keys_of h2 (VObject E1) = keys_of h2 (VObject E2)
        ∧ Get h2 S1 "extras" = Normal x1 ∧ Get h2 S2 "extras" = Normal x2
        ∧ content h2 x1 = Some tx ∧ content h2 x2 = Some tx
        ∧ (∀ p1 p2, p1 ∈ entries_of h2 (VObject C1) → p2 ∈ entries_of h2 (VObject C2) →
             ∃ a b, p1 = Data (VObject a) true ∧ p2 = Data (VObject b) true ∧ a ≠ b)
        ∧ (∀ p1 p2, p1 ∈ entries_of h2 (VObject E1) → p2 ∈ entries_of h2 (VObject E2) →
             ∃ a b, p1 = Data (VObject a) true ∧ p2 = Data (VObject b) true ∧ a ≠ b).
Proof.
  eexists _, _, _, _, _, _, _. split; [apply realm_prefix |].
  split; [wf_computation |]. split; [wf_computation |].
  split; [discriminate |]. split; [run |]. split; [run |]. split; [run |]. split; [run |].
  eapply (two_constructions_agree Enum_unit Class_unit Enum_unit_allocates_only
            Class_unit_allocates_only Enum_unit_returns_new Class_unit_returns_new
            Enum_unit_no_setter Class_unit_no_setter
            (VObject 4) (VObject 13) twin_heap);
    [apply realm_prefix | wf_computation | wf_computation
    | discriminate | run | run | | run | run].
  intros x Hx. replace x with (VObject 11); [eexists; run |].
  assert (Get twin_heap (VObject 4) "extras" = Normal (VObject 11)) as H11 by run.
  rewrite H11 in Hx. by injection Hx.
Defined.

(** X12 at the sample schema. *)
Lemma classes_get_the_complete_enum_table_witness :
  ∃ r h' evs,
    realm `prefix_of` sample_heap
    ∧ wf_raw_schema sample_heap (VObject 4)
    ∧ ("__proto__" ∉ input_keys sample_heap (VObject 4) "enums")
    ∧ MetadataSchema Enum_unit Class_unit (VObject 4) sample_heap = (r, h', evs)
    ∧ ∃ E enum_calls class_calls,
        evs = enum_calls ++ class_calls
        ∧ Forall (λ ev, ev_ctor ev = "MetadataEnum") enum_calls
        ∧ Forall (λ ev, class_call E ev
                        ∧ Forall2 (entry_of sample_heap (VObject 4) "MetadataEnum" "enums"
                                     "enum" [] (ev_heap ev) E)
                            (input_keys sample_heap (VObject 4) "enums") enum_calls)
            class_calls
        ∧ ∀ S, r = Normal S →
            Get h' S "enums" = Normal (VObject E)
            ∧ Forall2 (entry_of sample_heap (VObject 4) "MetadataEnum" "enums" "enum" []
                         h' E)
                (input_keys sample_heap (VObject 4) "enums") enum_calls.
Proof.
  eexists _, _, _. split; [apply realm_prefix |]. split; [wf_computation |].
  split; [by_computation |]. split; [run |].
  eapply (classes_get_the_complete_enum_table Enum_unit Class_unit Enum_unit_allocates_only
            Class_unit_allocates_only (VObject 4) sample_heap);
    [apply realm_prefix | wf_computation | by_computation | run].
Defined.

(** X14 at the schema with an enum named [__proto__] and a class. *)
Lemma tables_have_all_keys_but_proto_witness :
  ∃ S h' evs,
    realm `prefix_of` proto_enum_class_heap
    ∧ wf_raw_schema proto_enum_class_heap (VObject 4)
    ∧ MetadataSchema Enum_unit Class_unit (VObject 4) proto_enum_class_heap
      = (Normal S, h', evs)
    ∧ ∃ C E,
        Get h' S "classes" = Normal (VObject C)
        ∧ keys_of h' (VObject C)
          = filter (λ k, k ≠ "__proto__")
              (input_keys proto_enum_class_heap (VObject 4) "classes")
        ∧ Get h' S "enums" = Normal (VObject E)
        ∧ keys_of h' (VObject E)
          = filter (λ k, k ≠ "__proto__")
              (input_keys proto_enum_class_heap (VObject 4) "enums").
Proof.
  eexists _, _, _. split; [apply realm_prefix |]. split; [wf_computation |].
  split; [run |].
  eapply (tables_have_all_keys_but_proto Enum_unit Class_unit Enum_unit_allocates_only
            Class_unit_allocates_only Enum_unit_no_setter Class_unit_no_setter
            (VObject 4) proto_enum_class_heap);
    [apply realm_prefix | wf_computation | run].
Defined.
